(** * coreyog/wordle: guess scoring, session loop, word lists and statistics

    A shallow embedding of the Go program and the proofs of its specified
    properties.

    Sources embedded here:
    - [src/unnamed/part_000], second document: the current [main.go]
      (keyboard hints, two word lists, daily puzzle, statistics).  Its
      functions are the top-level definitions of this file.
    - [src/main.go]: the first revision of the same file; its [formatGuess]
      differs and lives in [Module MainGo].

    Conventions.
    - A Go [string] is a byte string: [String.string], a byte is [ascii].
      The words of the embedded lists are upper-case ASCII letters, so
      [for i := range s] visits every byte index and [byte(r)] is the byte
      itself; the loops below run over [seq 0 (len s)].
    - A Go [int] is a 64-bit two's complement integer: a [Z] kept in range by
      [wrap].  Slice and string indices are [nat]; an index out of range is a
      run-time panic, modelled by [None] in the option monad.
    - A Go map read of a missing key yields the zero value ([getCount],
      [getHint]).
    - Terminal output is kept as data ([Slot], [Line]); colours are the hint
      they stand for. *)

From Stdlib Require Import ZArith Ascii String List Lia Bool Sorting.Sorted Floats.
From Stdlib Require DecimalString.
From stdpp Require Import base option list gmap strings fin_maps.
From Equations Require Import Equations.

Local Open Scope string_scope.
Local Open Scope list_scope.
Local Open Scope Z_scope.

(** ** Constants *)

Definition TotalGuesses : nat := 6.
Definition WordLength : nat := 5.

Definition rune := Z.

Definition KeyCodeWinBackspace : rune := 8.
Definition KeyCodeEnter : rune := 13.
Definition KeyCodeMacBackspace : rune := 127.

Definition EmojiNotInWord : rune := 0x2B1B.
Definition EmojiSomewhere : rune := 0x1F7E8.
Definition EmojiLocated : rune := 0x1F7E9.

(** [type KeyHint byte] with its [iota] constants. *)
Inductive KeyHint : Set :=
| KeyHintUnknown
| KeyHintNotInWord
| KeyHintSomewhere
| KeyHintLocated.

#[global] Instance KeyHint_eq_dec : EqDecision KeyHint.
Proof. solve_decision. Defined.

#[global] Instance KeyHint_inhabited : Inhabited KeyHint := populate KeyHintUnknown.

Definition KeyHint_val (h : KeyHint) : Z :=
  match h with
  | KeyHintUnknown => 0
  | KeyHintNotInWord => 1
  | KeyHintSomewhere => 2
  | KeyHintLocated => 3
  end.

(** ** Go integers *)

Definition int_min : Z := - 2 ^ 63.
Definition int_max : Z := 2 ^ 63 - 1.

Definition wrap (z : Z) : Z := (z + 2 ^ 63) mod 2 ^ 64 - 2 ^ 63.

Definition int_incr (z : Z) : Z := wrap (z + 1).
Definition int_decr (z : Z) : Z := wrap (z - 1).

(** ** Strings and loops *)

Definition bytes (s : string) : list ascii := list_ascii_of_string s.

Definition len (s : string) : nat := String.length s.

(** [s[i]]: panics when [i] is out of range. *)
Definition at_ (s : string) (i : nat) : option ascii := String.get i s.

Definition rune_of_byte (b : ascii) : rune := Z.of_N (N_of_ascii b).

(** A [for] loop over the given indices whose body may panic. *)
Fixpoint loop {S : Type} (body : nat -> S -> option S) (idx : list nat) (s : S)
  : option S :=
  match idx with
  | [] => Some s
  | i :: rest =>
      match body i s with
      | Some s' => loop body rest s'
      | None => None
      end
  end.

(** ** Letter counts: [map[byte]int] *)

Definition getCount (m : gmap ascii Z) (k : ascii) : Z := default 0 (m !! k).

(** [mapString] maps a string to a count of each character's occurrences. *)
Definition mapString (str : string) : gmap ascii Z :=
  foldl (fun m r => <[r := int_incr (getCount m r)]> m) ∅ (bytes str).

(** ** Keyboard hints: [map[rune]KeyHint] *)

Definition getHint (kb : gmap rune KeyHint) (r : rune) : KeyHint :=
  default KeyHintUnknown (kb !! r).

(** [initKeyboard]: every key from 'A' to 'Z' starts unknown. *)
Definition initKeyboard : gmap rune KeyHint :=
  foldl (fun kb i => <[i := KeyHintUnknown]> kb) ∅
        (map (fun k => 65 + Z.of_nat k) (seq 0 26)).

Definition setKeyHint (r : rune) (hint : KeyHint) (kb : gmap rune KeyHint)
  : gmap rune KeyHint :=
  let existing := getHint kb r in
  if KeyHint_val existing <? KeyHint_val hint then <[r := hint]> kb else kb.

(** ** The board: the package-level variables [formatGuess] writes *)

Record Board : Type := mkBoard {
  discovered : list bool;
  keyboard : gmap rune KeyHint;
  emojiStack : list (list rune)
}.

Definition initBoard : Board :=
  {| discovered := replicate WordLength false;
     keyboard := initKeyboard;
     emojiStack := [] |}.

(** One cell of a rendered guess line.  [SlotColor h b] is the letter [b]
    printed by [hintColorFns[h]] (red, yellow or green). *)
Inductive Slot : Set :=
| SlotEmpty
| SlotPlain (b : ascii)
| SlotColor (h : KeyHint) (b : ascii)
| SlotCursor
| SlotBlank.

(** A status line: the indentation, the cells joined by spaces, and what the
    caller appends to them. *)
Record Line : Type := mkLine {
  indent : nat;
  slots : list Slot;
  note : string
}.

(** [a[i] = x] on a slice. *)
Definition set_at {A : Type} (l : list A) (i : nat) (x : A) : option (list A) :=
  if decide (i < length l)%nat then Some (<[i := x]> l) else None.

(** First loop of [formatGuess]: "map and remove correct guesses". *)
Definition removeCorrect (word guess : string) (i : nat) (m : gmap ascii Z)
  : option (gmap ascii Z) :=
  g ← at_ guess i;
  w ← at_ word i;
  if decide (g = w) then Some (<[w := int_decr (getCount m w)]> m) else Some m.

(** The locals and globals the second loop of [formatGuess] updates. *)
Record Scoring : Type := mkScoring {
  sc_m : gmap ascii Z;
  sc_slots : list Slot;
  sc_emoji : list rune;
  sc_board : Board
}.

(** Body of the second loop of [formatGuess]. *)
Definition scoreLetter (word guess : string) (clr : bool) (i : nat) (s : Scoring)
  : option Scoring :=
  let '(mkScoring m slots emoji b) := s in
  if clr then
    g ← at_ guess i;
    w ← at_ word i;
    if decide (g = w) then
      d ← set_at (discovered b) i true;
      let kb := setKeyHint (rune_of_byte g) KeyHintLocated (keyboard b) in
      let emoji := emoji ++ [EmojiLocated] in
      slots ← set_at slots i (SlotColor KeyHintLocated g);
      Some (mkScoring m slots emoji (mkBoard d kb (emojiStack b)))
    else if 0 <? getCount m g then
      let m := <[g := int_decr (getCount m g)]> m in
      let kb := setKeyHint (rune_of_byte g) KeyHintSomewhere (keyboard b) in
      let emoji := emoji ++ [EmojiSomewhere] in
      slots ← set_at slots i (SlotColor KeyHintSomewhere g);
      Some (mkScoring m slots emoji (mkBoard (discovered b) kb (emojiStack b)))
    else
      let kb := setKeyHint (rune_of_byte g) KeyHintNotInWord (keyboard b) in
      let emoji := emoji ++ [EmojiNotInWord] in
      slots ← set_at slots i (SlotColor KeyHintNotInWord g);
      Some (mkScoring m slots emoji (mkBoard (discovered b) kb (emojiStack b)))
  else
    g ← at_ guess i;
    slots ← set_at slots i (SlotPlain g);
    Some (mkScoring m slots emoji b).

(** Last loop of [formatGuess]: "add cursor and blanks". *)
Definition addBlank (i : nat) (s : list Slot * bool) : option (list Slot * bool) :=
  let '(slots, first) := s in
  if first then
    slots ← set_at slots i SlotCursor; Some (slots, false)
  else
    slots ← set_at slots i SlotBlank; Some (slots, first).

Definition formatGuess (word guess : string) (clr : bool) (b : Board)
  : option (Line * Board) :=
  m ← loop (removeCorrect word guess) (seq 0 (len guess)) (mapString word);
  s ← loop (scoreLetter word guess clr) (seq 0 (len guess))
        (mkScoring m (replicate WordLength SlotEmpty) [] b);
  let b := sc_board s in
  let b := if clr
           then mkBoard (discovered b) (keyboard b) (emojiStack b ++ [sc_emoji s])
           else b in
  r ← loop addBlank (seq (len guess) (WordLength - len guess)) (sc_slots s, true);
  Some (mkLine 5 (fst r) "", b).

(** The hint a rendered cell carries. *)
Definition slotHint (s : Slot) : KeyHint :=
  match s with
  | SlotColor h _ => h
  | _ => KeyHintUnknown
  end.

(** The result of scoring [guess] against [target]: the colours of the line
    [formatGuess(guess, true)] prints when [word] is [target]. *)
Definition evaluate (guess target : string) : option (list KeyHint) :=
  r ← formatGuess target guess true initBoard;
  Some (map slotHint (slots (fst r))).

(** ** Hard mode *)

(** The loop of [hardModeEnforcement] over the remaining indices of [word];
    [return false] leaves it early. *)
Fixpoint hardModeLoop (word guess : string) (disc : list bool) (idx : list nat)
  : option bool :=
  match idx with
  | [] => Some true
  | i :: rest =>
      d ← disc !! i;
      if d : bool then
        g ← at_ guess i;
        w ← at_ word i;
        if decide (g ≠ w) then Some false else hardModeLoop word guess disc rest
      else hardModeLoop word guess disc rest
  end.

(** [hardModeEnforcement] checks if the guess is valid by hard mode rules:
    once a character is revealed as in the correct place, it must be used in
    the guess. *)
Definition hardModeEnforcement (word guess : string) (disc : list bool)
  : option bool :=
  hardModeLoop word guess disc (seq 0 (len word)).

(** ** Word lists *)

(** [a >= x] on Go strings: byte-wise lexicographic order. *)
Definition string_ge (a x : string) : bool := String.leb x a.

(** The loop of [sort.Search] (Go standard library): the smallest index in
    [[i, j)] at which [f] holds, [f] being false then true on the range. *)
Equations? searchLoop (f : nat -> option bool) (i j : nat) : option nat
  by wf (j - i)%nat lt :=
  searchLoop f i j with decide (i < j)%nat := {
    | left _ =>
        let h := Nat.div2 (i + j) in
        match f h with
        | Some false => searchLoop f (h + 1) j
        | Some true => searchLoop f i h
        | None => None
        end
    | right _ => Some i }.
Proof.
  all: pose proof (Nat.div2_odd (i + j)) as Hd;
    destruct (Nat.odd (i + j)); simpl in Hd; subst h; lia.
Qed.

Definition sort_Search (n : nat) (f : nat -> option bool) : option nat :=
  searchLoop f 0 n.

(** [sort.SearchStrings]: [Search(len(a), func(i) { return a[i] >= x })]. *)
Definition sort_SearchStrings (a : list string) (x : string) : option nat :=
  sort_Search (length a) (fun i => s ← a !! i; Some (string_ge s x)).

(** [index < len(a) && a[index] == str]. *)
Definition foundAt (a : list string) (index : nat) (str : string) : option bool :=
  if decide (index < length a)%nat
  then s ← a !! index; Some (bool_decide (s = str))
  else Some false.

(** [isWord] checks if a string is a word in the wordlist which makes it a
    valid guess. *)
Definition isWord (wordList allowedWords : list string) (str : string)
  : option bool :=
  index ← sort_SearchStrings wordList str;
  found ← foundAt wordList index str;
  if found : bool then Some true
  else
    index ← sort_SearchStrings allowedWords str;
    foundAt allowedWords index str.

(** [sort.Strings] (Go standard library) puts a slice in increasing order.
    Equal strings are indistinguishable, so every sorting algorithm yields
    the same slice; insertion sort stands for the library's. *)
Fixpoint insertString (x : string) (l : list string) : list string :=
  match l with
  | [] => [x]
  | y :: r => if String.leb x y then x :: l else y :: insertString x r
  end.

Definition sort_Strings (l : list string) : list string :=
  foldr insertString [] l.

(** ** Statistics *)

(** [type GameStats struct]; [LastDaily] is an instant in nanoseconds since
    the daily anchor (see [Clock]), [None] for the nil pointer. *)
Record GameStats : Type := mkGameStats {
  TotalGames : Z;
  TotalHardGames : Z;
  Wins : list Z;
  HardWins : list Z;
  Streak : Z;
  BestStreak : Z;
  LastDaily : option Z;
  ExperimentalEmojiSupport : bool
}.

(** The default of [loadGameStats]:
    [&GameStats{Wins: make([]int, TotalGuesses), HardWins: make([]int, TotalGuesses)}]. *)
Definition defaultGameStats : GameStats :=
  {| TotalGames := 0;
     TotalHardGames := 0;
     Wins := replicate TotalGuesses 0;
     HardWins := replicate TotalGuesses 0;
     Streak := 0;
     BestStreak := 0;
     LastDaily := None;
     ExperimentalEmojiSupport := false |}.

(** [a[i]++] on a slice of ints. *)
Definition incr_at (l : list Z) (i : nat) : option (list Z) :=
  x ← l !! i; Some (<[i := int_incr x]> l).

(** [float64(z)] for an int [z]: the nearest binary64 value, ties to even.
    The value is an integer and is kept as such. *)
Definition float64_of_int (z : Z) : Z :=
  let a := Z.abs z in
  if a <? 2 ^ 53 then z
  else
    let e := Z.log2 a - 52 in
    let q := a / 2 ^ e in
    let r := a mod 2 ^ e in
    let half := 2 ^ (e - 1) in
    let q' := if (r <? half) || ((r =? half) && Z.even q) then q else q + 1 in
    Z.sgn z * (q' * 2 ^ e).

(** [int(f)] for an integer-valued float; outside the range of [int] the
    result is implementation-specific (the amd64 result is shown). *)
Definition int_of_float64 (f : Z) : Z :=
  if (int_min <=? f) && (f <=? int_max) then f else int_min.

(** [math.Max] on finite values. *)
Definition math_Max (x y : Z) : Z := Z.max x y.

(** The statistics of a won game (main, after the loop). *)
Definition recordWin (hardMode : bool) (currentGuess : nat) (gs : GameStats)
  : option GameStats :=
  gs ← (if hardMode
        then hw ← incr_at (HardWins gs) currentGuess;
             Some (mkGameStats (TotalGames gs) (TotalHardGames gs) (Wins gs) hw
                     (Streak gs) (BestStreak gs) (LastDaily gs)
                     (ExperimentalEmojiSupport gs))
        else w ← incr_at (Wins gs) currentGuess;
             Some (mkGameStats (TotalGames gs) (TotalHardGames gs) w (HardWins gs)
                     (Streak gs) (BestStreak gs) (LastDaily gs)
                     (ExperimentalEmojiSupport gs)));
  let streak := int_incr (Streak gs) in
  let best :=
    int_of_float64 (math_Max (float64_of_int (BestStreak gs)) (float64_of_int streak)) in
  Some (mkGameStats (TotalGames gs) (TotalHardGames gs) (Wins gs) (HardWins gs)
          streak best (LastDaily gs) (ExperimentalEmojiSupport gs)).

(** [gamestats.Streak = 0]. *)
Definition resetStreak (gs : GameStats) : GameStats :=
  mkGameStats (TotalGames gs) (TotalHardGames gs) (Wins gs) (HardWins gs)
    0 (BestStreak gs) (LastDaily gs) (ExperimentalEmojiSupport gs).

(** [gamestats.TotalHardGames++] or [gamestats.TotalGames++]. *)
Definition countGame (hardMode : bool) (gs : GameStats) : GameStats :=
  if hardMode
  then mkGameStats (TotalGames gs) (int_incr (TotalHardGames gs)) (Wins gs) (HardWins gs)
         (Streak gs) (BestStreak gs) (LastDaily gs) (ExperimentalEmojiSupport gs)
  else mkGameStats (int_incr (TotalGames gs)) (TotalHardGames gs) (Wins gs) (HardWins gs)
         (Streak gs) (BestStreak gs) (LastDaily gs) (ExperimentalEmojiSupport gs).

(** *** Loading *)

(** The contents of [~/.wordle] are taken as the JSON text they spell, with
    each member of the top-level object named by the field of [GameStats]
    its key selects.  [last_daily] is either [null] or a string holding an
    RFC 3339 time; other values for it are not represented. *)
Inductive Element : Type :=
| ENull
| EInt (z : Z)              (* an integer literal *)
| EOther.                   (* anything else *)

Inductive Value : Type :=
| VNull
| VBool (b : bool)
| VInt (z : Z)              (* an integer literal *)
| VArray (l : list Element)
| VOther.                   (* a string, a fraction, an object *)

Inductive Member : Type :=
| MTotalGames (v : Value)
| MTotalHardGames (v : Value)
| MWins (v : Value)
| MHardWins (v : Value)
| MStreak (v : Value)
| MBestStreak (v : Value)
| MLastDaily (t : option Z)
| MExperimentalEmojiSupport (v : Value)
| MIgnored.                 (* a key of no field *)

Inductive Document : Type :=
| Malformed                 (* not a JSON text, or nothing at all *)
| Null
| Object (members : list Member)
| Other.                    (* a number, a string, a boolean, an array *)

(** [encoding/json] (Go standard library), after its documentation: a value
    that does not fit its target is skipped, decoding goes on with the rest,
    and the error of the first such value is returned in the end; [null]
    leaves an int or a bool as it is and empties a slice; an array is decoded
    element by element into the slice it finds.  The flag is the error. *)
Definition storeInt (v : Value) (old : Z) : Z * bool :=
  match v with
  | VInt z => if (int_min <=? z) && (z <=? int_max) then (z, false) else (old, true)
  | VNull => (old, false)
  | _ => (old, true)
  end.

Definition storeBool (v : Value) (old : bool) : bool * bool :=
  match v with
  | VBool b => (b, false)
  | VNull => (old, false)
  | _ => (old, true)
  end.

Definition storeElement (e : Element) (old : Z) : Z * bool :=
  match e with
  | EInt z => if (int_min <=? z) && (z <=? int_max) then (z, false) else (old, true)
  | ENull => (old, false)
  | EOther => (old, true)
  end.

Fixpoint storeElements (l : list Element) (old : list Z) : list Z * bool :=
  match l with
  | [] => ([], false)
  | e :: rest =>
      let x := storeElement e (hd 0 old) in
      let xs := storeElements rest (tl old) in
      (fst x :: fst xs, snd x || snd xs)
  end.

Definition storeInts (v : Value) (old : list Z) : list Z * bool :=
  match v with
  | VArray l => storeElements l old
  | VNull => ([], false)
  | _ => (old, true)
  end.

Definition decodeMember (s : GameStats * bool) (m : Member) : GameStats * bool :=
  let '(gs, err) := s in
  match m with
  | MTotalGames v =>
      let r := storeInt v (TotalGames gs) in
      (mkGameStats (fst r) (TotalHardGames gs) (Wins gs) (HardWins gs) (Streak gs)
         (BestStreak gs) (LastDaily gs) (ExperimentalEmojiSupport gs), err || snd r)
  | MTotalHardGames v =>
      let r := storeInt v (TotalHardGames gs) in
      (mkGameStats (TotalGames gs) (fst r) (Wins gs) (HardWins gs) (Streak gs)
         (BestStreak gs) (LastDaily gs) (ExperimentalEmojiSupport gs), err || snd r)
  | MWins v =>
      let r := storeInts v (Wins gs) in
      (mkGameStats (TotalGames gs) (TotalHardGames gs) (fst r) (HardWins gs) (Streak gs)
         (BestStreak gs) (LastDaily gs) (ExperimentalEmojiSupport gs), err || snd r)
  | MHardWins v =>
      let r := storeInts v (HardWins gs) in
      (mkGameStats (TotalGames gs) (TotalHardGames gs) (Wins gs) (fst r) (Streak gs)
         (BestStreak gs) (LastDaily gs) (ExperimentalEmojiSupport gs), err || snd r)
  | MStreak v =>
      let r := storeInt v (Streak gs) in
      (mkGameStats (TotalGames gs) (TotalHardGames gs) (Wins gs) (HardWins gs) (fst r)
         (BestStreak gs) (LastDaily gs) (ExperimentalEmojiSupport gs), err || snd r)
  | MBestStreak v =>
      let r := storeInt v (BestStreak gs) in
      (mkGameStats (TotalGames gs) (TotalHardGames gs) (Wins gs) (HardWins gs) (Streak gs)
         (fst r) (LastDaily gs) (ExperimentalEmojiSupport gs), err || snd r)
  | MLastDaily t =>
      (mkGameStats (TotalGames gs) (TotalHardGames gs) (Wins gs) (HardWins gs) (Streak gs)
         (BestStreak gs) t (ExperimentalEmojiSupport gs), err)
  | MExperimentalEmojiSupport v =>
      let r := storeBool v (ExperimentalEmojiSupport gs) in
      (mkGameStats (TotalGames gs) (TotalHardGames gs) (Wins gs) (HardWins gs) (Streak gs)
         (BestStreak gs) (LastDaily gs) (fst r), err || snd r)
  | MIgnored => (gs, err)
  end.

(** [json.NewDecoder(bytes.NewReader(raw)).Decode(&gamestats)].  It decodes
    in place: it is given the record [gamestats] points to and yields what
    [gamestats] points to afterwards ([None]: [null] has set the pointer to
    nil) and whether it returned an error. *)
Definition json_Decode (raw : Document) (gamestats : GameStats)
  : option GameStats * bool :=
  match raw with
  | Malformed => (Some gamestats, true)
  | Null => (None, false)
  | Other => (Some gamestats, true)
  | Object members =>
      let r := foldl decodeMember (gamestats, false) members in
      (Some (fst r), snd r)
  end.

(** What [loadGameStats] sees of the machine: whether [os.UserHomeDir]
    succeeds, and the contents of [~/.wordle] ([None] when [ioutil.ReadFile]
    fails, as for a missing file). *)
Record FileSystem : Type := mkFileSystem {
  homeDir : bool;
  dotWordle : option Document
}.

(** [loadGameStats]: the returned pointer and the file system left behind. *)
Definition loadGameStats (fs : FileSystem) : option GameStats * FileSystem :=
  (* setup default *)
  let gamestats := defaultGameStats in
  (* load stats *)
  if negb (homeDir fs) then (Some gamestats, fs)
  else
    match dotWordle fs with
    | None => (Some gamestats, fs)
    | Some raw =>
        let '(gamestats, err) := json_Decode raw gamestats in
        if err : bool then
          (* file present but unreadable? delete it. *)
          (gamestats, mkFileSystem (homeDir fs) None)
        else (gamestats, fs)
    end.

(** ** Choosing the word *)

(** [time.Hour] as a [time.Duration]: nanoseconds. *)
Definition Hour : Z := 60 * 60 * 1000000000.

(** [float64(z)] as a machine float, for [|z| < 2^63]. *)
Definition float_of_int (z : Z) : float :=
  if z <? 0
  then PrimFloat.opp (PrimFloat.of_uint63 (Uint63.of_Z (- z)))
  else PrimFloat.of_uint63 (Uint63.of_Z z).

(** [Duration.Hours] (Go standard library):
    [hour := d / Hour; nsec := d % Hour;
     return float64(hour) + float64(nsec)/(60*60*1e9)]. *)
Definition Duration_Hours (d : Z) : float :=
  let hour := Z.quot d Hour in
  let nsec := Z.rem d Hour in
  PrimFloat.add (float_of_int hour)
                (PrimFloat.div (float_of_int nsec) (float_of_int Hour)).

(** The integer part of a finite float. *)
Definition float_trunc (f : float) : option Z :=
  match Prim2SF f with
  | S754_zero _ => Some 0
  | S754_finite sgn m e =>
      let v := if 0 <=? e then Z.pos m * 2 ^ e else Z.pos m / 2 ^ (- e) in
      Some (if sgn then - v else v)
  | _ => None
  end.

(** [int(f)]: truncation towards zero; what does not fit is
    implementation-specific (the amd64 result is shown). *)
Definition int_of_float (f : float) : Z :=
  match float_trunc f with
  | Some v => if (int_min <=? v) && (v <=? int_max) then v else int_min
  | None => int_min
  end.

(** The clock readings of [main]: [now] is [time.Now()] in nanoseconds since
    the anchor [time.Date(2021, time.June, 19, 0, 0, 0, 0, time.UTC)], [zone]
    the offset of [time.Local] east of UTC in nanoseconds.  The start-up code
    reads the clock three times; the readings are taken as one instant. *)
Record Clock : Type := mkClock {
  now : Z;
  zone : Z
}.

(** [int(time.Since(anchor).Hours() / 24)]. *)
Definition computeDayOffset (since : Z) : Z :=
  int_of_float (PrimFloat.div (Duration_Hours since) (float_of_int 24)).

(** [wordList[dayOffset % len(wordList)]]; [%] truncates, a zero divisor and
    a negative index panic. *)
Definition dailyWord (wordList : list string) (dayOffset : Z) : option string :=
  if decide (length wordList = 0%nat) then None
  else
    let index := Z.rem dayOffset (Z.of_nat (length wordList)) in
    if index <? 0 then None else wordList !! Z.to_nat index.

(** [time.Date(now.Year(), now.Month(), now.Day(), 0, 0, 0, 0, time.Local)]
    for [now := time.Now().UTC()]: midnight in the local zone of the UTC
    calendar date. *)
Definition todayLocal (c : Clock) : Z :=
  now c / (24 * Hour) * (24 * Hour) - zone c.

(** "pick word" in [main]: the word, [dayOffset] and the statistics with
    [LastDaily] updated.  [rnd] is what the seeded generator yields. *)
Definition pickWord (c : Clock) (rnd : nat) (gs : GameStats) (wordList : list string)
  : option (string * Z * GameStats) :=
  let shouldPlayDaily :=
    match LastDaily gs with
    | None => true
    | Some last => 24 * Hour <? now c - last
    end in
  (* calculate day offset *)
  let dayOffset := computeDayOffset (now c) in
  if shouldPlayDaily then
    word ← dailyWord wordList dayOffset;
    Some (word, dayOffset,
          mkGameStats (TotalGames gs) (TotalHardGames gs) (Wins gs) (HardWins gs)
            (Streak gs) (BestStreak gs) (Some (todayLocal c))
            (ExperimentalEmojiSupport gs))
  else
    if decide (length wordList = 0%nat) then None
    else
      word ← wordList !! (rnd mod length wordList)%nat;
      Some (word, dayOffset, gs).

(** ** The session *)

(** The variables of a running game: the package-level variables, the locals
    of [main] it shares with the interrupt handler, and the record last
    written to [~/.wordle] by [save] (writes are taken to succeed; a failed
    one only prints a note). *)
Record Session : Type := mkSession {
  word : string;
  wordList : list string;
  allowedWords : list string;
  dayOffset : Z;
  HardMode : bool;
  board : Board;
  currentGuess : nat;
  guess : string;
  win : bool;
  gamestats : GameStats;
  saved : option GameStats
}.

Definition set_board (b : Board) (st : Session) : Session :=
  mkSession (word st) (wordList st) (allowedWords st) (dayOffset st) (HardMode st)
    b (currentGuess st) (guess st) (win st) (gamestats st) (saved st).

Definition set_currentGuess (n : nat) (st : Session) : Session :=
  mkSession (word st) (wordList st) (allowedWords st) (dayOffset st) (HardMode st)
    (board st) n (guess st) (win st) (gamestats st) (saved st).

Definition set_guess (g : string) (st : Session) : Session :=
  mkSession (word st) (wordList st) (allowedWords st) (dayOffset st) (HardMode st)
    (board st) (currentGuess st) g (win st) (gamestats st) (saved st).

Definition set_win (w : bool) (st : Session) : Session :=
  mkSession (word st) (wordList st) (allowedWords st) (dayOffset st) (HardMode st)
    (board st) (currentGuess st) (guess st) w (gamestats st) (saved st).

Definition set_gamestats (gs : GameStats) (st : Session) : Session :=
  mkSession (word st) (wordList st) (allowedWords st) (dayOffset st) (HardMode st)
    (board st) (currentGuess st) (guess st) (win st) gs (saved st).

(** [gamestats.save()]. *)
Definition save (st : Session) : Session :=
  mkSession (word st) (wordList st) (allowedWords st) (dayOffset st) (HardMode st)
    (board st) (currentGuess st) (guess st) (win st) (gamestats st)
    (Some (gamestats st)).

(** [stat.WriteString(n, text)]: the display is written and never read, so
    the writes are collected as output. *)
Definition Write : Type := nat * Line.

(** [printKeyboard]: the three keyboard rows below the status line. *)
Definition printKeyboard (kb : gmap rune KeyHint) : list Write :=
  map (fun '(i, row) =>
         ((TotalGuesses + 1 + i)%nat,
          mkLine i (map (fun key => SlotColor (getHint kb (rune_of_byte key)) key)
                        (bytes row)) ""))
      [(0%nat, "QWERTYUIOP"); (1%nat, "ASDFGHJKL"); (2%nat, "ZXCVBNM")].

(** [stat.WriteString(currentGuess, formatGuess(guess, clr) + suffix)]. *)
Definition render (clr : bool) (suffix : string) (st : Session)
  : option (Session * list Write) :=
  r ← formatGuess (word st) (guess st) clr (board st);
  let line := mkLine (indent (fst r)) (slots (fst r)) (String.append (note (fst r)) suffix) in
  Some (set_board (snd r) st, [(currentGuess st, line)]).

(** Keys are modelled on the ASCII range, where [unicode.ToUpper] and
    [unicode.IsLetter] are as follows and [string(pressed)] is one byte; a
    key above 127 is outside the model and taken for no letter. *)
Definition unicode_ToUpper (r : rune) : rune :=
  if (97 <=? r) && (r <=? 122) then r - 32 else r.

Definition unicode_IsLetter (r : rune) : bool :=
  ((65 <=? r) && (r <=? 90)) || ((97 <=? r) && (r <=? 122)).

Definition string_of_rune (r : rune) : string :=
  String (ascii_of_N (Z.to_N r)) EmptyString.

(** How one pass through the body of the main loop ends. *)
Inductive Ctl : Set := Continue | Break | FallThrough.

(** "input was enter and the guess is filled". *)
Definition enterBranch (st : Session) : option (Ctl * Session * list Write) :=
  ok ← isWord (wordList st) (allowedWords st) (guess st);
  if negb ok then
    (* guess was not a word, indicate error *)
    r ← render false " (must be a word)" st;
    Some (Continue, fst r, snd r)
  else
    (* check hard mode requirements *)
    hm ← (if HardMode st
          then hardModeEnforcement (word st) (guess st) (discovered (board st))
          else Some true);
    if HardMode st && negb hm then
      r ← render false " (must use revealed hints)" st;
      Some (Continue, fst r, snd r)
    else
      (* show hints *)
      r ← render true "" st;
      let '(st, out) := r in
      let out := out ++ printKeyboard (keyboard (board st)) in
      let st :=
        if decide (currentGuess st = 0%nat)
        then (* just submitted the first guess, this game officially counts *)
          save (set_gamestats (countGame (HardMode st) (gamestats st)) st)
        else st in
      (* check for win *)
      if decide (guess st = word st) then Some (Break, set_win true st, out)
      else
        (* prepare next guess *)
        let st := set_guess "" (set_currentGuess (S (currentGuess st)) st) in
        (* check for lose *)
        if decide (currentGuess st = TotalGuesses) then Some (Break, st, out)
        else
          (* update next line with cursor *)
          r ← render false "" st;
          Some (FallThrough, fst r, out ++ snd r).

(** "input was letter". *)
Definition letterBranch (pressed : rune) (st : Session)
  : option (Session * list Write) :=
  if (len (guess st) <? WordLength)%nat && unicode_IsLetter pressed then
    render false "" (set_guess (String.append (guess st) (string_of_rune pressed)) st)
  else Some (st, []).

(** One pass through the body of the main loop after [ty.ReadRune]. *)
Definition iteration (pressed : rune) (st : Session)
  : option (Ctl * Session * list Write) :=
  let pressed := unicode_ToUpper pressed in
  if ((pressed =? KeyCodeMacBackspace) || (pressed =? KeyCodeWinBackspace))
     && negb (len (guess st) =? 0)%nat
  then
    (* input was backspace *)
    r ← render false ""
          (set_guess (substring 0 (len (guess st) - 1) (guess st)) st);
    Some (Continue, fst r, snd r)
  else
    r ← (if (pressed =? KeyCodeEnter) && (len (guess st) =? WordLength)%nat
         then enterBranch st
         else Some (FallThrough, st, []));
    match r with
    | (FallThrough, st, out) =>
        r ← letterBranch pressed st; Some (Continue, fst r, out ++ snd r)
    | r => Some r
    end.

(** Where the main loop stands after some keys: the variables, whether the
    loop was left by [break] (if not, the program is waiting for the next
    key), and what was written to the display. *)
Record Run : Type := mkRun {
  final : Session;
  exited : bool;
  display : list Write
}.

(** The main loop on the keys read from the terminal. *)
Fixpoint mainLoop (keys : list rune) (st : Session) : option Run :=
  match keys with
  | [] => Some (mkRun st false [])
  | k :: rest =>
      r ← iteration k st;
      match r with
      | (Break, st, out) => Some (mkRun st true out)
      | (_, st, out) =>
          run ← mainLoop rest st;
          Some (mkRun (final run) (exited run) (out ++ display run))
      end
  end.

(** After the loop: "indicate win or lose, update/save/print stats". *)
Definition finish (st : Session) : option Session :=
  gs ← (if win st
        then recordWin (HardMode st) (currentGuess st) (gamestats st)
        else Some (resetStreak (gamestats st)));
  Some (save (set_gamestats gs st)).


(** [main] from "parse word list" to "setup game state".  [goodWords] and
    [badWords] are the lines of the embedded [good_words.txt] and
    [bad_words.txt], as [parseWordLists] reads them. *)
Definition startSession (c : Clock) (rnd : nat) (hardMode : bool)
    (gs : GameStats) (goodWords badWords : list string) : option Session :=
  r ← pickWord c rnd gs goodWords;
  let '(word, dayOffset, gs) := r in
  Some {| word := word;
          wordList := sort_Strings goodWords;
          allowedWords := badWords;
          dayOffset := dayOffset;
          HardMode := hardMode;
          board := initBoard;
          currentGuess := 0;
          guess := "";
          win := false;
          gamestats := gs;
          saved := None |}.

(** "print the initial game state". *)
Definition initialDisplay : list Write :=
  map (fun i => (i, mkLine 5 (if decide (i = 0%nat)
                              then SlotCursor :: replicate 4 SlotBlank
                              else replicate 5 SlotBlank) ""))
      (seq 0 TotalGuesses)
  ++ printKeyboard initKeyboard.

(** A whole game on the given keys: the loop, then the statistics.  [None]
    is a panic. *)
Definition play (keys : list rune) (st : Session) : option Run :=
  run ← mainLoop keys st;
  if exited run then
    st ← finish (final run);
    Some (mkRun st true (display run))
  else Some run.

(** The three states of the specification's session. *)
Inductive Status : Set := Active | Won | Lost.

Definition status (run : Run) : Status :=
  if exited run then (if win (final run) then Won else Lost) else Active.

(** ** The first revision: [src/main.go] *)

Module MainGo.

(** The package-level variables and the locals of [main]. *)
Record Game : Type := mkGame {
  word : string;
  wordList : list string;
  hardMode : bool;
  discovered : list bool;
  currentGuess : nat;
  guess : string;
  win : bool
}.

Definition KeyCodeBackspace : rune := 127.

(** First loop of [formatGuess]: "map and remove correct guesses". *)
Definition removeCorrect (word guess : string) (i : nat)
    (s : gmap ascii Z * list bool) : option (gmap ascii Z * list bool) :=
  let '(m, disc) := s in
  g ← at_ guess i;
  w ← at_ word i;
  if decide (g = w) then
    let m := <[w := int_decr (getCount m w)]> m in
    disc ← set_at disc i true; (* not elegant, but super convenient *)
    Some (m, disc)
  else Some (m, disc).

(** Body of the second loop of [formatGuess]. *)
Definition scoreLetter (word guess : string) (clr : bool) (i : nat)
    (s : gmap ascii Z * list Slot) : option (gmap ascii Z * list Slot) :=
  let '(m, slots) := s in
  if clr then
    g ← at_ guess i;
    w ← at_ word i;
    if decide (g = w) then
      slots ← set_at slots i (SlotColor KeyHintLocated g); Some (m, slots)
    else if 0 <? getCount m g then
      let m := <[g := int_decr (getCount m g)]> m in
      slots ← set_at slots i (SlotColor KeyHintSomewhere g); Some (m, slots)
    else
      slots ← set_at slots i (SlotColor KeyHintNotInWord g); Some (m, slots)
  else
    g ← at_ guess i;
    slots ← set_at slots i (SlotPlain g); Some (m, slots).

(** [formatGuess]: the line and the [discovered] it leaves. *)
Definition formatGuess (word guess : string) (clr : bool) (disc : list bool)
  : option (Line * list bool) :=
  if decide (guess = "") then
    Some (mkLine 0 (SlotCursor :: replicate 4 SlotBlank) "", disc)
  else
    r ← loop (removeCorrect word guess) (seq 0 (len guess)) (mapString word, disc);
    s ← loop (scoreLetter word guess clr) (seq 0 (len guess))
          (fst r, replicate WordLength SlotEmpty);
    b ← loop addBlank (seq (len guess) (WordLength - len guess)) (snd s, true);
    Some (mkLine 0 (fst b) "", snd r).

Definition evaluate (guess target : string) : option (list KeyHint) :=
  r ← formatGuess target guess true (replicate WordLength false);
  Some (map slotHint (slots (fst r))).

(** [hardModeEnforcement] and [mapString] read as in the current revision;
    the definitions above are used for them. *)

Definition isWord (wordList : list string) (str : string) : option bool :=
  index ← sort_SearchStrings wordList str;
  foundAt wordList index str.

(** [stat.WriteString(currentGuess, formatGuess(guess, clr) + suffix)]. *)
Definition render (clr : bool) (suffix : string) (st : Game)
  : option (Game * list Write) :=
  r ← formatGuess (word st) (guess st) clr (discovered st);
  let line := mkLine (indent (fst r)) (slots (fst r)) (String.append (note (fst r)) suffix) in
  Some (mkGame (word st) (wordList st) (hardMode st) (snd r) (currentGuess st)
          (guess st) (win st),
        [(currentGuess st, line)]).

Definition set_guess (g : string) (st : Game) : Game :=
  mkGame (word st) (wordList st) (hardMode st) (discovered st) (currentGuess st)
    g (win st).

(** "input was enter". *)
Definition enterBranch (st : Game) : option (Ctl * Game * list Write) :=
  ok ← isWord (wordList st) (guess st);
  if ok : bool then
    (* check hard mode requirements *)
    hm ← (if hardMode st
          then hardModeEnforcement (word st) (guess st) (discovered st)
          else Some true);
    if hardMode st && negb hm then
      r ← render false " (Hard Mode! Must use revealed hints)" st;
      Some (Continue, fst r, snd r)
    else
      (* show hints *)
      r ← render true "" st;
      let '(st, out) := r in
      (* check for win *)
      if decide (guess st = word st) then
        Some (Break, mkGame (word st) (wordList st) (hardMode st) (discovered st)
                       (currentGuess st) (guess st) true, out)
      else
        (* prepare next guess *)
        let st := mkGame (word st) (wordList st) (hardMode st) (discovered st)
                    (S (currentGuess st)) "" (win st) in
        (* check for lose *)
        if decide (currentGuess st = TotalGuesses) then Some (Break, st, out)
        else
          (* update next line *)
          r ← render false "" st;
          Some (FallThrough, fst r, out ++ snd r)
  else
    (* guess was not a word, indicate error *)
    r ← render false " (must be a word)" st;
    Some (FallThrough, fst r, snd r).

(** One pass through the body of the main loop after [ty.ReadRune]. *)
Definition iteration (pressed : rune) (st : Game) : option (Ctl * Game * list Write) :=
  if (pressed =? KeyCodeBackspace) && negb (len (guess st) =? 0)%nat then
    (* input was backspace *)
    r ← render false ""
          (set_guess (substring 0 (len (guess st) - 1) (guess st)) st);
    Some (Continue, fst r, snd r)
  else
    r ← (if (pressed =? KeyCodeEnter) && (len (guess st) =? WordLength)%nat
         then enterBranch st
         else Some (FallThrough, st, []));
    match r with
    | (FallThrough, st, out) =>
        (* input was letter *)
        let pressed := unicode_ToUpper pressed in
        if (len (guess st) <? WordLength)%nat && unicode_IsLetter pressed then
          r ← render false ""
                (set_guess (String.append (guess st) (string_of_rune pressed)) st);
          Some (Continue, fst r, out ++ snd r)
        else Some (Continue, st, out)
    | r => Some r
    end.

End MainGo.

(** ** The scoring loops on lists of letter pairs

    The two loops of [formatGuess] as functions of the pairs
    [(guess[i], word[i])]; [formatGuess_scored] shows that they are what the
    indexed loops compute. *)

Definition takeCredit (m : gmap ascii Z) (k : ascii) : gmap ascii Z :=
  <[k := int_decr (getCount m k)]> m.

Definition credits (ps : list (ascii * ascii)) (m : gmap ascii Z) : gmap ascii Z :=
  foldl (fun m p => if decide (fst p = snd p) then takeCredit m (snd p) else m) m ps.

Definition scoreStep (s : gmap ascii Z * list KeyHint) (p : ascii * ascii)
  : gmap ascii Z * list KeyHint :=
  let '(m, hs) := s in
  if decide (fst p = snd p) then (m, hs ++ [KeyHintLocated])
  else if 0 <? getCount m (fst p) then (takeCredit m (fst p), hs ++ [KeyHintSomewhere])
  else (m, hs ++ [KeyHintNotInWord]).

Fixpoint hints (ps : list (ascii * ascii)) (m : gmap ascii Z) : list KeyHint :=
  match ps with
  | [] => []
  | p :: rest =>
      if decide (fst p = snd p) then KeyHintLocated :: hints rest m
      else if 0 <? getCount m (fst p)
           then KeyHintSomewhere :: hints rest (takeCredit m (fst p))
           else KeyHintNotInWord :: hints rest m
  end.

Definition colorSlots (hs : list KeyHint) (guess : list ascii) : list Slot :=
  zip_with SlotColor hs guess.

(** ** The evaluator of the specification (section 4.1)

    Written after the specification's three steps, to be compared with
    [evaluate]. *)

Module SpecEvaluator.

Inductive Failure : Set := InvalidLength.

(** Step 1: the remaining-count table of each letter's occurrences in the
    target. *)
Fixpoint remainingCounts (target : list ascii) : ascii -> nat :=
  match target with
  | [] => fun _ => 0%nat
  | t :: rest => fun c => ((if decide (c = t) then 1 else 0) + remainingCounts rest c)%nat
  end.

Definition decrement (tbl : ascii -> nat) (c : ascii) : ascii -> nat :=
  fun x => if decide (x = c) then Nat.pred (tbl x) else tbl x.

(** Step 2, pass 1 (exact matches): each position where the letters agree
    is marked Located and takes one from that letter's remaining count. *)
Fixpoint pass1 (guess target : list ascii) (tbl : ascii -> nat)
  : (ascii -> nat) * list (option KeyHint) :=
  match guess, target with
  | g :: gs, t :: ts =>
      if decide (g = t)
      then let r := pass1 gs ts (decrement tbl g) in (fst r, Some KeyHintLocated :: snd r)
      else let r := pass1 gs ts tbl in (fst r, None :: snd r)
  | _, _ => (tbl, [])
  end.

(** Step 3, pass 2 (remaining positions only): Somewhere while the letter
    has a remaining count, which it takes one from; otherwise NotInWord. *)
Fixpoint pass2 (guess : list ascii) (marks : list (option KeyHint))
    (tbl : ascii -> nat) : list KeyHint :=
  match guess, marks with
  | g :: gs, Some h :: ms => h :: pass2 gs ms tbl
  | g :: gs, None :: ms =>
      if (0 <? tbl g)%nat
      then KeyHintSomewhere :: pass2 gs ms (decrement tbl g)
      else KeyHintNotInWord :: pass2 gs ms tbl
  | _, _ => []
  end.

Definition evaluate (guess target : string) : Failure + list KeyHint :=
  if decide (len guess = WordLength /\ len target = WordLength) then
    let r := pass1 (bytes guess) (bytes target) (remainingCounts (bytes target)) in
    inr (pass2 (bytes guess) (snd r) (fst r))
  else inl InvalidLength.

End SpecEvaluator.

(** ** Counting letters and marks *)

(** The occurrences of the letter [L] in a word. *)
Fixpoint occurrences (L : ascii) (w : list ascii) : nat :=
  match w with
  | [] => 0
  | c :: rest => (if decide (c = L) then 1 else 0) + occurrences L rest
  end.

(** The positions of the guess that hold [L] and are marked [h]. *)
Fixpoint countMarked (L : ascii) (h : KeyHint) (guess : list ascii)
    (hs : list KeyHint) : nat :=
  match guess, hs with
  | g :: gs, x :: xs =>
      (if decide (g = L /\ x = h) then 1 else 0) + countMarked L h gs xs
  | _, _ => 0
  end.

(** The globals [formatGuess(guess, true)] leaves, as functions of the hints. *)

Definition emojiOf (h : KeyHint) : rune :=
  match h with
  | KeyHintLocated => EmojiLocated
  | KeyHintSomewhere => EmojiSomewhere
  | _ => EmojiNotInWord
  end.

Fixpoint markDiscovered (hs : list KeyHint) (disc : list bool) : list bool :=
  match hs, disc with
  | h :: hs', d :: ds => (d || bool_decide (h = KeyHintLocated)) :: markDiscovered hs' ds
  | _, _ => disc
  end.

Definition recordHints (ghs : list (ascii * KeyHint)) (kb : gmap rune KeyHint)
  : gmap rune KeyHint :=
  foldl (fun kb gh => setKeyHint (rune_of_byte (fst gh)) (snd gh) kb) kb ghs.

(** The state of the second loop of [formatGuess(guess, true)] after [k]
    letters. *)
Definition scoringAfter (ps : list (ascii * ascii)) (guess : list ascii)
    (m0 : gmap ascii Z) (b : Board) (k : nat) : Scoring :=
  let r := foldl scoreStep (m0, []) (take k ps) in
  mkScoring (fst r)
    (colorSlots (snd r) (take k guess) ++ replicate (WordLength - k) SlotEmpty)
    (map emojiOf (snd r))
    (mkBoard (markDiscovered (snd r) (discovered b))
       (recordHints (zip (take k guess) (snd r)) (keyboard b))
       (emojiStack b)).


(** The cells after the letters of an unfinished guess: the cursor, then
    blanks. *)
Definition blanks (first : bool) (n : nat) : list Slot :=
  match n with
  | O => []
  | S n' => (if first then SlotCursor else SlotBlank) :: replicate n' SlotBlank
  end.

(** The hints of a scored guess, from the letter pairs. *)
Definition scoreHints (word guess : string) : list KeyHint :=
  let ps := zip (bytes guess) (bytes word) in
  hints ps (credits ps (mapString word)).


(** The table of the specification and the map of the code hold the same
    counts. *)
Definition sameCounts (tbl : ascii -> nat) (m : gmap ascii Z) : Prop :=
  forall c, getCount m c = Z.of_nat (tbl c) /\ Z.of_nat (tbl c) <= int_max.

(** The marks pass 1 of the specification leaves. *)
Definition exactMarks (ps : list (ascii * ascii)) : list (option KeyHint) :=
  map (fun p => if decide (fst p = snd p) then Some KeyHintLocated else None) ps.


(** Positions where guess and target both hold [L], and positions where the
    guess holds [L] and the target another letter. *)
Fixpoint matches (L : ascii) (ps : list (ascii * ascii)) : nat :=
  match ps with
  | [] => 0
  | p :: rest =>
      (if decide (fst p = snd p /\ fst p = L) then 1 else 0) + matches L rest
  end.

Fixpoint misses (L : ascii) (ps : list (ascii * ascii)) : nat :=
  match ps with
  | [] => 0
  | p :: rest =>
      (if decide (fst p <> snd p /\ fst p = L) then 1 else 0) + misses L rest
  end.


(** ** The order of hints *)

(** [Unknown < NotInWord < Somewhere < Located], the order of the [KeyHint]
    constants. *)
Definition hint_le (a b : KeyHint) : Prop := KeyHint_val a <= KeyHint_val b.

Definition hint_max (a b : KeyHint) : KeyHint :=
  if KeyHint_val a <? KeyHint_val b then b else a.

(** A sequence of [setKeyHint] calls. *)
Definition setKeyHints (sets : list (rune * KeyHint)) (kb : gmap rune KeyHint)
  : gmap rune KeyHint :=
  foldl (fun kb s => setKeyHint (fst s) (snd s) kb) kb sets.

(** ** Hard mode violations *)

(** The positions at which [guess] abandons a discovered letter. *)
Definition violations (word guess : string) (disc : list bool) : list nat :=
  filter (fun i => disc !! i = Some true /\ at_ guess i <> at_ word i)
         (seq 0 (len word)).


(** ** Sorted word lists *)

(** [a <= b] on Go strings. *)
Definition string_le (a b : string) : Prop := String.leb a b = true.

(** A slice in lexicographically sorted order. *)
Definition sortedStrings (l : list string) : Prop := Sorted string_le l.


(** ** Describing sessions *)

(** What the loop relies on: a target of [WordLength] letters, a mask of
    that length, a buffer within it, and sorted word lists. *)
Record wellFormed (st : Session) : Prop := mkWellFormed {
  wf_word : len (word st) = WordLength;
  wf_discovered : length (discovered (board st)) = WordLength;
  wf_guess : (len (guess st) <= WordLength)%nat;
  wf_wordList : sortedStrings (wordList st);
  wf_allowedWords : sortedStrings (allowedWords st)
}.

(** The board after the buffer has been scored. *)
Definition scoredBoard (st : Session) : Board :=
  let hs := scoreHints (word st) (guess st) in
  mkBoard (markDiscovered hs (discovered (board st)))
          (recordHints (zip (bytes (guess st)) hs) (keyboard (board st)))
          (emojiStack (board st) ++ [map emojiOf hs]).

(** The session after an accepted guess has been scored and, if it is the
    first, counted and saved. *)
Definition scored (st : Session) : Session :=
  let st := set_board (scoredBoard st) st in
  if decide (currentGuess st = 0%nat)
  then save (set_gamestats (countGame (HardMode st) (gamestats st)) st)
  else st.

(** The session ready for the next guess. *)
Definition nextGuess (st : Session) : Session :=
  set_guess "" (set_currentGuess (S (currentGuess st)) (scored st)).

(** Whether the main loop lets the buffer through: a word of one of the
    lists that, in hard mode, keeps the discovered letters. *)
Definition accepted (st : Session) : Prop :=
  isWord (wordList st) (allowedWords st) (guess st) = Some true
  /\ (HardMode st = true ->
      hardModeEnforcement (word st) (guess st) (discovered (board st)) = Some true).

Definition rejected (st : Session) : Prop :=
  isWord (wordList st) (allowedWords st) (guess st) = Some false
  \/ (isWord (wordList st) (allowedWords st) (guess st) = Some true
      /\ HardMode st = true
      /\ hardModeEnforcement (word st) (guess st) (discovered (board st)) = Some false).


(** ** Keys and runs *)

(** The keys that type a word, and that type and submit it. *)
Definition keysOf (g : string) : list rune := map rune_of_byte (bytes g).

Definition submitKeys (g : string) : list rune := keysOf g ++ [KeyCodeEnter].

(** A word of upper-case ASCII letters, as the word lists hold them. *)
Definition upperCase (g : string) : Prop :=
  Forall (fun c => 65 <= rune_of_byte c <= 90) (bytes g).

(** The main loop takes [st] to [st'] on [keys]; [e] tells whether it has
    left the loop. *)
Definition runsTo (keys : list rune) (st st' : Session) (e : bool) : Prop :=
  exists d, mainLoop keys st = Some (mkRun st' e d).

(** Guesses the loop accepts one after the other, none of them the target. *)
Fixpoint validGuesses (gs : list string) (st : Session) : Prop :=
  match gs with
  | [] => True
  | g :: rest =>
      len g = WordLength /\ upperCase g /\ accepted (set_guess g st)
      /\ g <> word st /\ validGuesses rest (nextGuess (set_guess g st))
  end.


(** A small hard-mode session used to exercise the theorems: the target is
    "CRANE". *)
Definition sampleSession : Session :=
  {| word := "CRANE";
     wordList := sort_Strings ["SPEED"; "CRANE"];
     allowedWords := ["BRAKE"; "BRAVE"; "DRAPE"; "GRADE"; "GRAPE"; "TRACE"];
     dayOffset := 0;
     HardMode := true;
     board := initBoard;
     currentGuess := 0;
     guess := "";
     win := false;
     gamestats := defaultGameStats;
     saved := None |}.


(** The first revision at the start of a hard-mode game whose target is
    "CRANE", with "CRAZY" typed: not a word of the list. *)
Definition sampleGame : MainGo.Game :=
  {| MainGo.word := "CRANE";
     MainGo.wordList := ["CRANE"; "SPEED"];
     MainGo.hardMode := true;
     MainGo.discovered := replicate WordLength false;
     MainGo.currentGuess := 0;
     MainGo.guess := "CRAZY";
     MainGo.win := false |}.


(** ** Statistics within range *)


(** The histogram of the mode played, and the other one. *)
Definition modeWins (hardMode : bool) (gs : GameStats) : list Z :=
  if hardMode then HardWins gs else Wins gs.


(** A record whose emoji preference was written as a string: the text
    [{ "streak": 7, "experimental_emoji_support": "yes" }]. *)
Definition mistypedRecord : Document :=
  Object [MStreak (VInt 7); MExperimentalEmojiSupport VOther].


(** ** Days *)

(** The UTC calendar day of an instant, counted from the anchor. *)
Definition utcDay (t : Z) : Z := t / (24 * Hour).

(** Midnight of UTC day 1800 after the anchor (2026-05-24), and the last
    nanosecond of that day. *)
Definition sampleMidnight : Z := 1800 * (24 * Hour).
Definition sampleDayEnd : Z := 1801 * (24 * Hour) - 1.



(** ** Tactics *)

#[local] Arguments render : simpl never.

(** A word of upper-case letters, letter by letter. *)
Ltac solve_upperCase :=
  unfold upperCase; simpl;
  repeat (constructor; [vm_compute; split; discriminate|]); constructor.

(** One guess of [validGuesses], by evaluation. *)
Ltac valid_guess :=
  cbn [validGuesses];
  split; [reflexivity|];
  split; [solve_upperCase|];
  split; [split; [vm_compute; reflexivity|intros _; vm_compute; reflexivity]|];
  split; [let H := fresh in intros H; vm_compute in H; discriminate|].

(** The keyboard of [st'] shows no hint below that of [st]. *)
Definition keyboardLe (st st' : Session) : Prop :=
  forall r, hint_le (getHint (keyboard (board st)) r) (getHint (keyboard (board st')) r).


(** The sample session with "BRAKE" typed and the given mask. *)
Definition maskedSession (disc : list bool) : Session :=
  set_guess "BRAKE"
    (set_board (mkBoard disc initKeyboard []) sampleSession).


(** ** A game that is on *)

(** What the main loop keeps true of a game that is still on. *)
Record playable (st : Session) : Prop := mkPlayable {
  pl_word : len (word st) = WordLength;
  pl_discovered : length (discovered (board st)) = WordLength;
  pl_guess : (len (guess st) <= WordLength)%nat;
  pl_currentGuess : (currentGuess st < TotalGuesses)%nat;
  pl_win : win st = false
}.

(** The keyboard tells the truth about [word]: a key shown as not in the
    word is a letter the word does not hold, a key shown as somewhere or
    located is a letter it holds. *)
Definition keyboardSound (word : string) (kb : gmap rune KeyHint) : Prop :=
  forall c : ascii,
    (getHint kb (rune_of_byte c) = KeyHintNotInWord ->
     occurrences c (bytes word) = 0%nat)
    /\ (getHint kb (rune_of_byte c) = KeyHintSomewhere
        \/ getHint kb (rune_of_byte c) = KeyHintLocated ->
        (0 < occurrences c (bytes word))%nat).

(** ** Reading the word lists *)

(** [bufio.MaxScanTokenSize] (Go standard library). *)
Definition MaxScanTokenSize : Z := 64 * 1024.

(** [dropCR] (Go standard library, [bufio]) drops a terminal \r from the
    data. *)
Definition dropCR (data : list ascii) : list ascii :=
  match last data with
  | Some c => if decide (c = "013"%char) then take (length data - 1) data else data
  | None => data
  end.

(** The tokens [scanner.Scan] yields under [bufio.ScanLines] (Go standard
    library): each line without its end-of-line marker, which is a line feed
    with an optional carriage return before it; a last line without a
    line feed counts if it is not empty.  [line] holds the bytes read since
    the last line feed.  A line that does not fit the buffer of
    [MaxScanTokenSize] bytes ends the scan; [parseWordLists] does not look
    at [scanner.Err]. *)
Fixpoint scanLines (data line : list ascii) : list string :=
  match data with
  | [] =>
      if decide (line = []) then []
      else if Z.of_nat (length line) <? MaxScanTokenSize
           then [string_of_list_ascii (dropCR line)]
           else []
  | c :: rest =>
      if decide (c = "010"%char) then
        if Z.of_nat (length line) <? MaxScanTokenSize
        then string_of_list_ascii (dropCR line) :: scanLines rest []
        else []
      else scanLines rest (line ++ [c])
  end.

(** [parseWordLists]: [wordList] and [allowedWords] from the embedded
    [good_words.txt] and [bad_words.txt]. *)
Definition parseWordLists (rawGoodWordList rawBadWordList : string)
  : list string * list string :=
  (* read in words *)
  let wordList := scanLines (bytes rawGoodWordList) [] in
  (* do it again, but keep these words separate *)
  let allowedWords := scanLines (bytes rawBadWordList) [] in
  (wordList, allowedWords).

(** The two end-of-line markers. *)
Definition LF : string := String "010" "".
Definition CRLF : string := String "013" (String "010" "").

(** A file of the given lines, each followed by [eol]. *)
Definition joinLines (eol : string) (ws : list string) : string :=
  foldr (fun w s => String.append w (String.append eol s)) "" ws.

(** A word without line feed or carriage return that fits the scanner. *)
Definition plainWord (w : string) : Prop :=
  Forall (fun c => c <> "010"%char /\ c <> "013"%char) (bytes w)
  /\ Z.of_nat (len w) + 1 < MaxScanTokenSize.

(** ** Starting a game *)

(** [main] from [loadGameStats] to "setup game state", for a run that plays
    (neither [--version] nor [--stats]).  [loadGameStats] may return nil, and
    [gamestats.LastDaily] then panics. *)
Definition startGame (fs : FileSystem) (c : Clock) (rnd : nat) (hardMode : bool)
    (rawGoodWordList rawBadWordList : string) : option (Session * FileSystem) :=
  let '(gamestats, fs) := loadGameStats fs in
  (* parse word list deterministically even if compiled on windows *)
  let '(wordList, allowedWords) := parseWordLists rawGoodWordList rawBadWordList in
  gamestats ← gamestats;
  st ← startSession c rnd hardMode gamestats wordList allowedWords;
  Some (st, fs).

(** ** Saving *)

(** [json.NewEncoder(f).Encode(gs)] (Go standard library, [encoding/json]):
    the fields in the order of the struct, under the keys of their tags.  An
    empty histogram is written as [[]] or, if the slice is nil, as [null],
    which [json_Decode] reads alike; [VArray []] stands for both.  A
    [LastDaily] outside the years 0 to 9999, which [Encode] refuses, is not
    represented. *)
Definition json_Encode (gs : GameStats) : Document :=
  Object [MTotalGames (VInt (TotalGames gs));
          MTotalHardGames (VInt (TotalHardGames gs));
          MWins (VArray (map EInt (Wins gs)));
          MHardWins (VArray (map EInt (HardWins gs)));
          MStreak (VInt (Streak gs));
          MBestStreak (VInt (BestStreak gs));
          MLastDaily (LastDaily gs);
          MExperimentalEmojiSupport (VBool (ExperimentalEmojiSupport gs))].

(** [(gs *GameStats) save()]: the file system it leaves and whether it
    returned an error.  [openFile] tells whether [os.OpenFile] succeeds on
    [~/.wordle]; it creates the file or truncates it. *)
Definition GameStats_save (openFile : bool) (gs : GameStats) (fs : FileSystem)
  : FileSystem * bool :=
  if negb (homeDir fs) then (fs, true)
  else if negb openFile then (fs, true)
  else (mkFileSystem (homeDir fs) (Some (json_Encode gs)), false).

(** Statistics whose numbers are Go ints. *)
Definition isInt (z : Z) : Prop := int_min <= z <= int_max.

Record intStats (gs : GameStats) : Prop := mkIntStats {
  int_TotalGames : isInt (TotalGames gs);
  int_TotalHardGames : isInt (TotalHardGames gs);
  int_Wins : Forall isInt (Wins gs);
  int_HardWins : Forall isInt (HardWins gs);
  int_Streak : isInt (Streak gs);
  int_BestStreak : isInt (BestStreak gs)
}.

(** ** Printing the statistics *)

(** What [fmt.Print] and its kin write to standard output is kept as one
    string of bytes; [nl] is the line feed. *)
Definition nl : string := String "010" "".

(** [strconv.Itoa] (Go standard library), and [%d] of [fmt.Printf]. *)
Definition strconv_Itoa (i : Z) : string := DecimalString.NilZero.string_of_int (Z.to_int i).

(** [strings.Repeat] (Go standard library): it panics on a negative count
    and when the result would be longer than an int can tell. *)
Definition strings_Repeat (s : string) (count : Z) : option string :=
  if count <? 0 then None
  else if int_max <? Z.of_nat (len s) * count then None
  else Some (String.concat "" (replicate (Z.to_nat count) s)).

(** [strings.TrimRight] (Go standard library) on ASCII text: [s] without
    its trailing bytes that occur in [cutset]. *)
Fixpoint trimLeft (cutset l : list ascii) : list ascii :=
  match l with
  | [] => []
  | c :: rest => if existsb (Ascii.eqb c) cutset then trimLeft cutset rest else l
  end.

Definition strings_TrimRight (s cutset : string) : string :=
  string_of_list_ascii (rev (trimLeft (bytes cutset) (rev (bytes s)))).

(** [float64(z)] for every int [z]. *)
Definition float64 (z : Z) : float :=
  if z =? int_min
  then PrimFloat.mul (float_of_int (- 2 ^ 62)) (float_of_int 2)
  else float_of_int z.

(** [math.Min] (Go standard library). *)
Definition math_Min (x y : float) : float :=
  if PrimFloat.eqb x neg_infinity || PrimFloat.eqb y neg_infinity then neg_infinity
  else if PrimFloat.is_nan x || PrimFloat.is_nan y then nan
  else if PrimFloat.eqb x zero && PrimFloat.eqb x y
       then (if PrimFloat.get_sign x then x else y)
       else if PrimFloat.ltb x y then x else y.

(** [strconv.FormatFloat(f, 'f', 1, 64)] (Go standard library): the decimal
    numeral with one digit after the point nearest to [f], ties to the even
    digit. *)
Definition strconv_FormatFloat_f1 (f : float) : string :=
  match Prim2SF f with
  | S754_nan => "NaN"
  | S754_infinity sgn => if sgn then "-Inf" else "+Inf"
  | S754_zero sgn => if sgn then "-0.0" else "0.0"
  | S754_finite sgn m e =>
      let tenths :=
        if 0 <=? e then 10 * Z.pos m * 2 ^ e
        else
          let q := (10 * Z.pos m) / 2 ^ (- e) in
          let r := (10 * Z.pos m) mod 2 ^ (- e) in
          let half := 2 ^ (- e - 1) in
          if (r <? half) || ((r =? half) && Z.even q) then q else q + 1 in
      String.append (if sgn then "-" else "")
        (String.append (strconv_Itoa (tenths / 10))
           (String.append "." (strconv_Itoa (tenths mod 10))))
  end.

(** [string(r)] for a rune: its UTF-8 encoding, that of U+FFFD for what is
    no code point. *)
Definition byte_of (z : Z) : ascii := ascii_of_N (Z.to_N z).

Definition utf8 (r : rune) : list ascii :=
  if (r <? 0) || (1114111 <? r) || ((55296 <=? r) && (r <=? 57343))
  then [byte_of 239; byte_of 191; byte_of 189]
  else if r <? 128 then [byte_of r]
  else if r <? 2048
       then [byte_of (Z.lor 192 (Z.shiftr r 6)); byte_of (Z.lor 128 (Z.land r 63))]
  else if r <? 65536
       then [byte_of (Z.lor 224 (Z.shiftr r 12));
             byte_of (Z.lor 128 (Z.land (Z.shiftr r 6) 63));
             byte_of (Z.lor 128 (Z.land r 63))]
  else [byte_of (Z.lor 240 (Z.shiftr r 18));
        byte_of (Z.lor 128 (Z.land (Z.shiftr r 12) 63));
        byte_of (Z.lor 128 (Z.land (Z.shiftr r 6) 63));
        byte_of (Z.lor 128 (Z.land r 63))].

(** [string(emoji)] for a slice of runes. *)
Definition string_of_runes (rs : list rune) : string :=
  string_of_list_ascii (concat (map utf8 rs)).

(** [MaxHistogramBarLength = float64(15)]. *)
Definition MaxHistogramBarLength : float := float_of_int 15.

(** The loop of [print] that sums the wins: [totalWins += wins[i]]. *)
Definition sumWins (wins : list Z) (i : nat) (totalWins : Z) : option Z :=
  w ← wins !! i; Some (wrap (totalWins + w)).

(** The variables of the loop "prepare histogram". *)
Record Histogram : Type := mkHistogram {
  h_hist : list float;
  h_max : float;
  h_winPadding : nat
}.

(** Body of the loop "prepare histogram". *)
Definition prepareHistogram (wins : list Z) (totalWins : Z) (i : nat) (h : Histogram)
  : option Histogram :=
  w ← wins !! i;
  let x := PrimFloat.div (float64 w) (float64 totalWins) in
  hist ← set_at (h_hist h) i x;
  let max := if PrimFloat.ltb (h_max h) x then x else h_max h in
  let winWord := strconv_Itoa w in
  let winPadding :=
    if (h_winPadding h <? len winWord)%nat then len winWord else h_winPadding h in
  Some (mkHistogram hist max winPadding).

(** Body of the loop "histogram": one line of the guess distribution.
    [toInt] is the conversion [int(f)] of the platform. *)
Definition histogramLine (toInt : float -> Z) (wins : list Z) (h : Histogram)
    (mult : float) (i : nat) (out : string) : option string :=
  w ← wins !! i;
  let count := strconv_Itoa w in
  pad ← strings_Repeat " " (Z.of_nat (h_winPadding h) - Z.of_nat (len count));
  let count := String.append pad count in
  x ← h_hist h !! i;
  bar ← strings_Repeat "█" (toInt (math_Min MaxHistogramBarLength (PrimFloat.mul x mult)));
  Some (String.append out
          (String.append (strconv_Itoa (Z.of_nat i + 1))
             (String.append ": "
                (String.append count (String.append " " (String.append bar nl)))))).

(** The lines above the guess distribution. *)
Definition summary (hardMode : bool) (totalGames totalWins : Z) (gs : GameStats) : string :=
  let out := String.append "Game Stats" (if hardMode then " (Hard Mode)" else "") in
  let out := String.append out (String.append nl nl) in
  let out :=
    String.append out
      (String.append "   Total Games: " (String.append (strconv_Itoa totalGames) nl)) in
  let out :=
    if 0 <? totalGames then
      let rawPercent :=
        PrimFloat.div
          (PrimFloat.div (float64 (wrap (totalWins * 10000))) (float64 totalGames))
          (float_of_int 100) in
      let strPercent := strconv_FormatFloat_f1 rawPercent in
      let strPercent := strings_TrimRight strPercent "0" in
      let strPercent := strings_TrimRight strPercent "." in
      String.append out (String.append "         Win %: " (String.append strPercent nl))
    else String.append out (String.append "         Win %%: 0" nl) in
  let out :=
    String.append out
      (String.append "Current Streak: " (String.append (strconv_Itoa (Streak gs)) nl)) in
  let out :=
    String.append out
      (String.append "   Best Streak: " (String.append (strconv_Itoa (BestStreak gs)) nl)) in
  let out := String.append out nl in
  String.append out (String.append "Guess Distribution:" (String.append nl nl)).

(** The share text: "Wordle 278 3/6*" and the rows of squares. *)
Definition shareText (hardMode : bool) (currentGuess : nat) (dayOffset : Z)
    (emojiStack : list (list rune)) (win : bool) : string :=
  let hardInd := if hardMode then "*" else "" in
  let turn := if win then strconv_Itoa (Z.of_nat currentGuess + 1) else "X" in
  let out :=
    String.append nl
      (String.append "Wordle "
         (String.append (strconv_Itoa dayOffset)
            (String.append " "
               (String.append turn
                  (String.append "/6" (String.append hardInd (String.append nl nl))))))) in
  foldl (fun out line => String.append out (String.append (string_of_runes line) nl))
        out emojiStack.

(** [(gs *GameStats) print(win *bool)]: the text it writes, [None] when it
    panics.  [toInt] is the conversion [int(f)] of the platform, whose result
    Go leaves to the implementation when [f] is not a number or does not fit
    ([int_of_float] is that of amd64); [hardMode], [currentGuess],
    [dayOffset] and [emojiStack] are the globals it reads.  The text is put
    together in the order of the [fmt] calls. *)
Definition GameStats_print (toInt : float -> Z) (hardMode : bool) (currentGuess : nat)
    (dayOffset : Z) (emojiStack : list (list rune)) (gs : GameStats) (win : option bool)
  : option string :=
  (* setup for easy mode, or for hard mode *)
  let wins := if hardMode then HardWins gs else Wins gs in
  let totalGames := if hardMode then TotalHardGames gs else TotalGames gs in
  totalWins ← loop (sumWins wins) (seq 0 TotalGuesses) 0;
  let out := summary hardMode totalGames totalWins gs in
  (* prepare histogram *)
  h ← loop (prepareHistogram wins totalWins) (seq 0 TotalGuesses)
        (mkHistogram (replicate TotalGuesses zero) (float_of_int (- 1)) 0);
  let mult := PrimFloat.div MaxHistogramBarLength (h_max h) in
  (* histogram *)
  out ← loop (histogramLine toInt wins h mult) (seq 0 TotalGuesses) out;
  match win with
  | Some win =>
      if ExperimentalEmojiSupport gs
      then Some (String.append out
                   (shareText hardMode currentGuess dayOffset emojiStack win))
      else Some out
  | None => Some out
  end.



(** [main] under [--stats]: [loadGameStats], then [gamestats.print(nil)]
    with the globals at their zero values.  A nil [gamestats] panics. *)
Definition mainStats (toInt : float -> Z) (hardMode : bool) (fs : FileSystem)
  : option string :=
  let '(gamestats, _) := loadGameStats fs in
  gs ← gamestats;
  GameStats_print toInt hardMode 0 0 [] gs None.


(** The guess distribution when every line shows the same count and the
    same bar. *)
Definition flatBars (count bar : string) : string :=
  String.concat ""
    (map (fun i : nat =>
            String.append (strconv_Itoa (Z.of_nat i + 1))
              (String.append ": "
                 (String.append count (String.append " " (String.append bar nl)))))
         (seq 0 TotalGuesses)).


(** * Proofs *)

(** ** Go integers *)

Lemma wrap_id (z : Z) : int_min <= z <= int_max -> wrap z = z.
Proof.
  unfold wrap, int_min, int_max. intros H.
  rewrite Z.mod_small; lia.
Qed.

Lemma wrap_range (z : Z) : int_min <= wrap z <= int_max.
Proof.
  unfold wrap, int_min, int_max.
  pose proof (Z.mod_pos_bound (z + 2 ^ 63) (2 ^ 64) ltac:(lia)). lia.
Qed.

(** ** Strings and loops *)

Lemma at_bytes (s : string) (i : nat) : at_ s i = bytes s !! i.
Proof.
  unfold at_, bytes. revert i.
  induction s as [|c s IH]; intros [|i]; simpl; auto.
Qed.

Lemma len_bytes (s : string) : len s = length (bytes s).
Proof. unfold len, bytes. induction s; simpl; auto. Qed.

Lemma loop_app {S : Type} (body : nat -> S -> option S) (l1 l2 : list nat) (s : S) :
  loop body (l1 ++ l2) s = loop body l1 s ≫= loop body l2.
Proof.
  revert s. induction l1 as [|i l1 IH]; intros s; simpl; [reflexivity|].
  destruct (body i s); simpl; auto.
Qed.

Lemma loop_snoc {S : Type} (body : nat -> S -> option S) (n : nat) (s s' : S) :
  loop body (seq 0 n) s = Some s' ->
  loop body (seq 0 (Datatypes.S n)) s = body n s'.
Proof.
  intros H. rewrite seq_S, loop_app, H. simpl.
  destruct (body n s'); reflexivity.
Qed.

(** ** Lists *)

Lemma insert_first_blank {A : Type} (l : list A) (k n : nat) (x y : A) :
  length l = k ->
  <[k := x]> (l ++ y :: replicate n y) = (l ++ [x]) ++ replicate n y.
Proof.
  intros Hk. rewrite insert_app_r_alt by lia.
  replace (k - length l)%nat with 0%nat by lia. simpl.
  rewrite <- app_assoc. reflexivity.
Qed.

Lemma scoreStep_length (l : list (ascii * ascii)) (m : gmap ascii Z) (acc : list KeyHint) :
  length (snd (foldl scoreStep (m, acc) l)) = (length acc + length l)%nat.
Proof.
  revert m acc. induction l as [|p l IH]; intros m acc; simpl; [lia|].
  destruct (decide (fst p = snd p)); [|destruct (0 <? getCount m (fst p))];
    rewrite IH, length_app; simpl; lia.
Qed.

Lemma scoreStep_hints (l : list (ascii * ascii)) (m : gmap ascii Z) (acc : list KeyHint) :
  snd (foldl scoreStep (m, acc) l) = acc ++ hints l m.
Proof.
  revert m acc. induction l as [|p l IH]; intros m acc; simpl.
  - rewrite app_nil_r. reflexivity.
  - destruct (decide (fst p = snd p)); [|destruct (0 <? getCount m (fst p))];
      rewrite IH, <- app_assoc; reflexivity.
Qed.

Lemma hints_length (l : list (ascii * ascii)) (m : gmap ascii Z) :
  length (hints l m) = length l.
Proof.
  revert m. induction l as [|p l IH]; intros m; simpl; [reflexivity|].
  destruct (decide (fst p = snd p)); [|destruct (0 <? getCount m (fst p))];
    simpl; rewrite IH; reflexivity.
Qed.

Lemma markDiscovered_length (hs : list KeyHint) (d : list bool) :
  length (markDiscovered hs d) = length d.
Proof.
  revert d. induction hs as [|h hs IH]; intros [|x d]; simpl; auto.
Qed.

Lemma markDiscovered_snoc_other (hs : list KeyHint) (h : KeyHint) (d : list bool) :
  h <> KeyHintLocated ->
  markDiscovered (hs ++ [h]) d = markDiscovered hs d.
Proof.
  intros Hh. revert d. induction hs as [|x hs IH]; intros [|y d]; simpl; auto.
  - rewrite bool_decide_eq_false_2 by assumption. rewrite orb_false_r. reflexivity.
  - rewrite IH. reflexivity.
Qed.

Lemma markDiscovered_snoc_located (hs : list KeyHint) (d : list bool) :
  (length hs < length d)%nat ->
  <[length hs := true]> (markDiscovered hs d) = markDiscovered (hs ++ [KeyHintLocated]) d.
Proof.
  revert d. induction hs as [|x hs IH]; intros [|y d]; simpl; intros Hl; try lia.
  - rewrite orb_true_r. reflexivity.
  - rewrite IH by lia. reflexivity.
Qed.

(** ** The loops of [formatGuess] *)

Section ScoringLoops.

Variables word guess : string.

Let ps := zip (bytes guess) (bytes word).

Hypothesis Hword : (len guess <= len word)%nat.

Lemma pair_at (k : nat) :
  (k < len guess)%nat ->
  exists g w, at_ guess k = Some g /\ at_ word k = Some w /\ ps !! k = Some (g, w)
              /\ bytes guess !! k = Some g.
Proof using Hword.
  intros Hk. rewrite !at_bytes. rewrite !len_bytes in *.
  destruct (lookup_lt_is_Some_2 (bytes guess) k) as [g Hg]; [lia|].
  destruct (lookup_lt_is_Some_2 (bytes word) k) as [w Hw]; [lia|].
  exists g, w. repeat split; auto.
  unfold ps. rewrite lookup_zip_with, Hg, Hw. reflexivity.
Qed.

Lemma removeCorrect_loop (m : gmap ascii Z) (k : nat) :
  (k <= len guess)%nat ->
  loop (removeCorrect word guess) (seq 0 k) m = Some (credits (take k ps) m).
Proof using Hword.
  induction k as [|k IH]; intros Hk.
  - reflexivity.
  - rewrite (loop_snoc _ _ _ _ (IH ltac:(lia))).
    destruct (pair_at k ltac:(lia)) as (g & w & Hg & Hw & Hp & _).
    unfold removeCorrect. rewrite Hg, Hw. simpl.
    rewrite (take_S_r _ _ _ Hp). unfold credits. rewrite foldl_app. simpl.
    destruct (decide (g = w)); reflexivity.
Qed.

Hypothesis Hlen : (len guess <= WordLength)%nat.

Lemma scoreLetter_loop (m0 : gmap ascii Z) (b : Board) (k : nat) :
  (k <= len guess)%nat ->
  (len guess <= length (discovered b))%nat ->
  loop (scoreLetter word guess true) (seq 0 k)
       (mkScoring m0 (replicate WordLength SlotEmpty) [] b)
  = Some (scoringAfter ps (bytes guess) m0 b k).
Proof using Hword Hlen.
  intros Hk Hd. induction k as [|k IH].
  - unfold scoringAfter. simpl. destruct b; reflexivity.
  - rewrite (loop_snoc _ _ _ _ (IH ltac:(lia))).
    destruct (pair_at k ltac:(lia)) as (g & w & Hg & Hw & Hp & Hb).
    unfold scoringAfter.
    rewrite (take_S_r _ _ _ Hp), (take_S_r _ _ _ Hb), foldl_app.
    pose proof (scoreStep_length (take k ps) m0 []) as Hhs.
    destruct (foldl scoreStep (m0, []) (take k ps)) as [m hs] eqn:Hr.
    simpl in Hhs.
    assert (Hps : length ps = len guess).
    { unfold ps. rewrite length_zip_with, <- !len_bytes. lia. }
    rewrite length_take in Hhs.
    assert (Hhk : length hs = k) by lia.
    assert (Htk : length (take k (bytes guess)) = k).
    { rewrite length_take, <- len_bytes. lia. }
    assert (Hcs : length (colorSlots hs (take k (bytes guess))) = k).
    { unfold colorSlots. rewrite length_zip_with. lia. }
    unfold scoreLetter. rewrite Hg, Hw. simpl.
    replace (WordLength - k)%nat with (S (WordLength - S k)) by lia.
    unfold set_at.
    rewrite markDiscovered_length, length_app, length_replicate, Hcs.
    destruct (decide (g = w)) as [Heq|Hne]; simpl.
    + rewrite decide_True by lia. simpl.
      rewrite decide_True by lia. simpl.
      rewrite insert_first_blank by assumption.
      pose proof (markDiscovered_snoc_located hs (discovered b) ltac:(lia)) as Hmd.
      rewrite Hhk in Hmd. rewrite Hmd.
      unfold colorSlots, recordHints.
      rewrite !zip_with_app by (simpl; lia). rewrite foldl_app, map_app.
      reflexivity.
    + destruct (0 <? getCount m g); simpl;
        rewrite decide_True by lia; simpl;
        rewrite insert_first_blank by assumption;
        rewrite markDiscovered_snoc_other by discriminate;
        unfold colorSlots, recordHints;
        rewrite !zip_with_app by (simpl; lia); rewrite foldl_app, map_app;
        reflexivity.
Qed.

Lemma plainLetter_loop (m : gmap ascii Z) (b : Board) (k : nat) :
  (k <= len guess)%nat ->
  loop (scoreLetter word guess false) (seq 0 k)
       (mkScoring m (replicate WordLength SlotEmpty) [] b)
  = Some (mkScoring m
            (map SlotPlain (take k (bytes guess)) ++ replicate (WordLength - k) SlotEmpty)
            [] b).
Proof using Hlen Hword.
  intros Hk. induction k as [|k IH].
  - reflexivity.
  - rewrite (loop_snoc _ _ _ _ (IH ltac:(lia))).
    destruct (lookup_lt_is_Some_2 (bytes guess) k) as [g Hg];
      [rewrite <- len_bytes; lia|].
    unfold scoreLetter. rewrite at_bytes, Hg. simpl.
    assert (Htk : length (map SlotPlain (take k (bytes guess))) = k).
    { rewrite length_map, length_take, <- len_bytes. lia. }
    unfold set_at. rewrite length_app, length_replicate, Htk.
    rewrite decide_True by lia. simpl.
    replace (WordLength - k)%nat with (S (WordLength - S k)) by lia.
    simpl replicate. rewrite insert_first_blank by assumption.
    rewrite (take_S_r _ _ _ Hg), map_app. reflexivity.
Qed.

End ScoringLoops.

Lemma addBlank_loop (l rest : list Slot) (first : bool) (n : nat) :
  length rest = n ->
  exists first',
    loop addBlank (seq (length l) n) (l ++ rest, first) = Some (l ++ blanks first n, first').
Proof.
  revert l rest first. induction n as [|n IH]; intros l rest first Hr.
  - destruct rest; [|discriminate]. exists first. reflexivity.
  - destruct rest as [|x rest]; [discriminate|]. simpl in Hr.
    assert (Hset : forall y, set_at (l ++ x :: rest) (length l) y = Some ((l ++ [y]) ++ rest)).
    { intros y. unfold set_at. rewrite length_app. simpl.
      rewrite decide_True by lia. f_equal.
      rewrite insert_app_r_alt by lia.
      replace (length l - length l)%nat with 0%nat by lia. simpl.
      rewrite <- app_assoc. reflexivity. }
    destruct (IH (l ++ [if first then SlotCursor else SlotBlank]) rest false ltac:(lia))
      as [first' Hloop].
    rewrite length_app in Hloop. simpl in Hloop.
    replace (length l + 1)%nat with (S (length l)) in Hloop by lia.
    assert (Hstep : addBlank (length l) (l ++ x :: rest, first)
                    = Some ((l ++ [if first then SlotCursor else SlotBlank]) ++ rest, false)).
    { unfold addBlank. destruct first; rewrite Hset; reflexivity. }
    exists first'. cbn [seq loop]. rewrite Hstep, Hloop. f_equal. f_equal.
    rewrite <- app_assoc. simpl. destruct n; reflexivity.
Qed.

(** [formatGuess(guess, true)] on a full guess: the coloured line, and the
    globals it leaves. *)
Lemma formatGuess_scored (word guess : string) (b : Board) :
  len guess = WordLength -> (WordLength <= len word)%nat ->
  (WordLength <= length (discovered b))%nat ->
  let hs := scoreHints word guess in
  formatGuess word guess true b
  = Some (mkLine 5 (colorSlots hs (bytes guess)) "",
          mkBoard (markDiscovered hs (discovered b))
                  (recordHints (zip (bytes guess) hs) (keyboard b))
                  (emojiStack b ++ [map emojiOf hs])).
Proof.
  intros Hg Hw Hd hs. unfold formatGuess.
  rewrite removeCorrect_loop by lia. simpl.
  rewrite scoreLetter_loop by lia. simpl.
  rewrite Hg, Nat.sub_diag. simpl.
  assert (Hps : take WordLength (zip (bytes guess) (bytes word)) = zip (bytes guess) (bytes word)).
  { apply take_ge. rewrite length_zip_with, <- !len_bytes. lia. }
  assert (Hbs : take WordLength (bytes guess) = bytes guess).
  { apply take_ge. rewrite <- len_bytes. lia. }
  rewrite Hps, Hbs, app_nil_r, scoreStep_hints. reflexivity.
Qed.

(** [formatGuess(guess, false)]: the plain line; no global changes. *)
Lemma formatGuess_plain (word guess : string) (b : Board) :
  (len guess <= WordLength)%nat -> (len guess <= len word)%nat ->
  formatGuess word guess false b
  = Some (mkLine 5 (map SlotPlain (bytes guess) ++ blanks true (WordLength - len guess)) "",
          b).
Proof.
  intros Hg Hw. unfold formatGuess.
  rewrite removeCorrect_loop by lia. simpl.
  rewrite plainLetter_loop by lia. simpl.
  assert (Hbs : take (len guess) (bytes guess) = bytes guess).
  { apply take_ge. rewrite <- len_bytes. lia. }
  rewrite Hbs.
  destruct (addBlank_loop (map SlotPlain (bytes guess))
              (replicate (WordLength - len guess) SlotEmpty) true
              (WordLength - len guess) ltac:(apply length_replicate)) as [f Hloop].
  rewrite length_map, <- len_bytes in Hloop. rewrite Hloop. reflexivity.
Qed.


Lemma evaluate_scoreHints (guess target : string) :
  len guess = WordLength -> len target = WordLength ->
  evaluate guess target = Some (scoreHints target guess).
Proof.
  intros Hg Ht. unfold evaluate.
  rewrite formatGuess_scored by (try rewrite Ht; simpl; auto).
  simpl. f_equal. unfold colorSlots, scoreHints.
  set (ps := zip (bytes guess) (bytes target)).
  assert (Hl : length (hints ps (credits ps (mapString target))) = length (bytes guess)).
  { rewrite hints_length. unfold ps. rewrite length_zip_with, <- !len_bytes. lia. }
  revert Hl. generalize (hints ps (credits ps (mapString target))).
  generalize (bytes guess).
  induction l as [|g l IH]; intros [|h hs] Hl; simpl in *; try discriminate; auto.
  f_equal. apply IH. lia.
Qed.

(** ** The code's map against the specification's table *)

Lemma getCount_insert (m : gmap ascii Z) (k c : ascii) (v : Z) :
  getCount (<[k := v]> m) c = if decide (k = c) then v else getCount m c.
Proof.
  unfold getCount. rewrite lookup_insert. destruct (decide (k = c)); reflexivity.
Qed.

Lemma mapString_counts (l : list ascii) (m : gmap ascii Z) (c : ascii) :
  (forall x, 0 <= getCount m x /\ getCount m x + Z.of_nat (length l) <= int_max) ->
  getCount (foldl (fun m r => <[r := int_incr (getCount m r)]> m) m l) c
  = getCount m c + Z.of_nat (SpecEvaluator.remainingCounts l c).
Proof.
  revert m. induction l as [|r l IH]; intros m Hm; simpl.
  - lia.
  - assert (Hr : int_incr (getCount m r) = getCount m r + 1).
    { unfold int_incr. apply wrap_id. specialize (Hm r). simpl length in Hm.
      unfold int_min. lia. }
    rewrite IH.
    + rewrite getCount_insert, Hr. destruct (decide (r = c)), (decide (c = r));
        subst; try congruence; lia.
    + intros x. rewrite getCount_insert, Hr. specialize (Hm x). simpl length in Hm.
      pose proof (Hm' := Hm). destruct (decide (r = x)); subst; lia.
Qed.

Lemma remainingCounts_le (l : list ascii) (c : ascii) :
  (SpecEvaluator.remainingCounts l c <= length l)%nat.
Proof.
  induction l as [|t l IH]; simpl; [lia|]. destruct (decide (c = t)); lia.
Qed.

Lemma mapString_sameCounts (w : string) :
  Z.of_nat (len w) <= int_max ->
  sameCounts (SpecEvaluator.remainingCounts (bytes w)) (mapString w).
Proof.
  intros Hw c. unfold mapString. rewrite mapString_counts.
  - unfold getCount at 1. rewrite lookup_empty. simpl. split; [lia|].
    pose proof (remainingCounts_le (bytes w) c). rewrite <- len_bytes in *. lia.
  - intros x. unfold getCount. rewrite lookup_empty. simpl.
    rewrite <- len_bytes. lia.
Qed.

Lemma takeCredit_sameCounts (tbl : ascii -> nat) (m : gmap ascii Z) (k : ascii) :
  sameCounts tbl m -> (0 < tbl k)%nat ->
  sameCounts (SpecEvaluator.decrement tbl k) (takeCredit m k).
Proof.
  intros HR Hk c. unfold takeCredit, SpecEvaluator.decrement.
  rewrite getCount_insert.
  destruct (HR k) as [Hk1 Hk2]. destruct (HR c) as [Hc1 Hc2].
  destruct (decide (k = c)), (decide (c = k)); subst; try congruence; auto.
  unfold int_decr. rewrite wrap_id by (unfold int_min; lia). lia.
Qed.

Lemma pass1_marks (gs ts : list ascii) (tbl : ascii -> nat) :
  snd (SpecEvaluator.pass1 gs ts tbl) = exactMarks (zip gs ts).
Proof.
  revert ts tbl. induction gs as [|g gs IH]; intros [|t ts] tbl; simpl; auto.
  destruct (decide (g = t)); simpl; rewrite IH; reflexivity.
Qed.

Lemma pass1_credits (gs ts : list ascii) (tbl : ascii -> nat) (m : gmap ascii Z) :
  sameCounts tbl m ->
  (forall c, (SpecEvaluator.remainingCounts ts c <= tbl c)%nat) ->
  sameCounts (fst (SpecEvaluator.pass1 gs ts tbl)) (credits (zip gs ts) m).
Proof.
  revert ts tbl m. induction gs as [|g gs IH]; intros [|t ts] tbl m HR Hc; simpl; auto.
  assert (Ht := Hc t). simpl in Ht. rewrite decide_True in Ht by reflexivity.
  destruct (decide (g = t)) as [->|Hne]; simpl.
  - apply IH.
    + apply takeCredit_sameCounts; [assumption|lia].
    + intros c. specialize (Hc c). simpl in Hc. unfold SpecEvaluator.decrement.
      destruct (decide (c = t)); lia.
  - apply IH; [assumption|].
    intros c. specialize (Hc c). simpl in Hc. destruct (decide (c = t)); lia.
Qed.

Lemma pass2_hints (gs ts : list ascii) (tbl : ascii -> nat) (m : gmap ascii Z) :
  sameCounts tbl m ->
  SpecEvaluator.pass2 gs (exactMarks (zip gs ts)) tbl = hints (zip gs ts) m.
Proof.
  revert ts tbl m. induction gs as [|g gs IH]; intros [|t ts] tbl m HR; simpl; auto.
  destruct (decide (g = t)) as [->|Hne]; simpl.
  - f_equal. apply IH. assumption.
  - destruct (HR g) as [Hg1 Hg2]. rewrite Hg1.
    destruct (Nat.ltb_spec 0 (tbl g)), (Z.ltb_spec 0 (Z.of_nat (tbl g))); try lia.
    + f_equal. apply IH. apply takeCredit_sameCounts; assumption.
    + f_equal. apply IH. assumption.
Qed.

(** The code scores as the specification's two passes do. *)
Lemma evaluate_refines (guess target : string) :
  len guess = WordLength -> len target = WordLength ->
  evaluate guess target = Some (scoreHints target guess)
  /\ SpecEvaluator.evaluate guess target = inr (scoreHints target guess).
Proof.
  intros Hg Ht. split; [apply evaluate_scoreHints; assumption|].
  unfold SpecEvaluator.evaluate. rewrite decide_True by (split; assumption).
  f_equal. rewrite pass1_marks. unfold scoreHints. apply pass2_hints.
  apply pass1_credits.
  - apply mapString_sameCounts. rewrite Ht. unfold int_max, WordLength. lia.
  - intros c. lia.
Qed.

(** ** Counting the marks of a letter *)

Lemma remainingCounts_occurrences (l : list ascii) (c : ascii) :
  SpecEvaluator.remainingCounts l c = occurrences c l.
Proof.
  induction l as [|t l IH]; simpl; [reflexivity|].
  rewrite IH. destruct (decide (c = t)), (decide (t = c)); subst; congruence.
Qed.

Lemma matches_le_target (L : ascii) (gs ts : list ascii) :
  (matches L (zip gs ts) <= occurrences L ts)%nat.
Proof.
  revert ts. induction gs as [|g gs IH]; intros [|t ts]; simpl; try lia.
  specialize (IH ts).
  destruct (decide (g = t /\ g = L)) as [[? ?]|Hn], (decide (t = L));
    try congruence; lia.
Qed.

Lemma matches_misses_guess (L : ascii) (gs ts : list ascii) :
  (length gs <= length ts)%nat ->
  (matches L (zip gs ts) + misses L (zip gs ts))%nat = occurrences L gs.
Proof.
  revert ts. induction gs as [|g gs IH]; intros [|t ts]; simpl; intros Hl; try lia.
  specialize (IH ts ltac:(lia)).
  destruct (decide (g = t /\ g = L)) as [[? ?]|Hn1],
           (decide (g <> t /\ g = L)) as [[? ?]|Hn2],
           (decide (g = L)) as [?|HL]; try tauto; try lia.
Qed.

Lemma pass1_table (L : ascii) (gs ts : list ascii) (tbl : ascii -> nat) :
  (forall c, (SpecEvaluator.remainingCounts ts c <= tbl c)%nat) ->
  fst (SpecEvaluator.pass1 gs ts tbl) L = (tbl L - matches L (zip gs ts))%nat.
Proof.
  revert ts tbl. induction gs as [|g gs IH]; intros [|t ts] tbl Hc; simpl; try lia.
  assert (Ht := Hc t). simpl in Ht. rewrite decide_True in Ht by reflexivity.
  destruct (decide (g = t)) as [Heq|Hne]; simpl.
  - subst g. rewrite IH.
    + unfold SpecEvaluator.decrement.
      destruct (decide (L = t)) as [HL|HL].
      * subst L. rewrite decide_True by auto. lia.
      * rewrite decide_False by (intros [? ?]; congruence). lia.
    + intros c. specialize (Hc c). simpl in Hc. unfold SpecEvaluator.decrement.
      destruct (decide (c = t)); lia.
  - rewrite IH.
    + destruct (decide (g = t /\ g = L)); [tauto|lia].
    + intros c. specialize (Hc c). simpl in Hc. destruct (decide (c = t)); lia.
Qed.

Lemma pass2_counts (L : ascii) (gs ts : list ascii) (tbl : ascii -> nat) :
  let ps := zip gs ts in
  let hs := SpecEvaluator.pass2 gs (exactMarks ps) tbl in
  countMarked L KeyHintLocated gs hs = matches L ps
  /\ countMarked L KeyHintSomewhere gs hs = Nat.min (tbl L) (misses L ps)
  /\ countMarked L KeyHintNotInWord gs hs = (misses L ps - tbl L)%nat.
Proof.
  revert ts tbl. induction gs as [|g gs IH]; intros [|t ts] tbl; simpl;
    try (repeat split; lia).
  destruct (decide (g = t)) as [Heq|Hne]; simpl.
  - destruct (IH ts tbl) as (H1 & H2 & H3). rewrite H1, H2, H3.
    repeat (destruct (decide _) as [[? ?]|?]; try congruence; try tauto);
      repeat split; lia.
  - destruct (Nat.ltb_spec 0 (tbl g)) as [Hpos|Hzero]; simpl.
    + destruct (IH ts (SpecEvaluator.decrement tbl g)) as (H1 & H2 & H3).
      rewrite H1, H2, H3. unfold SpecEvaluator.decrement.
      destruct (decide (g = L)) as [HL|HL];
        [rewrite (decide_True (P := L = g)) by congruence
        |rewrite (decide_False (P := L = g)) by congruence];
        repeat (destruct (decide (_ /\ _)) as [[? ?]|?]; try congruence; try tauto);
        subst; repeat split; lia.
    + destruct (IH ts tbl) as (H1 & H2 & H3). rewrite H1, H2, H3.
      destruct (decide (g = L)) as [HL|HL];
        repeat (destruct (decide (_ /\ _)) as [[? ?]|?]; try congruence; try tauto);
        subst; repeat split; lia.
Qed.

Lemma scoreHints_counts (L : ascii) (guess target : string) :
  len guess = WordLength -> len target = WordLength ->
  let ps := zip (bytes guess) (bytes target) in
  let hs := scoreHints target guess in
  let credit := (occurrences L (bytes target) - matches L ps)%nat in
  countMarked L KeyHintLocated (bytes guess) hs = matches L ps
  /\ countMarked L KeyHintSomewhere (bytes guess) hs = Nat.min credit (misses L ps)
  /\ countMarked L KeyHintNotInWord (bytes guess) hs = (misses L ps - credit)%nat.
Proof.
  intros Hg Ht ps hs credit.
  assert (Hc : forall c, (SpecEvaluator.remainingCounts (bytes target) c
                          <= SpecEvaluator.remainingCounts (bytes target) c)%nat) by (intros; lia).
  assert (Hhs : hs = SpecEvaluator.pass2 (bytes guess) (exactMarks ps)
                       (fst (SpecEvaluator.pass1 (bytes guess) (bytes target)
                               (SpecEvaluator.remainingCounts (bytes target))))).
  { symmetry. apply pass2_hints. apply pass1_credits; [|assumption].
    apply mapString_sameCounts. rewrite Ht. unfold int_max, WordLength. lia. }
  rewrite Hhs.
  pose proof (pass2_counts L (bytes guess) (bytes target)
                (fst (SpecEvaluator.pass1 (bytes guess) (bytes target)
                        (SpecEvaluator.remainingCounts (bytes target))))) as Hp.
  simpl in Hp. rewrite (pass1_table L _ _ _ Hc), remainingCounts_occurrences in Hp.
  exact Hp.
Qed.

(** The letters credited (Located or Somewhere) are as many as the guess and
    the target share. *)
Lemma credited_exactly (L : ascii) (guess target : string) :
  len guess = WordLength -> len target = WordLength ->
  let hs := scoreHints target guess in
  (countMarked L KeyHintLocated (bytes guess) hs
   + countMarked L KeyHintSomewhere (bytes guess) hs)%nat
  = Nat.min (occurrences L (bytes guess)) (occurrences L (bytes target)).
Proof.
  intros Hg Ht hs.
  destruct (scoreHints_counts L guess target Hg Ht) as (H1 & H2 & _).
  fold hs in H1, H2. rewrite H1, H2.
  pose proof (matches_le_target L (bytes guess) (bytes target)).
  pose proof (matches_misses_guess L (bytes guess) (bytes target)
                ltac:(rewrite <- !len_bytes; lia)).
  lia.
Qed.

Lemma hints_located (ps : list (ascii * ascii)) (m : gmap ascii Z) (i : nat) (p : ascii * ascii) :
  ps !! i = Some p ->
  hints ps m !! i = Some KeyHintLocated <-> fst p = snd p.
Proof.
  revert m i. induction ps as [|q ps IH]; intros m [|i] Hp; simpl in *; try discriminate.
  - inversion Hp; subst q.
    destruct (decide (fst p = snd p)); [|destruct (0 <? getCount m (fst p))];
      simpl; split; intros H; try congruence; try discriminate; auto.
  - destruct (decide (fst q = snd q)); [|destruct (0 <? getCount m (fst q))];
      simpl; apply IH; assumption.
Qed.

(** ** Keyboard hints *)

Lemma getHint_setKeyHint (r : rune) (hint : KeyHint) (kb : gmap rune KeyHint) :
  getHint (setKeyHint r hint kb) r = hint_max (getHint kb r) hint.
Proof.
  unfold setKeyHint, hint_max.
  destruct (KeyHint_val (getHint kb r) <? KeyHint_val hint); [|reflexivity].
  unfold getHint. rewrite lookup_insert_eq. reflexivity.
Qed.

Lemma getHint_setKeyHint_ne (r r' : rune) (hint : KeyHint) (kb : gmap rune KeyHint) :
  r <> r' -> getHint (setKeyHint r hint kb) r' = getHint kb r'.
Proof.
  intros Hne. unfold setKeyHint.
  destruct (KeyHint_val (getHint kb r) <? KeyHint_val hint); [|reflexivity].
  unfold getHint. rewrite lookup_insert_ne by assumption. reflexivity.
Qed.

Lemma hint_le_max_l (a b : KeyHint) : hint_le a (hint_max a b).
Proof.
  unfold hint_le, hint_max. destruct (Z.ltb_spec (KeyHint_val a) (KeyHint_val b)); lia.
Qed.

Lemma hint_le_max_r (a b : KeyHint) : hint_le b (hint_max a b).
Proof.
  unfold hint_le, hint_max. destruct (Z.ltb_spec (KeyHint_val a) (KeyHint_val b)); lia.
Qed.

Lemma setKeyHint_mono (r r' : rune) (hint : KeyHint) (kb : gmap rune KeyHint) :
  hint_le (getHint kb r') (getHint (setKeyHint r hint kb) r').
Proof.
  destruct (decide (r = r')) as [->|Hne].
  - rewrite getHint_setKeyHint. apply hint_le_max_l.
  - rewrite getHint_setKeyHint_ne by assumption. unfold hint_le. lia.
Qed.

Lemma setKeyHints_mono (sets : list (rune * KeyHint)) (kb : gmap rune KeyHint) (r : rune) :
  hint_le (getHint kb r) (getHint (setKeyHints sets kb) r).
Proof.
  revert kb. induction sets as [|s sets IH]; intros kb; simpl.
  - unfold hint_le. lia.
  - pose proof (setKeyHint_mono (fst s) r (snd s) kb) as H1.
    pose proof (IH (setKeyHint (fst s) (snd s) kb)) as H2.
    unfold hint_le, setKeyHints in *. simpl. lia.
Qed.

(** *** Within a session *)

Lemma loop_preserves {S : Type} (P : S -> Prop) (body : nat -> S -> option S)
    (idx : list nat) (s s' : S) :
  (forall i x y, P x -> body i x = Some y -> P y) ->
  P s -> loop body idx s = Some s' -> P s'.
Proof.
  intros Hbody. revert s. induction idx as [|i idx IH]; intros s Hs Hloop; simpl in Hloop.
  - injection Hloop as <-. exact Hs.
  - destruct (body i s) as [y|] eqn:Hy; [|discriminate].
    apply (IH y); [eapply Hbody; eassumption|exact Hloop].
Qed.

Lemma hint_le_trans (a b c : KeyHint) : hint_le a b -> hint_le b c -> hint_le a c.
Proof. unfold hint_le. lia. Qed.

Lemma scoreLetter_keyboard (word guess : string) (clr : bool) (i : nat)
    (s s' : Scoring) (kb : gmap rune KeyHint) :
  (forall r, hint_le (getHint kb r) (getHint (keyboard (sc_board s)) r)) ->
  scoreLetter word guess clr i s = Some s' ->
  forall r, hint_le (getHint kb r) (getHint (keyboard (sc_board s')) r).
Proof.
  intros Hs Hstep r. destruct s as [m sl em b]. unfold scoreLetter in Hstep.
  destruct clr.
  - destruct (at_ guess i) as [g|]; [|discriminate]. simpl in Hstep.
    destruct (at_ word i) as [w|]; [|discriminate]. simpl in Hstep.
    destruct (decide (g = w)).
    + destruct (set_at (discovered b) i true); [|discriminate]. simpl in Hstep.
      destruct (set_at sl i _); [|discriminate]. injection Hstep as <-. simpl.
      eapply hint_le_trans; [apply Hs|apply setKeyHint_mono].
    + destruct (0 <? getCount m g);
        (destruct (set_at sl i _); [|discriminate]); injection Hstep as <-; simpl;
        (eapply hint_le_trans; [apply Hs|apply setKeyHint_mono]).
  - destruct (at_ guess i) as [g|]; [|discriminate]. simpl in Hstep.
    destruct (set_at sl i _); [|discriminate]. injection Hstep as <-. apply Hs.
Qed.

Lemma formatGuess_keyboard (word guess : string) (clr : bool) (b b' : Board) (l : Line) :
  formatGuess word guess clr b = Some (l, b') ->
  forall r, hint_le (getHint (keyboard b) r) (getHint (keyboard b') r).
Proof.
  unfold formatGuess. intros H.
  destruct (loop (removeCorrect word guess) _ _) as [m|]; [|discriminate]. simpl in H.
  destruct (loop (scoreLetter word guess clr) _ _) as [s|] eqn:Hloop; [|discriminate].
  simpl in H.
  destruct (loop addBlank _ _); [|discriminate]. injection H as _ <-.
  assert (Hs : forall r, hint_le (getHint (keyboard b) r) (getHint (keyboard (sc_board s)) r)).
  { eapply (loop_preserves
              (fun s => forall r, hint_le (getHint (keyboard b) r)
                                          (getHint (keyboard (sc_board s)) r)));
      [|  |exact Hloop].
    - intros i x y Hx Hy. eapply scoreLetter_keyboard; eassumption.
    - intros r. unfold hint_le. simpl. lia. }
  destruct clr; exact Hs.
Qed.

Lemma keyboardLe_refl (st : Session) : keyboardLe st st.
Proof. intros r. unfold hint_le. lia. Qed.

Lemma keyboardLe_trans (a b c : Session) : keyboardLe a b -> keyboardLe b c -> keyboardLe a c.
Proof. intros H1 H2 r. eapply hint_le_trans; [apply H1|apply H2]. Qed.

Lemma render_keyboard (clr : bool) (suffix : string) (st st' : Session) (out : list Write) :
  render clr suffix st = Some (st', out) ->
  keyboardLe st st' /\ board (set_board (board st') st) = board st'
  /\ st' = set_board (board st') st.
Proof.
  unfold render. intros H.
  destruct (formatGuess (word st) (guess st) clr (board st)) as [[l b']|] eqn:Hf;
    [|discriminate].
  simpl in H. injection H as <- _. simpl. repeat split; try reflexivity.
  intros r. eapply formatGuess_keyboard. exact Hf.
Qed.

Lemma enterBranch_keyboard (st st' : Session) (c : Ctl) (out : list Write) :
  enterBranch st = Some (c, st', out) -> keyboardLe st st'.
Proof.
  unfold enterBranch. intros H.
  destruct (isWord _ _ _) as [ok|]; [|discriminate]. simpl in H. destruct ok; simpl in H.
  - destruct (if HardMode st then _ else _) as [hm|]; [|discriminate]. simpl in H.
    destruct (HardMode st && negb hm).
    + destruct (render false _ st) as [[st1 out1]|] eqn:Hr; [|discriminate].
      simpl in H. injection H as _ <- _. apply (render_keyboard _ _ _ _ _ Hr).
    + destruct (render true "" st) as [[st1 out1]|] eqn:Hr; [|discriminate].
      simpl in H. apply render_keyboard in Hr as (Hle & _ & _).
      match type of H with
      | context [if decide (currentGuess st1 = 0%nat) then ?a else ?b] =>
          set (st2 := if decide (currentGuess st1 = 0%nat) then a else b) in H;
          assert (H12 : board st2 = board st1)
            by (unfold st2; destruct (decide (currentGuess st1 = 0%nat)); reflexivity)
      end.
      assert (Hle2 : keyboardLe st st2) by (intros r; rewrite H12; apply Hle).
      destruct (decide (guess st2 = word st2)).
      { injection H as _ <- _. exact Hle2. }
      destruct (decide (_ = TotalGuesses)).
      { injection H as _ <- _. exact Hle2. }
      injection H as _ <- _. exact Hle2.
  - destruct (render false _ st) as [[st1 out1]|] eqn:Hr; [|discriminate].
    simpl in H. injection H as _ <- _. apply (render_keyboard _ _ _ _ _ Hr).
Qed.

Lemma iteration_keyboard (k : rune) (st st' : Session) (c : Ctl) (out : list Write) :
  iteration k st = Some (c, st', out) -> keyboardLe st st'.
Proof.
  unfold iteration. intros H.
  destruct (((unicode_ToUpper k =? KeyCodeMacBackspace)
             || (unicode_ToUpper k =? KeyCodeWinBackspace))
            && negb (len (guess st) =? 0)%nat).
  - destruct (render false "" _) as [[st1 out1]|] eqn:Hr; [|discriminate].
    simpl in H. injection H as _ <- _. apply render_keyboard in Hr as (Hle & _ & _).
    exact Hle.
  - assert (Hletter : forall sta stb outb,
               letterBranch (unicode_ToUpper k) sta = Some (stb, outb) -> keyboardLe sta stb).
    { intros sta stb outb Hl. unfold letterBranch in Hl.
      destruct ((len (guess sta) <? WordLength)%nat
                && unicode_IsLetter (unicode_ToUpper k)).
      - apply render_keyboard in Hl as (Hle & _ & _). exact Hle.
      - injection Hl as <- _. apply keyboardLe_refl. }
    destruct ((unicode_ToUpper k =? KeyCodeEnter) && (len (guess st) =? WordLength)%nat).
    + destruct (enterBranch st) as [[[c1 st1] out1]|] eqn:He; [|discriminate].
      simpl in H. apply enterBranch_keyboard in He.
      destruct c1; try (injection H as _ <- _; exact He).
      destruct (letterBranch _ st1) as [[st2 out2]|] eqn:Hl; [|discriminate].
      simpl in H. injection H as _ <- _.
      eapply keyboardLe_trans; [exact He|]. eapply Hletter. exact Hl.
    + simpl in H.
      destruct (letterBranch _ st) as [[st2 out2]|] eqn:Hl; [|discriminate].
      simpl in H. injection H as _ <- _. eapply Hletter. exact Hl.
Qed.

Lemma mainLoop_keyboard (keys : list rune) (st : Session) (run : Run) :
  mainLoop keys st = Some run -> keyboardLe st (final run).
Proof.
  revert st run. induction keys as [|k keys IH]; intros st run H; simpl in H.
  - injection H as <-. apply keyboardLe_refl.
  - destruct (iteration k st) as [[[c st1] out]|] eqn:Hk; [|discriminate].
    simpl in H. apply iteration_keyboard in Hk.
    destruct c; try (injection H as <-; exact Hk);
      (destruct (mainLoop keys st1) as [run1|] eqn:Hrun; [|discriminate]);
      simpl in H; injection H as <-; simpl;
      (eapply keyboardLe_trans; [exact Hk|apply IH; exact Hrun]).
Qed.

(** C8. [setKeyHint] stores the maximum of the existing and the new hint in
    the order Unknown < NotInWord < Somewhere < Located and leaves the other
    letters alone; hence, over any sequence of recorded hints, a letter's
    hint is never below the one it had, nor below any hint set for it
    earlier in the sequence; and whatever keys a session reads, no letter of
    its keyboard ends below where it started. *)
Theorem keyboard_hint_is_maximum :
  (forall (r : rune) (hint : KeyHint) (kb : gmap rune KeyHint),
      getHint (setKeyHint r hint kb) r = hint_max (getHint kb r) hint
      /\ forall r', r' <> r -> getHint (setKeyHint r hint kb) r' = getHint kb r')
  /\ (forall (sets : list (rune * KeyHint)) (kb : gmap rune KeyHint) (r : rune),
         hint_le (getHint kb r) (getHint (setKeyHints sets kb) r))
  /\ (forall (before after : list (rune * KeyHint)) (kb : gmap rune KeyHint)
             (r : rune) (hint : KeyHint),
         hint_le hint (getHint (setKeyHints (before ++ (r, hint) :: after) kb) r))
  /\ (forall (keys : list rune) (st : Session) (run : Run),
         mainLoop keys st = Some run -> keyboardLe st (final run)).
Proof.
  split; [|split; [|split]].
  - intros r hint kb. split; [apply getHint_setKeyHint|].
    intros r' Hne. apply getHint_setKeyHint_ne. congruence.
  - apply setKeyHints_mono.
  - intros before after kb r hint. unfold setKeyHints.
    rewrite foldl_app. simpl.
    set (kb1 := foldl _ kb before).
    pose proof (setKeyHints_mono after (setKeyHint r hint kb1) r) as H1.
    pose proof (hint_le_max_r (getHint kb1 r) hint) as H2.
    rewrite <- getHint_setKeyHint in H2.
    unfold hint_le, setKeyHints in *. lia.
  - apply mainLoop_keyboard.
Qed.

Lemma keyboard_hint_is_maximum_witness :
  exists run : Run,
    mainLoop (submitKeys "TRACE") sampleSession = Some run
    /\ keyboardLe sampleSession (final run).
Proof.
  assert (H : exists run, mainLoop (submitKeys "TRACE") sampleSession = Some run)
    by (eexists; vm_compute; reflexivity).
  destruct H as [run H]. exists run. split; [exact H|].
  exact (proj2 (proj2 (proj2 keyboard_hint_is_maximum))
           (submitKeys "TRACE") sampleSession run H).
Defined.

(** ** Hard mode *)

Lemma hardModeLoop_spec (word guess : string) (disc : list bool) (idx : list nat) :
  (forall i, In i idx -> (i < len word)%nat) ->
  (len word <= len guess)%nat -> (len word <= length disc)%nat ->
  exists ok : bool,
    hardModeLoop word guess disc idx = Some ok
    /\ (ok = true <->
        forall i, In i idx -> disc !! i = Some true -> at_ guess i = at_ word i).
Proof.
  intros Hidx Hg Hd. induction idx as [|i idx IH].
  - exists true. simpl. split; [reflexivity|]. split; [intros _ i []|reflexivity].
  - destruct IH as (ok & Hok & Hiff); [intros j Hj; apply Hidx; right; exact Hj|].
    assert (Hi : (i < len word)%nat) by (apply Hidx; left; reflexivity).
    destruct (lookup_lt_is_Some_2 disc i ltac:(lia)) as [d Hdi].
    destruct (lookup_lt_is_Some_2 (bytes guess) i ltac:(rewrite <- len_bytes; lia)) as [g Hgi].
    destruct (lookup_lt_is_Some_2 (bytes word) i ltac:(rewrite <- len_bytes; lia)) as [w Hwi].
    simpl. rewrite Hdi. simpl. destruct d.
    + rewrite !at_bytes, Hgi, Hwi. simpl.
      destruct (decide (g <> w)) as [Hne|Heq].
      * exists false. split; [reflexivity|]. split; [discriminate|].
        intros H. specialize (H i (or_introl eq_refl) Hdi).
        rewrite !at_bytes, Hgi, Hwi in H. congruence.
      * exists ok. split; [exact Hok|]. rewrite Hiff. split.
        -- intros H j [<-|Hj] Hdj; [|apply H; assumption].
           rewrite !at_bytes, Hgi, Hwi. f_equal.
           destruct (decide (g = w)); [assumption|contradiction].
        -- intros H j Hj. apply H. right. exact Hj.
    + exists ok. split; [exact Hok|]. rewrite Hiff. split.
      * intros H j [<-|Hj] Hdj; [congruence|apply H; assumption].
      * intros H j Hj. apply H. right. exact Hj.
Qed.

Lemma hardModeEnforcement_spec (word guess : string) (disc : list bool) :
  (len word <= len guess)%nat -> (len word <= length disc)%nat ->
  exists ok : bool,
    hardModeEnforcement word guess disc = Some ok
    /\ (ok = true <->
        forall i, (i < len word)%nat -> disc !! i = Some true -> at_ guess i = at_ word i).
Proof.
  intros Hg Hd.
  destruct (hardModeLoop_spec word guess disc (seq 0 (len word))) as (ok & Hok & Hiff);
    try assumption.
  { intros i Hi. apply in_seq in Hi. lia. }
  exists ok. split; [exact Hok|]. rewrite Hiff. split.
  - intros H i Hi. apply H. apply in_seq. lia.
  - intros H i Hi. apply H. apply in_seq in Hi. lia.
Qed.

(** C4, as the code has it.  The hard-mode check accepts a guess exactly
    when it agrees with the target at every position whose discovered mask
    is true; with no position discovered (letters at most hinted Somewhere)
    every guess passes; the check yields a bare boolean. *)
Theorem hardMode_accepts_iff (word guess : string) (disc : list bool) :
  len guess = WordLength -> len word = WordLength -> length disc = WordLength ->
  exists ok : bool,
    hardModeEnforcement word guess disc = Some ok
    /\ (ok = true <-> forall i, disc !! i = Some true -> at_ guess i = at_ word i)
    /\ ((forall i, disc !! i <> Some true) -> ok = true).
Proof.
  intros Hg Hw Hd.
  destruct (hardModeEnforcement_spec word guess disc) as (ok & Hok & Hiff); try lia.
  exists ok. split; [exact Hok|].
  assert (Hiff' : ok = true <-> forall i, disc !! i = Some true -> at_ guess i = at_ word i).
  { rewrite Hiff. split.
    - intros H i Hi. apply H; [|exact Hi].
      apply lookup_lt_Some in Hi. lia.
    - intros H i _. apply H. }
  split; [exact Hiff'|].
  intros Hnone. apply Hiff'. intros i Hi. destruct (Hnone i Hi).
Qed.

Lemma hardMode_accepts_iff_witness :
  exists ok : bool,
    hardModeEnforcement "CRANE" "BRAKE" [false; true; true; false; true] = Some ok
    /\ (ok = true <->
        forall i, [false; true; true; false; true] !! i = Some true ->
                  at_ "BRAKE" i = at_ "CRANE" i)
    /\ ((forall i, [false; true; true; false; true] !! i <> Some true) -> ok = true).
Proof.
  apply (hardMode_accepts_iff "CRANE" "BRAKE" [false; true; true; false; true]);
    reflexivity.
Defined.

(** C4, as stated: the result of the check would have to tell the violating
    positions.  It cannot: two rejections that violate different positions
    yield the same [false]. *)
Lemma hardMode_positions_not_reported :
  ~ exists positionsOf : bool -> list nat,
      forall (word guess : string) (disc : list bool),
        len guess = WordLength -> len word = WordLength -> length disc = WordLength ->
        hardModeEnforcement word guess disc = Some false ->
        positionsOf false = violations word guess disc.
Proof.
  intros [positionsOf H].
  pose proof (H "CRANE" "BRINE" [true; false; false; false; false]
                eq_refl eq_refl eq_refl eq_refl) as H0.
  pose proof (H "CRANE" "CLONE" [false; true; false; false; false]
                eq_refl eq_refl eq_refl eq_refl) as H1.
  rewrite H0 in H1. vm_compute in H1. discriminate.
Qed.

(** Nor does the display tell: "BRAKE" against "CRANE" abandons position 0
    under one mask and position 3 under another, and the main loop writes
    the same line for both. *)
Lemma hardMode_rejections_look_alike :
  exists out,
    iteration KeyCodeEnter (maskedSession [true; false; false; false; false])
    = Some (Continue, maskedSession [true; false; false; false; false], out)
    /\ iteration KeyCodeEnter (maskedSession [false; false; false; true; false])
       = Some (Continue, maskedSession [false; false; false; true; false], out)
    /\ violations "CRANE" "BRAKE" [true; false; false; false; false] = [0%nat]
    /\ violations "CRANE" "BRAKE" [false; false; false; true; false] = [3%nat].
Proof.
  eexists. split; [vm_compute; reflexivity|].
  split; [vm_compute; reflexivity|]. split; vm_compute; reflexivity.
Qed.

(** ** The order of strings *)

Lemma string_compare_trans (a b c : string) :
  String.compare a b <> Gt -> String.compare b c <> Gt -> String.compare a c <> Gt.
Proof.
  revert b c. induction a as [|x a IH]; intros [|y b] [|z c]; simpl; try congruence.
  unfold Ascii.compare.
  destruct (N.compare_spec (N_of_ascii x) (N_of_ascii y)) as [Hxy|Hxy|Hxy];
    destruct (N.compare_spec (N_of_ascii y) (N_of_ascii z)) as [Hyz|Hyz|Hyz];
    destruct (N.compare_spec (N_of_ascii x) (N_of_ascii z)) as [Hxz|Hxz|Hxz];
    try congruence; try lia.
  apply IH.
Qed.

Lemma string_le_trans (a b c : string) :
  string_le a b -> string_le b c -> string_le a c.
Proof.
  unfold string_le, String.leb. intros Hab Hbc.
  pose proof (string_compare_trans a b c) as H.
  destruct (String.compare a b), (String.compare b c), (String.compare a c);
    try discriminate; try reflexivity; exfalso; apply H; congruence.
Qed.

Lemma string_le_refl (a : string) : string_le a a.
Proof.
  destruct (String.leb_total a a); assumption.
Qed.

Lemma string_le_transitive : Transitive string_le.
Proof. intros a b c. apply string_le_trans. Qed.

Lemma sortedStrings_lookup (l : list string) (i j : nat) (a b : string) :
  sortedStrings l -> (i <= j)%nat -> l !! i = Some a -> l !! j = Some b ->
  string_le a b.
Proof.
  intros Hs. apply Sorted_StronglySorted in Hs; [|exact string_le_transitive].
  revert i j. induction Hs as [|x l Hs IH Hall]; intros i j Hij Hi Hj.
  - rewrite lookup_nil in Hi. discriminate.
  - destruct i as [|i], j as [|j]; simpl in *; try lia.
    + inversion Hi; inversion Hj; subst. apply string_le_refl.
    + inversion Hi; subst.
      rewrite Forall_forall in Hall. apply Hall.
      eapply list_elem_of_lookup_2. exact Hj.
    + apply (IH i j); [lia|assumption|assumption].
Qed.

(** ** [sort.Strings] *)

Lemma insertString_In (x y : string) (l : list string) :
  In y (insertString x l) <-> y = x \/ In y l.
Proof.
  induction l as [|z l IH]; simpl.
  - intuition.
  - destruct (String.leb x z); simpl; [intuition|]. rewrite IH. intuition.
Qed.

Lemma insertString_sorted (x : string) (l : list string) :
  sortedStrings l -> sortedStrings (insertString x l).
Proof.
  unfold sortedStrings. induction l as [|z l IH]; intros Hs; simpl.
  - repeat constructor.
  - destruct (String.leb x z) eqn:Hxz.
    + constructor; [assumption|]. constructor. exact Hxz.
    + assert (Hzx : string_le z x).
      { destruct (String.leb_total x z) as [H|H]; [congruence|exact H]. }
      inversion Hs as [|? ? Hs' Hhd]; subst.
      constructor; [apply IH; assumption|].
      destruct l as [|w l]; simpl.
      * constructor. exact Hzx.
      * inversion Hhd; subst. destruct (String.leb x w); constructor; assumption.
Qed.

Lemma sort_Strings_sorted (l : list string) : sortedStrings (sort_Strings l).
Proof.
  induction l as [|x l IH]; simpl.
  - constructor.
  - apply insertString_sorted. exact IH.
Qed.

Lemma sort_Strings_In (l : list string) (x : string) :
  In x (sort_Strings l) <-> In x l.
Proof.
  induction l as [|y l IH]; simpl; [tauto|].
  rewrite insertString_In, IH. intuition.
Qed.

(** ** Binary search *)

Lemma searchLoop_step (f : nat -> option bool) (i j : nat) :
  searchLoop f i j =
  if decide (i < j)%nat then
    match f (Nat.div2 (i + j)) with
    | Some false => searchLoop f (Nat.div2 (i + j) + 1) j
    | Some true => searchLoop f i (Nat.div2 (i + j))
    | None => None
    end
  else Some i.
Proof.
  rewrite searchLoop_equation_1.
  destruct (decide (i < j)%nat); reflexivity.
Qed.

Lemma searchLoop_spec (f : nat -> option bool) (n : nat) :
  (forall k, (k < n)%nat -> is_Some (f k)) ->
  (forall k k', (k <= k')%nat -> (k' < n)%nat -> f k = Some true -> f k' = Some true) ->
  forall d i j, (j - i <= d)%nat -> (i <= j <= n)%nat ->
    (forall k, (k < i)%nat -> f k = Some false) ->
    (forall k, (j <= k < n)%nat -> f k = Some true) ->
    exists r, searchLoop f i j = Some r /\ (r <= n)%nat
              /\ (forall k, (k < r)%nat -> f k = Some false)
              /\ (forall k, (r <= k < n)%nat -> f k = Some true).
Proof.
  intros Htot Hmono. induction d as [|d IH]; intros i j Hd Hij Hlo Hhi;
    rewrite searchLoop_step.
  - rewrite decide_False by lia. exists i. repeat split; try lia; auto.
    intros k Hk. apply Hhi. lia.
  - destruct (decide (i < j)%nat) as [Hlt|Hge].
    + set (h := Nat.div2 (i + j)).
      assert (Hh : (i <= h < j)%nat).
      { pose proof (Nat.div2_odd (i + j)) as Hodd. fold h in Hodd.
        destruct (Nat.odd (i + j)); simpl in Hodd; lia. }
      destruct (Htot h ltac:(lia)) as [b Hb]. rewrite Hb. destruct b.
      * apply IH; try lia; [assumption|].
        intros k Hk. apply (Hmono h k); try lia. exact Hb.
      * apply IH; try lia; [|assumption].
        intros k Hk. destruct (Htot k ltac:(lia)) as [[|] Hfk]; [|exact Hfk].
        rewrite (Hmono k h ltac:(lia) ltac:(lia) Hfk) in Hb. discriminate.
    + exists i. repeat split; try lia; auto.
      intros k Hk. apply Hhi. lia.
Qed.

Lemma SearchStrings_found (a : list string) (x : string) :
  sortedStrings a ->
  exists (index : nat) (found : bool),
    sort_SearchStrings a x = Some index
    /\ foundAt a index x = Some found
    /\ (found = true <-> In x a).
Proof.
  intros Hs. unfold sort_SearchStrings, sort_Search.
  set (f := fun i : nat => a !! i ≫= fun s => Some (string_ge s x)).
  destruct (searchLoop_spec f (length a)) with (d := length a) (i := 0%nat) (j := length a)
    as (r & Hr & Hrn & Hlo & Hhi); try lia.
  - intros k Hk. unfold f.
    destruct (lookup_lt_is_Some_2 a k Hk) as [s ->]. simpl. eauto.
  - intros k k' Hkk' Hk'. unfold f.
    destruct (lookup_lt_is_Some_2 a k ltac:(lia)) as [s Hsk].
    destruct (lookup_lt_is_Some_2 a k' Hk') as [s' Hsk'].
    rewrite Hsk, Hsk'. simpl. intros [= Hge]. f_equal.
    unfold string_ge in *.
    apply (string_le_trans x s s'); [exact Hge|].
    apply (sortedStrings_lookup a k k'); assumption.
  - exists r. unfold foundAt.
    destruct (decide (r < length a)%nat) as [Hlt|Hge].
    + destruct (lookup_lt_is_Some_2 a r Hlt) as [s Hsr]. rewrite Hsr. simpl.
      exists (bool_decide (s = x)). repeat split; try assumption.
      * intros Hb. apply bool_decide_eq_true in Hb. subst s.
        apply list_elem_of_In. eapply list_elem_of_lookup_2. exact Hsr.
      * intros Hin. apply bool_decide_eq_true.
        apply list_elem_of_In, list_elem_of_lookup in Hin. destruct Hin as [k Hk].
        assert (Hkn : (k < length a)%nat) by (eapply lookup_lt_Some; exact Hk).
        assert (Hrk : (r <= k)%nat).
        { destruct (le_lt_dec r k) as [|Hkr]; [assumption|].
          specialize (Hlo k Hkr). unfold f in Hlo. rewrite Hk in Hlo. simpl in Hlo.
          unfold string_ge in Hlo. pose proof (string_le_refl x) as Hxx.
          unfold string_le in Hxx. congruence. }
        pose proof (Hhi r ltac:(lia)) as Hfr. unfold f in Hfr. rewrite Hsr in Hfr.
        simpl in Hfr. injection Hfr as Hfr. unfold string_ge in Hfr.
        apply String.leb_antisym; [|exact Hfr].
        apply (sortedStrings_lookup a r k); assumption.
    + exists false. repeat split; try assumption; try discriminate.
      intros Hin. exfalso.
      apply list_elem_of_In, list_elem_of_lookup in Hin. destruct Hin as [k Hk].
      assert (Hkn : (k < length a)%nat) by (eapply lookup_lt_Some; exact Hk).
      specialize (Hlo k ltac:(lia)). unfold f in Hlo. rewrite Hk in Hlo. simpl in Hlo.
      unfold string_ge in Hlo. pose proof (string_le_refl x) as Hxx.
      unfold string_le in Hxx. congruence.
Qed.

Lemma isWord_spec (wordList allowedWords : list string) (w : string) :
  sortedStrings wordList -> sortedStrings allowedWords ->
  exists ok : bool,
    isWord wordList allowedWords w = Some ok
    /\ (ok = true <-> In w wordList \/ In w allowedWords).
Proof.
  intros Hs1 Hs2. unfold isWord.
  destruct (SearchStrings_found wordList w Hs1) as (i1 & b1 & Hi1 & Hb1 & Hiff1).
  destruct (SearchStrings_found allowedWords w Hs2) as (i2 & b2 & Hi2 & Hb2 & Hiff2).
  rewrite Hi1. simpl. rewrite Hb1. simpl. destruct b1.
  - exists true. split; [reflexivity|]. intuition.
  - rewrite Hi2. simpl. rewrite Hb2. exists b2. split; [reflexivity|].
    rewrite Hiff2. split; [auto|]. intros [H|H]; [|exact H].
    apply Hiff1 in H. discriminate.
Qed.

(** C6. A word is accepted exactly when it is in the answer list or in the
    allowed-guess list.  Both are searched by binary search: the answer list
    after [main] has sorted it, the allowed list as embedded, which is taken
    to be in sorted order. *)
Theorem isWord_iff_member (goodWords badWords : list string) (w : string) :
  sortedStrings badWords ->
  exists ok : bool,
    isWord (sort_Strings goodWords) badWords w = Some ok
    /\ (ok = true <-> In w goodWords \/ In w badWords).
Proof.
  intros Hs.
  destruct (isWord_spec (sort_Strings goodWords) badWords w) as (ok & Hok & Hiff);
    [apply sort_Strings_sorted|assumption|].
  exists ok. split; [exact Hok|]. rewrite Hiff, sort_Strings_In. reflexivity.
Qed.

Lemma isWord_iff_member_witness :
  exists ok : bool,
    isWord (sort_Strings ["SPEED"; "CRANE"; "ERASE"]) ["AAHED"; "TRACE"; "ZYMIC"] "TRACE"
    = Some ok
    /\ (ok = true <-> In "TRACE" ["SPEED"; "CRANE"; "ERASE"]
                      \/ In "TRACE" ["AAHED"; "TRACE"; "ZYMIC"]).
Proof.
  apply (isWord_iff_member ["SPEED"; "CRANE"; "ERASE"] ["AAHED"; "TRACE"; "ZYMIC"] "TRACE").
  repeat constructor.
Defined.

(** ** One pass through the main loop *)

Lemma set_board_id (st : Session) : set_board (board st) st = st.
Proof. destruct st; reflexivity. Qed.

Lemma render_plain (suffix : string) (st : Session) :
  (len (guess st) <= WordLength)%nat -> (len (guess st) <= len (word st))%nat ->
  exists out, render false suffix st = Some (st, out).
Proof.
  intros Hg Hw. unfold render. rewrite formatGuess_plain by assumption. simpl.
  rewrite set_board_id. eexists. reflexivity.
Qed.

Lemma render_scored (st : Session) :
  len (guess st) = WordLength -> len (word st) = WordLength ->
  length (discovered (board st)) = WordLength ->
  exists out, render true "" st = Some (set_board (scoredBoard st) st, out).
Proof.
  intros Hg Hw Hd. unfold render. rewrite formatGuess_scored by lia. simpl.
  eexists. reflexivity.
Qed.

Lemma enter_key (st : Session) :
  len (guess st) = WordLength ->
  iteration KeyCodeEnter st =
  r ← enterBranch st;
  match r with
  | (FallThrough, st, out) => Some (Continue, st, out)
  | r => Some r
  end.
Proof.
  intros Hg. unfold iteration. simpl. rewrite Hg. simpl.
  destruct (enterBranch st) as [[[[| |] st'] out]|]; simpl; try reflexivity.
  unfold letterBranch. simpl. rewrite andb_false_r. simpl.
  rewrite app_nil_r. reflexivity.
Qed.

(** A rejected guess writes to the display and changes nothing. *)
Lemma rejected_guess_keeps_state (st : Session) :
  wellFormed st -> len (guess st) = WordLength -> rejected st ->
  exists out, iteration KeyCodeEnter st = Some (Continue, st, out).
Proof.
  intros [Hw Hd Hg _ _] Hlen Hrej. rewrite enter_key by assumption.
  unfold enterBranch.
  destruct Hrej as [Hnot|(Hword & Hhard & Hcheck)].
  - rewrite Hnot. simpl.
    destruct (render_plain " (must be a word)" st) as [out Hout]; try lia.
    rewrite Hout. simpl. exists out. reflexivity.
  - rewrite Hword. simpl. rewrite Hhard, Hcheck. simpl.
    destruct (render_plain " (must use revealed hints)" st) as [out Hout]; try lia.
    rewrite Hout. simpl. exists out. reflexivity.
Qed.

(** An accepted guess is scored; a correct one wins, the sixth one ends the
    game, any other opens the next line. *)
Lemma accepted_guess (st : Session) :
  wellFormed st -> len (guess st) = WordLength -> accepted st ->
  exists out,
    iteration KeyCodeEnter st =
    Some (if decide (guess st = word st)
          then (Break, set_win true (scored st), out)
          else if decide (S (currentGuess st) = TotalGuesses)
               then (Break, nextGuess st, out)
               else (Continue, nextGuess st, out)).
Proof.
  intros [Hw Hd Hg _ _] Hlen [Hword Hhard]. rewrite enter_key by assumption.
  unfold enterBranch. rewrite Hword. simpl.
  assert (Hcheck :
            (hm ← (if HardMode st
                   then hardModeEnforcement (word st) (guess st) (discovered (board st))
                   else Some true);
             Some (HardMode st && negb hm)) = Some false).
  { destruct (HardMode st); [rewrite Hhard by reflexivity|]; reflexivity. }
  destruct (if HardMode st
            then hardModeEnforcement (word st) (guess st) (discovered (board st))
            else Some true) as [hm|]; [|discriminate].
  simpl in Hcheck. injection Hcheck as Hcheck. simpl. rewrite Hcheck.
  destruct (render_scored st Hlen Hw Hd) as [out1 Hout1]. rewrite Hout1. simpl.
  unfold nextGuess, scored.
  destruct st as [w wl al off hard b cg g wn gs sv].
  unfold save, set_gamestats, set_board, set_guess, set_currentGuess, set_win in *.
  simpl in *.
  destruct (decide (cg = 0%nat)) as [Hzero|Hnz]; simpl;
    (destruct (decide (g = w)) as [Hwin|Hnowin]; [eexists; reflexivity|]);
    (destruct (decide (S cg = TotalGuesses)) as [Hlast|Hmore];
     [eexists; reflexivity|]);
    simpl; eexists; reflexivity.
Qed.

(** ** Running the main loop *)

Lemma runsTo_nil (st : Session) : runsTo [] st st false.
Proof. exists []. reflexivity. Qed.

Lemma runsTo_continue (k : rune) (rest : list rune) (st st1 st' : Session)
    (out : list Write) (e : bool) :
  iteration k st = Some (Continue, st1, out) ->
  runsTo rest st1 st' e -> runsTo (k :: rest) st st' e.
Proof.
  intros Hk [d Hd]. exists (out ++ d). simpl. rewrite Hk. simpl. rewrite Hd. reflexivity.
Qed.

Lemma runsTo_break (k : rune) (rest : list rune) (st st' : Session) (out : list Write) :
  iteration k st = Some (Break, st', out) -> runsTo (k :: rest) st st' true.
Proof.
  intros Hk. exists out. simpl. rewrite Hk. reflexivity.
Qed.

Lemma mainLoop_exited (keys more : list rune) (st : Session) (run : Run) :
  mainLoop keys st = Some run -> exited run = true ->
  mainLoop (keys ++ more) st = Some run.
Proof.
  revert st run. induction keys as [|k keys IH]; intros st run Hrun Hex; simpl in *.
  - injection Hrun as <-. discriminate.
  - destruct (iteration k st) as [[[c st1] out]|]; simpl in *; [|discriminate].
    destruct c; try exact Hrun;
      destruct (mainLoop keys st1) as [run1|] eqn:Hrun1; simpl in *; try discriminate;
      injection Hrun as <-; simpl in Hex;
      rewrite (IH st1 run1 Hrun1 Hex); reflexivity.
Qed.

Lemma runsTo_app (k1 k2 : list rune) (st st1 st2 : Session) (e : bool) :
  runsTo k1 st st1 false -> runsTo k2 st1 st2 e -> runsTo (k1 ++ k2) st st2 e.
Proof.
  revert st. induction k1 as [|k k1 IH]; intros st [d1 H1] H2; simpl in *.
  - injection H1 as -> _. exact H2.
  - destruct (iteration k st) as [[[c sta] out]|] eqn:Hk; simpl in *; [|discriminate].
    destruct c; try discriminate;
      destruct (mainLoop k1 sta) as [run1|] eqn:Hrun1; simpl in *; try discriminate;
      injection H1 as <- He <-;
      destruct (IH sta) as [d Hd];
      try (exists (display run1); rewrite Hrun1; destruct run1; simpl in *; subst; reflexivity);
      try exact H2;
      exists (out ++ d); unfold runsTo; simpl; rewrite Hk; simpl; rewrite Hd; reflexivity.
Qed.

(** ** Typing *)

Lemma string_of_rune_byte (c : ascii) : string_of_rune (rune_of_byte c) = String c "".
Proof.
  unfold string_of_rune, rune_of_byte. rewrite N2Z.id, ascii_N_embedding. reflexivity.
Qed.

Lemma append_cons (x : ascii) (s t : string) :
  String.append (String x s) t = String x (String.append s t).
Proof. reflexivity. Qed.

Lemma len_append (s1 s2 : string) : len (String.append s1 s2) = (len s1 + len s2)%nat.
Proof.
  unfold len. induction s1 as [|x s1 IH]; [reflexivity|].
  rewrite append_cons. simpl. rewrite IH. reflexivity.
Qed.

Lemma append_snoc (s : string) (c : ascii) (s' : string) :
  String.append (String.append s (String c "")) s' = String.append s (String c s').
Proof.
  induction s as [|x s IH]; [reflexivity|]. rewrite !append_cons, IH. reflexivity.
Qed.

Lemma append_empty_r (s : string) : String.append s "" = s.
Proof.
  induction s as [|x s IH]; [reflexivity|]. rewrite append_cons, IH. reflexivity.
Qed.

Lemma wellFormed_set_guess (g : string) (st : Session) :
  wellFormed st -> (len g <= WordLength)%nat -> wellFormed (set_guess g st).
Proof. intros [? ? ? ? ?] Hg. constructor; simpl; assumption. Qed.


Lemma letter_key (c : ascii) (st : Session) :
  wellFormed st -> (len (guess st) < WordLength)%nat ->
  65 <= rune_of_byte c <= 90 ->
  exists out,
    iteration (rune_of_byte c) st
    = Some (Continue, set_guess (String.append (guess st) (String c "")) st, out).
Proof.
  intros [Hw Hd Hg _ _] Hlen Hc. unfold iteration.
  assert (Hup : unicode_ToUpper (rune_of_byte c) = rune_of_byte c).
  { unfold unicode_ToUpper.
    destruct (Z.leb_spec 97 (rune_of_byte c)); simpl; [lia|reflexivity]. }
  rewrite Hup.
  assert (H1 : (rune_of_byte c =? KeyCodeMacBackspace) = false)
    by (apply Z.eqb_neq; unfold KeyCodeMacBackspace; lia).
  assert (H2 : (rune_of_byte c =? KeyCodeWinBackspace) = false)
    by (apply Z.eqb_neq; unfold KeyCodeWinBackspace; lia).
  assert (H3 : (rune_of_byte c =? KeyCodeEnter) = false)
    by (apply Z.eqb_neq; unfold KeyCodeEnter; lia).
  rewrite H1, H2, H3. simpl.
  unfold letterBranch.
  assert (H4 : unicode_IsLetter (rune_of_byte c) = true).
  { unfold unicode_IsLetter.
    destruct (Z.leb_spec 65 (rune_of_byte c)), (Z.leb_spec (rune_of_byte c) 90);
      simpl; try lia; reflexivity. }
  rewrite H4. destruct (Nat.ltb_spec (len (guess st)) WordLength); [|lia]. simpl.
  rewrite string_of_rune_byte.
  destruct (render_plain "" (set_guess (String.append (guess st) (String c "")) st))
    as [out Hout].
  - simpl. rewrite len_append. simpl. lia.
  - simpl. rewrite len_append. simpl. lia.
  - rewrite Hout. simpl. eexists. reflexivity.
Qed.

Lemma typeWord (g : string) (st : Session) :
  wellFormed st -> (len (guess st) + len g <= WordLength)%nat -> upperCase g ->
  runsTo (keysOf g) st (set_guess (String.append (guess st) g) st) false.
Proof.
  revert st. induction g as [|c g IH]; intros st Hwf Hlen Hup.
  - rewrite append_empty_r. destruct st; apply runsTo_nil.
  - unfold upperCase in Hup. simpl in Hup. apply Forall_cons in Hup as [Hc Hup].
    unfold len in Hlen. simpl in Hlen. fold (len g) in Hlen. fold (len (guess st)) in Hlen.
    destruct (letter_key c st Hwf ltac:(lia) Hc) as [out Hout].
    unfold keysOf. simpl. eapply runsTo_continue; [exact Hout|].
    specialize (IH (set_guess (String.append (guess st) (String c "")) st)).
    simpl in IH. rewrite append_snoc in IH. apply IH.
    + apply wellFormed_set_guess; [assumption|]. rewrite len_append. simpl. lia.
    + rewrite len_append. simpl. lia.
    + exact Hup.
Qed.

(** ** Submitting guesses *)

Lemma wellFormed_nextGuess (st : Session) : wellFormed st -> wellFormed (nextGuess st).
Proof.
  intros [Hw Hd Hg Hl Ha]. unfold nextGuess, scored.
  destruct (decide (currentGuess (set_board (scoredBoard st) st) = 0%nat));
    constructor; simpl; try assumption; try (unfold len; simpl; lia);
    rewrite markDiscovered_length; assumption.
Qed.

Lemma nextGuess_fields (st : Session) :
  currentGuess (nextGuess st) = S (currentGuess st)
  /\ guess (nextGuess st) = ""
  /\ win (nextGuess st) = win st
  /\ word (nextGuess st) = word st.
Proof.
  unfold nextGuess, scored.
  destruct (decide (currentGuess (set_board (scoredBoard st) st) = 0%nat));
    simpl; auto.
Qed.

Lemma typed (g : string) (st : Session) :
  wellFormed st -> guess st = "" -> len g = WordLength -> upperCase g ->
  runsTo (keysOf g) st (set_guess g st) false.
Proof.
  intros Hwf Hempty Hlen Hup.
  pose proof (typeWord g st Hwf) as H. rewrite Hempty in H.
  apply H; [unfold len at 1; simpl; lia|assumption].
Qed.

Lemma submit_next (g : string) (st : Session) :
  wellFormed st -> guess st = "" -> len g = WordLength -> upperCase g ->
  accepted (set_guess g st) -> g <> word st -> S (currentGuess st) <> TotalGuesses ->
  runsTo (submitKeys g) st (nextGuess (set_guess g st)) false.
Proof.
  intros Hwf Hempty Hlen Hup Hacc Hne Hmore.
  apply runsTo_app with (st1 := set_guess g st); [apply typed; assumption|].
  destruct (accepted_guess (set_guess g st)) as [out Hout];
    [apply wellFormed_set_guess; [assumption|lia]|exact Hlen|exact Hacc|].
  simpl in Hout. rewrite decide_False in Hout by assumption.
  rewrite decide_False in Hout by assumption.
  eapply runsTo_continue; [exact Hout|apply runsTo_nil].
Qed.

Lemma submit_last (g : string) (more : list rune) (st : Session) :
  wellFormed st -> guess st = "" -> len g = WordLength -> upperCase g ->
  accepted (set_guess g st) -> g <> word st -> S (currentGuess st) = TotalGuesses ->
  runsTo (submitKeys g ++ more) st (nextGuess (set_guess g st)) true.
Proof.
  intros Hwf Hempty Hlen Hup Hacc Hne Hlast.
  unfold submitKeys. rewrite <- app_assoc.
  apply runsTo_app with (st1 := set_guess g st); [apply typed; assumption|].
  destruct (accepted_guess (set_guess g st)) as [out Hout];
    [apply wellFormed_set_guess; [assumption|lia]|exact Hlen|exact Hacc|].
  simpl in Hout. rewrite decide_False in Hout by assumption.
  rewrite decide_True in Hout by assumption.
  eapply runsTo_break. exact Hout.
Qed.

Lemma submit_target (more : list rune) (st : Session) :
  wellFormed st -> guess st = "" -> upperCase (word st) ->
  accepted (set_guess (word st) st) ->
  runsTo (submitKeys (word st) ++ more) st
         (set_win true (scored (set_guess (word st) st))) true.
Proof.
  intros Hwf Hempty Hup Hacc.
  unfold submitKeys. rewrite <- app_assoc.
  apply runsTo_app with (st1 := set_guess (word st) st);
    [apply typed; try assumption; apply Hwf|].
  destruct (accepted_guess (set_guess (word st) st)) as [out Hout];
    [apply wellFormed_set_guess; [assumption|destruct Hwf; lia]|apply Hwf|exact Hacc|].
  simpl in Hout. rewrite decide_True in Hout by reflexivity.
  eapply runsTo_break. exact Hout.
Qed.

(** The target itself is always let through. *)
Lemma target_accepted (st : Session) :
  wellFormed st -> In (word st) (wordList st) -> accepted (set_guess (word st) st).
Proof.
  intros [Hw Hd Hg Hl Ha] Hin. split; simpl.
  - destruct (isWord_spec (wordList st) (allowedWords st) (word st) Hl Ha)
      as (ok & Hok & Hiff).
    rewrite Hok. f_equal. apply Hiff. left. exact Hin.
  - intros _.
    destruct (hardModeEnforcement_spec (word st) (word st) (discovered (board st)))
      as (ok & Hok & Hiff); [lia|lia|].
    rewrite Hok. f_equal. apply Hiff. reflexivity.
Qed.

Lemma lost_after_guesses (gs : list string) (more : list rune) (st : Session) :
  wellFormed st -> guess st = "" -> win st = false ->
  validGuesses gs st -> (currentGuess st + length gs)%nat = TotalGuesses ->
  gs <> [] ->
  exists st', runsTo (concat (map submitKeys gs) ++ more) st st' true
              /\ win st' = false /\ currentGuess st' = TotalGuesses.
Proof.
  revert st. induction gs as [|g gs IH]; intros st Hwf Hempty Hwin Hvalid Hcount Hne;
    [congruence|].
  destruct Hvalid as (Hlen & Hup & Hacc & Hnot & Hrest).
  destruct (nextGuess_fields (set_guess g st)) as (Hcg & Hg' & Hw' & _).
  change (currentGuess (set_guess g st)) with (currentGuess st) in Hcg.
  change (win (set_guess g st)) with (win st) in Hw'.
  destruct gs as [|g2 gs].
  - exists (nextGuess (set_guess g st)). simpl in Hcount.
    split; [|split].
    + simpl concat. rewrite app_nil_r. apply submit_last; try assumption. lia.
    + rewrite Hw'. exact Hwin.
    + rewrite Hcg. lia.
  - assert (Hwf' : wellFormed (nextGuess (set_guess g st))).
    { apply wellFormed_nextGuess. apply wellFormed_set_guess; [assumption|lia]. }
    assert (Hcount' : (currentGuess (nextGuess (set_guess g st)) + length (g2 :: gs))%nat
                      = TotalGuesses).
    { rewrite Hcg. simpl in *. lia. }
    destruct (IH (nextGuess (set_guess g st)) Hwf' Hg' ltac:(congruence) Hrest Hcount'
                 ltac:(discriminate)) as (st' & Hrun & Hwin' & Hcg').
    exists st'. split; [|split; assumption].
    change (concat (map submitKeys (g :: g2 :: gs)))
      with (submitKeys g ++ concat (map submitKeys (g2 :: gs))).
    rewrite <- app_assoc.
    apply runsTo_app with (st1 := nextGuess (set_guess g st)); [|exact Hrun].
    apply submit_next; try assumption. simpl in Hcount. lia.
Qed.

(** ** The session [main] starts *)

Lemma pickWord_In (c : Clock) (rnd : nat) (gs gs' : GameStats) (wordList : list string)
    (w : string) (off : Z) :
  pickWord c rnd gs wordList = Some (w, off, gs') -> In w wordList.
Proof.
  unfold pickWord. intros H.
  destruct (match LastDaily gs with Some last => _ | None => true end).
  - unfold dailyWord in H.
    destruct (decide (length wordList = 0%nat)); [discriminate|].
    destruct (Z.rem _ _ <? 0); [discriminate|].
    destruct (wordList !! _) as [w'|] eqn:Hw; [|discriminate].
    simpl in H. injection H as <- _ _.
    apply list_elem_of_In. eapply list_elem_of_lookup_2. exact Hw.
  - destruct (decide (length wordList = 0%nat)); [discriminate|].
    destruct (wordList !! _) as [w'|] eqn:Hw; [|discriminate].
    simpl in H. injection H as <- _ _.
    apply list_elem_of_In. eapply list_elem_of_lookup_2. exact Hw.
Qed.

(** With five-letter answers and a sorted allowed list, [main] enters its
    loop in a well-formed session: attempt 0, an empty buffer, no win, and a
    target taken from the answer list. *)
Lemma startSession_wellFormed (c : Clock) (rnd : nat) (hardMode : bool)
    (gs : GameStats) (goodWords badWords : list string) (st : Session) :
  startSession c rnd hardMode gs goodWords badWords = Some st ->
  Forall (fun w => len w = WordLength) goodWords -> sortedStrings badWords ->
  wellFormed st /\ guess st = "" /\ win st = false /\ currentGuess st = 0%nat
  /\ In (word st) (wordList st).
Proof.
  unfold startSession. intros H Hlen Hsorted.
  destruct (pickWord c rnd gs goodWords) as [[[w off] gs']|] eqn:Hpick; [|discriminate].
  simpl in H. injection H as <-. simpl.
  pose proof (pickWord_In _ _ _ _ _ _ _ Hpick) as Hin.
  split; [|split; [reflexivity|split; [reflexivity|split; [reflexivity|]]]].
  - constructor; simpl.
    + rewrite Forall_forall in Hlen. apply Hlen. apply list_elem_of_In. exact Hin.
    + reflexivity.
    + unfold len. simpl. lia.
    + apply sort_Strings_sorted.
    + exact Hsorted.
  - apply sort_Strings_In. exact Hin.
Qed.

(** C3. From an attempt index [k], [TotalGuesses - k] consecutive accepted
    guesses, none of them the target, take the session to Lost (six of them
    from the start); the target, submitted at any attempt index below
    [TotalGuesses], takes it to Won at that attempt; Won and Lost are
    terminal: whatever keys follow are never read, so no further guess is
    accepted. *)
Theorem session_outcomes :
  (forall (gs : list string) (more : list rune) (st : Session),
      wellFormed st -> guess st = "" -> win st = false ->
      (currentGuess st + length gs)%nat = TotalGuesses -> gs <> [] ->
      validGuesses gs st ->
      exists run,
        mainLoop (concat (map submitKeys gs) ++ more) st = Some run
        /\ status run = Lost /\ currentGuess (final run) = TotalGuesses)
  /\ (forall (more : list rune) (st : Session),
         wellFormed st -> guess st = "" -> (currentGuess st < TotalGuesses)%nat ->
         upperCase (word st) -> In (word st) (wordList st) ->
         exists run,
           mainLoop (submitKeys (word st) ++ more) st = Some run
           /\ status run = Won /\ currentGuess (final run) = currentGuess st)
  /\ (forall (keys more : list rune) (st : Session) (run : Run),
         mainLoop keys st = Some run -> status run <> Active ->
         mainLoop (keys ++ more) st = Some run).
Proof.
  split; [|split].
  - intros gs more st Hwf Hempty Hwin Hcount Hne Hvalid.
    destruct (lost_after_guesses gs more st Hwf Hempty Hwin Hvalid Hcount Hne)
      as (st' & [d Hrun] & Hwin' & Hcg).
    exists (mkRun st' true d). split; [exact Hrun|].
    unfold status. simpl. rewrite Hwin'. split; [reflexivity|exact Hcg].
  - intros more st Hwf Hempty Hlt Hup Hin.
    destruct (submit_target more st Hwf Hempty Hup (target_accepted st Hwf Hin))
      as [d Hrun].
    eexists. split; [exact Hrun|]. unfold status. simpl. split; [reflexivity|].
    unfold scored.
    destruct (decide (currentGuess (set_board (scoredBoard (set_guess (word st) st))
                                      (set_guess (word st) st)) = 0%nat));
      reflexivity.
  - intros keys more st run Hrun Hst. apply mainLoop_exited; [exact Hrun|].
    unfold status in Hst. destruct (exited run); [reflexivity|congruence].
Qed.

Lemma sampleSession_wellFormed : wellFormed sampleSession.
Proof.
  constructor; try reflexivity; simpl; try lia;
    repeat constructor.
Qed.



Lemma session_outcomes_witness :
  exists run,
    mainLoop (concat (map submitKeys ["TRACE"; "BRAKE"; "BRAVE"; "GRADE"; "GRAPE"; "DRAPE"])
                ++ [65]) sampleSession = Some run
    /\ status run = Lost /\ currentGuess (final run) = TotalGuesses.
Proof.
  apply (proj1 session_outcomes
           ["TRACE"; "BRAKE"; "BRAVE"; "GRADE"; "GRAPE"; "DRAPE"] [65] sampleSession).
  - exact sampleSession_wellFormed.
  - reflexivity.
  - reflexivity.
  - reflexivity.
  - discriminate.
  - do 6 valid_guess. exact I.
Defined.

(** ** Rejected and unfinished guesses *)

Lemma len_substring (n : nat) (s : string) : (len (substring 0 n s) <= len s)%nat.
Proof.
  unfold len. revert n. induction s as [|c s IH]; intros [|n]; simpl; try lia.
  specialize (IH n). lia.
Qed.

(** In the current revision a key that does not submit an accepted guess
    edits the buffer at most: the board, the attempt counter, the statistics
    and the saved record stay as they are. *)
Lemma unscored_key_keeps_state (k : rune) (st : Session) :
  wellFormed st ->
  unicode_ToUpper k <> KeyCodeEnter \/ len (guess st) <> WordLength \/ rejected st ->
  exists g out, iteration k st = Some (Continue, set_guess g st, out).
Proof.
  intros Hwf Hcase. pose proof Hwf as [Hw Hd Hg Hl Ha].
  assert (Hletter : forall out0,
             exists g out,
               (r ← letterBranch (unicode_ToUpper k) st; Some (Continue, fst r, out0 ++ snd r))
               = Some (Continue, set_guess g st, out)).
  { intros out0. unfold letterBranch.
    destruct ((len (guess st) <? WordLength)%nat && unicode_IsLetter (unicode_ToUpper k))
      eqn:Hl5.
    - apply andb_true_iff in Hl5 as [Hlt _]. apply Nat.ltb_lt in Hlt.
      match goal with
      | |- context [render false "" ?s] =>
          destruct (render_plain "" s) as [out Hout];
          [simpl; rewrite len_append; unfold len at 2; simpl; lia
          |simpl; rewrite len_append; unfold len at 2; simpl; lia
          |rewrite Hout]
      end.
      simpl. eexists _, _. reflexivity.
    - simpl. exists (guess st), (out0 ++ []). destruct st; reflexivity. }
  unfold iteration.
  destruct (((unicode_ToUpper k =? KeyCodeMacBackspace)
             || (unicode_ToUpper k =? KeyCodeWinBackspace))
            && negb (len (guess st) =? 0)%nat) eqn:Hback.
  - match goal with
    | |- context [render false "" ?s] =>
        destruct (render_plain "" s) as [out Hout];
        [simpl; pose proof (len_substring (len (guess st) - 1) (guess st)); lia
        |simpl; pose proof (len_substring (len (guess st) - 1) (guess st)); lia
        |rewrite Hout]
    end.
    simpl. eexists _, _. reflexivity.
  - destruct ((unicode_ToUpper k =? KeyCodeEnter) && (len (guess st) =? WordLength)%nat)
      eqn:Henter.
    + apply andb_true_iff in Henter as [Hk Hlen].
      apply Z.eqb_eq in Hk. apply Nat.eqb_eq in Hlen.
      destruct Hcase as [Hne|[Hne|Hrej]]; try contradiction.
      destruct (rejected_guess_keeps_state st Hwf Hlen Hrej) as [out Hout].
      rewrite enter_key in Hout by assumption.
      destruct (enterBranch st) as [[[c st'] out']|]; simpl in *; [|discriminate].
      destruct c; try discriminate; injection Hout as Hst Hout; subst st'.
      * exists (guess st), out'. destruct st; reflexivity.
      * apply Hletter.
    + simpl. apply (Hletter []).
Qed.

(** C2 on [src/main.go].  There [formatGuess] marks [discovered] in its first
    loop whatever [clr] is.  "CRAZY" is not a word of the list, and
    submitting it, which is rejected, leaves the first three positions
    discovered; typing the single letter "C" already marks the first.  After
    the rejected "CRAZY" hard mode turns down "SPEED", a word of the list,
    although no letter has been revealed. *)
Lemma MainGo_rejected_guess_marks_discovered :
  MainGo.isWord (MainGo.wordList sampleGame) (MainGo.guess sampleGame) = Some false
  /\ MainGo.discovered sampleGame = [false; false; false; false; false]
  /\ (exists st' out,
         MainGo.iteration KeyCodeEnter sampleGame = Some (Continue, st', out)
         /\ MainGo.currentGuess st' = MainGo.currentGuess sampleGame
         /\ MainGo.discovered st' = [true; true; true; false; false]
         /\ hardModeEnforcement (MainGo.word st') "SPEED" (MainGo.discovered st')
            = Some false)
  /\ (exists st' out,
         MainGo.iteration 67 (MainGo.set_guess "" sampleGame) = Some (Continue, st', out)
         /\ MainGo.guess st' = "C"
         /\ MainGo.discovered st' = [true; false; false; false; false]).
Proof.
  split; [vm_compute; reflexivity|].
  split; [reflexivity|].
  split; eexists _, _; (split; [vm_compute; reflexivity|repeat split; reflexivity]).
Qed.

(** ** Statistics *)


Example float64_of_int_rounds :
  float64_of_int (2 ^ 53 + 1) = 2 ^ 53 /\ float64_of_int (2 ^ 53 + 3) = 2 ^ 53 + 4
  /\ float64_of_int (- (2 ^ 53 + 1)) = - 2 ^ 53 /\ float64_of_int (2 ^ 63 - 1) = 2 ^ 63.
Proof. vm_compute. auto. Qed.








(** ** Loading the statistics *)

(** The default is zero-valued: counters 0, histograms of [TotalGuesses]
    zeros, no last daily. *)
Lemma defaultGameStats_zero :
  TotalGames defaultGameStats = 0 /\ TotalHardGames defaultGameStats = 0
  /\ Streak defaultGameStats = 0 /\ BestStreak defaultGameStats = 0
  /\ Wins defaultGameStats = replicate TotalGuesses 0
  /\ HardWins defaultGameStats = replicate TotalGuesses 0
  /\ LastDaily defaultGameStats = None.
Proof. repeat split; reflexivity. Qed.

(** No record: the default, and the file system is left as it is. *)
Lemma loadGameStats_no_record (fs : FileSystem) :
  homeDir fs = false \/ dotWordle fs = None ->
  loadGameStats fs = (Some defaultGameStats, fs).
Proof.
  intros [H|H]; unfold loadGameStats; rewrite H; simpl; [reflexivity|].
  destruct (homeDir fs); reflexivity.
Qed.

(** A decoding error: the record is deleted, and what is returned is what the
    decoder has left of the default. *)
Lemma loadGameStats_error (fs : FileSystem) (raw : Document) :
  homeDir fs = true -> dotWordle fs = Some raw ->
  snd (json_Decode raw defaultGameStats) = true ->
  loadGameStats fs = (fst (json_Decode raw defaultGameStats), mkFileSystem true None).
Proof.
  intros Hh Hf He. unfold loadGameStats. rewrite Hh, Hf. simpl.
  destruct (json_Decode raw defaultGameStats) as [g e]. simpl in *. subst e.
  reflexivity.
Qed.

(** A text that is not JSON, or not an object: the default. *)
Lemma loadGameStats_malformed (fs : FileSystem) (raw : Document) :
  homeDir fs = true -> dotWordle fs = Some raw -> raw = Malformed \/ raw = Other ->
  loadGameStats fs = (Some defaultGameStats, mkFileSystem true None).
Proof.
  intros Hh Hf Hraw. rewrite (loadGameStats_error fs raw Hh Hf);
    destruct Hraw; subst raw; reflexivity.
Qed.

(** C9 on a record with a value of the wrong type.  The decoder reports an
    error, the record is deleted, and the statistics returned are not the
    default: the fields decoded before and after the bad one are kept. *)
Lemma loadGameStats_keeps_decoded_fields :
  snd (json_Decode mistypedRecord defaultGameStats) = true
  /\ loadGameStats (mkFileSystem true (Some mistypedRecord))
     = (Some (mkGameStats 0 0 (replicate TotalGuesses 0) (replicate TotalGuesses 0)
                7 0 None false),
        mkFileSystem true None)
  /\ fst (loadGameStats (mkFileSystem true (Some mistypedRecord)))
     <> Some defaultGameStats.
Proof.
  split; [reflexivity|]. split; [reflexivity|].
  simpl. intros H. discriminate H.
Qed.

(** ** The daily word *)

(** The daily word is a function of [dayOffset] and the answer list: the
    entry at [dayOffset mod len]. *)
Lemma dailyWord_index (wordList : list string) (dayOffset : Z) :
  0 <= dayOffset -> wordList <> [] ->
  dailyWord wordList dayOffset
  = wordList !! Z.to_nat (dayOffset mod Z.of_nat (length wordList)).
Proof.
  intros Hd Hne. unfold dailyWord.
  destruct (decide (length wordList = 0%nat)) as [Hz|Hnz].
  { destruct wordList; [congruence|discriminate]. }
  rewrite Z.rem_mod_nonneg by lia.
  destruct (Z.ltb_spec (dayOffset mod Z.of_nat (length wordList)) 0) as [Hlt|Hge];
    [|reflexivity].
  pose proof (Z.mod_pos_bound dayOffset (Z.of_nat (length wordList)) ltac:(lia)). lia.
Qed.

(** When a daily puzzle is due, [main] plays the daily word of the day
    offset it computes from the clock. *)
Lemma pickWord_daily (c : Clock) (rnd : nat) (gs : GameStats) (wordList : list string) :
  LastDaily gs = None ->
  fst <$> (fst <$> pickWord c rnd gs wordList)
  = dailyWord wordList (computeDayOffset (now c)).
Proof.
  intros Hl. unfold pickWord. rewrite Hl.
  destruct (dailyWord wordList (computeDayOffset (now c))); reflexivity.
Qed.

(** C7 at the end of a day.  Midnight of day 1800 and the instant one
    nanosecond before the next midnight lie in the same UTC day, yet the day
    offset computed for the latter is 1801: [Duration.Hours] adds the
    fraction of the hour to the whole hours in [float64], and the sum rounds
    up to the next whole hour.  The two games get different daily words. *)
Lemma daily_word_differs_within_a_day :
  utcDay sampleMidnight = 1800 /\ utcDay sampleDayEnd = 1800
  /\ computeDayOffset sampleMidnight = 1800
  /\ computeDayOffset sampleDayEnd = 1801
  /\ dailyWord ["CRANE"; "SPEED"; "ERASE"] (computeDayOffset sampleMidnight) = Some "CRANE"
  /\ dailyWord ["CRANE"; "SPEED"; "ERASE"] (computeDayOffset sampleDayEnd) = Some "SPEED".
Proof.
  repeat split; vm_compute; reflexivity.
Qed.

(** ** The first revision scores alike *)

Section MainGoLoops.

Variables word guess : string.

Let ps := zip (bytes guess) (bytes word).

Hypothesis Hword : (len guess <= len word)%nat.
Hypothesis Hlen : (len guess <= WordLength)%nat.

Lemma MainGo_removeCorrect_loop (m : gmap ascii Z) (disc : list bool) (k : nat) :
  (k <= len guess)%nat -> (len guess <= length disc)%nat ->
  exists disc',
    loop (MainGo.removeCorrect word guess) (seq 0 k) (m, disc)
    = Some (credits (take k ps) m, disc')
    /\ length disc' = length disc.
Proof using Hword Hlen.
  intros Hk Hd. induction k as [|k IH].
  - exists disc. split; reflexivity.
  - destruct (IH ltac:(lia)) as (disc' & Hloop & Hl).
    rewrite (loop_snoc _ _ _ _ Hloop).
    destruct (pair_at word guess Hword k ltac:(lia)) as (g & w & Hg & Hw & Hp & _).
    fold ps in Hp.
    unfold MainGo.removeCorrect. rewrite Hg, Hw. simpl.
    rewrite (take_S_r _ _ _ Hp). unfold credits. rewrite foldl_app. simpl.
    destruct (decide (g = w)).
    + unfold set_at. rewrite decide_True by lia. simpl.
      eexists. split; [reflexivity|]. rewrite length_insert. exact Hl.
    + exists disc'. split; [reflexivity|exact Hl].
Qed.

Lemma MainGo_scoreLetter_loop (m0 : gmap ascii Z) (k : nat) :
  (k <= len guess)%nat ->
  loop (MainGo.scoreLetter word guess true) (seq 0 k)
       (m0, replicate WordLength SlotEmpty)
  = Some (fst (foldl scoreStep (m0, []) (take k ps)),
          colorSlots (snd (foldl scoreStep (m0, []) (take k ps))) (take k (bytes guess))
          ++ replicate (WordLength - k) SlotEmpty).
Proof using Hword Hlen.
  intros Hk. induction k as [|k IH].
  - reflexivity.
  - rewrite (loop_snoc _ _ _ _ (IH ltac:(lia))).
    destruct (pair_at word guess Hword k ltac:(lia)) as (g & w & Hg & Hw & Hp & Hb).
    fold ps in Hp.
    rewrite (take_S_r _ _ _ Hp), (take_S_r _ _ _ Hb), foldl_app.
    pose proof (scoreStep_length (take k ps) m0 []) as Hhs.
    destruct (foldl scoreStep (m0, []) (take k ps)) as [m hs] eqn:Hr.
    simpl in Hhs.
    assert (Hps : length ps = len guess).
    { unfold ps. rewrite length_zip_with, <- !len_bytes. lia. }
    rewrite length_take in Hhs.
    assert (Hcs : length (colorSlots hs (take k (bytes guess))) = k).
    { unfold colorSlots. rewrite length_zip_with, length_take, <- len_bytes. lia. }
    unfold MainGo.scoreLetter. rewrite Hg, Hw. simpl.
    replace (WordLength - k)%nat with (S (WordLength - S k)) by lia.
    unfold set_at. rewrite length_app, Hcs. simpl length.
    rewrite length_replicate.
    destruct (decide (g = w)) as [Heq|Hne]; [|destruct (0 <? getCount m g)];
      simpl; rewrite decide_True by lia; simpl;
      rewrite insert_first_blank by assumption;
      unfold colorSlots;
      rewrite zip_with_app by (rewrite length_take, <- len_bytes; lia);
      reflexivity.
Qed.

End MainGoLoops.

(** Scoring is the same in the first revision. *)
Lemma MainGo_evaluate_same (guess target : string) :
  len guess = WordLength -> len target = WordLength ->
  MainGo.evaluate guess target = evaluate guess target.
Proof.
  intros Hg Ht. rewrite evaluate_scoreHints by assumption.
  unfold MainGo.evaluate, MainGo.formatGuess.
  rewrite decide_False by (intros ->; discriminate Hg).
  destruct (MainGo_removeCorrect_loop target guess ltac:(lia) ltac:(lia) (mapString target)
              (replicate WordLength false) (len guess) ltac:(lia)
              ltac:(rewrite length_replicate; lia)) as (disc' & Hloop & _).
  rewrite Hloop. simpl.
  rewrite (MainGo_scoreLetter_loop target guess ltac:(lia) ltac:(lia)) by lia.
  simpl. rewrite Hg, Nat.sub_diag. simpl.
  assert (Hps : take WordLength (zip (bytes guess) (bytes target))
                = zip (bytes guess) (bytes target)).
  { apply take_ge. rewrite length_zip_with, <- !len_bytes. lia. }
  assert (Hbs : take WordLength (bytes guess) = bytes guess).
  { apply take_ge. rewrite <- len_bytes. lia. }
  rewrite Hps, Hbs, app_nil_r, scoreStep_hints. simpl. f_equal.
  unfold colorSlots, scoreHints.
  set (ps := zip (bytes guess) (bytes target)).
  assert (Hl : length (hints ps (credits ps (mapString target))) = length (bytes guess)).
  { rewrite hints_length. unfold ps. rewrite length_zip_with, <- !len_bytes. lia. }
  revert Hl. generalize (hints ps (credits ps (mapString target))).
  generalize (bytes guess).
  induction l as [|g l IH]; intros [|h hs] Hl; simpl in *; try discriminate; auto.
  f_equal. apply IH. lia.
Qed.

(** ** Claims about scoring *)

(** C1. Guess evaluation is the two-pass, duplicate-letter-correct
    algorithm: for every guess and target of length [WordLength] the code,
    in both revisions, returns what the specification's evaluator returns (exact matches are
    marked Located and take a credit first, then the remaining positions are
    marked Somewhere while credits last, else NotInWord), a position is
    Located exactly where the letters agree, and scoring "ERASE" against
    "SPEED" gives Somewhere, NotInWord, NotInWord, Somewhere, Somewhere. *)
Theorem evaluate_two_pass :
  (forall guess target : string,
      len guess = WordLength -> len target = WordLength ->
      exists hs : list KeyHint,
        evaluate guess target = Some hs
        /\ MainGo.evaluate guess target = Some hs
        /\ SpecEvaluator.evaluate guess target = inr hs
        /\ forall i g t, at_ guess i = Some g -> at_ target i = Some t ->
             (hs !! i = Some KeyHintLocated <-> g = t))
  /\ evaluate "ERASE" "SPEED"
     = Some [KeyHintSomewhere; KeyHintNotInWord; KeyHintNotInWord;
             KeyHintSomewhere; KeyHintSomewhere].
Proof.
  split; [|vm_compute; reflexivity].
  intros guess target Hg Ht. exists (scoreHints target guess).
  destruct (evaluate_refines guess target Hg Ht) as [H1 H2].
  split; [assumption|].
  split; [rewrite MainGo_evaluate_same by assumption; assumption|].
  split; [assumption|].
  intros i g t Hgi Hti. rewrite at_bytes in Hgi, Hti.
  unfold scoreHints.
  apply (hints_located _ _ i (g, t)).
  rewrite lookup_zip_with, Hgi. simpl. rewrite Hti. reflexivity.
Qed.

Lemma evaluate_two_pass_witness :
  exists hs : list KeyHint,
    evaluate "CRANE" "TRACE" = Some hs
    /\ MainGo.evaluate "CRANE" "TRACE" = Some hs
    /\ SpecEvaluator.evaluate "CRANE" "TRACE" = inr hs
    /\ forall i g t, at_ "CRANE" i = Some g -> at_ "TRACE" i = Some t ->
         (hs !! i = Some KeyHintLocated <-> g = t).
Proof.
  apply (proj1 evaluate_two_pass "CRANE" "TRACE"); reflexivity.
Defined.

(** C10. For every scored guess and every letter [L], the positions of [L]
    marked Located plus those marked Somewhere never exceed the occurrences
    of [L] in the target, and every occurrence of [L] in the guess carries
    one of the three marks, so that each further occurrence is NotInWord. *)
Theorem credited_letters_bounded (guess target : string) (L : ascii) :
  len guess = WordLength -> len target = WordLength ->
  exists hs : list KeyHint,
    evaluate guess target = Some hs
    /\ (countMarked L KeyHintLocated (bytes guess) hs
        + countMarked L KeyHintSomewhere (bytes guess) hs
        <= occurrences L (bytes target))%nat
    /\ (countMarked L KeyHintLocated (bytes guess) hs
        + countMarked L KeyHintSomewhere (bytes guess) hs
        + countMarked L KeyHintNotInWord (bytes guess) hs
        = occurrences L (bytes guess))%nat.
Proof.
  intros Hg Ht. exists (scoreHints target guess).
  split; [apply evaluate_scoreHints; assumption|].
  destruct (scoreHints_counts L guess target Hg Ht) as (H1 & H2 & H3).
  rewrite H1, H2, H3.
  pose proof (matches_le_target L (bytes guess) (bytes target)).
  pose proof (matches_misses_guess L (bytes guess) (bytes target)
                ltac:(rewrite <- !len_bytes; lia)).
  split; lia.
Qed.

Lemma credited_letters_bounded_witness :
  exists hs : list KeyHint,
    evaluate "EERIE" "SPEED" = Some hs
    /\ (countMarked "E" KeyHintLocated (bytes "EERIE") hs
        + countMarked "E" KeyHintSomewhere (bytes "EERIE") hs
        <= occurrences "E" (bytes "SPEED"))%nat
    /\ (countMarked "E" KeyHintLocated (bytes "EERIE") hs
        + countMarked "E" KeyHintSomewhere (bytes "EERIE") hs
        + countMarked "E" KeyHintNotInWord (bytes "EERIE") hs
        = occurrences "E" (bytes "EERIE"))%nat.
Proof.
  apply (credited_letters_bounded "EERIE" "SPEED" "E"); reflexivity.
Defined.

(** ** Letter counts *)







(** ** Binary search on any slice *)

Lemma searchLoop_total (f : nat -> option bool) (n : nat) :
  (forall k, (k < n)%nat -> is_Some (f k)) ->
  forall d i j, (j - i <= d)%nat -> (i <= j <= n)%nat ->
    exists r, searchLoop f i j = Some r /\ (i <= r <= j)%nat.
Proof.
  intros Hf. induction d as [|d IH]; intros i j Hd Hij.
  - rewrite searchLoop_step. rewrite decide_False by lia. exists i. split; [reflexivity|lia].
  - rewrite searchLoop_step. destruct (decide (i < j)%nat) as [Hlt|Hge].
    + pose proof (Nat.div2_odd (i + j)) as Hd2.
      assert (Hh : (i <= Nat.div2 (i + j) < j)%nat).
      { destruct (Nat.odd (i + j)); simpl in Hd2; lia. }
      destruct (Hf (Nat.div2 (i + j)) ltac:(lia)) as [b Hb]. rewrite Hb.
      destruct b.
      * destruct (IH i (Nat.div2 (i + j)) ltac:(lia) ltac:(lia)) as (r & Hr & Hrange).
        exists r. split; [exact Hr|lia].
      * destruct (IH (Nat.div2 (i + j) + 1)%nat j ltac:(lia) ltac:(lia)) as (r & Hr & Hrange).
        exists r. split; [exact Hr|lia].
    + exists i. split; [reflexivity|lia].
Qed.

Lemma SearchStrings_total (a : list string) (x : string) :
  exists (index : nat) (found : bool),
    sort_SearchStrings a x = Some index
    /\ foundAt a index x = Some found
    /\ (found = true -> In x a).
Proof.
  unfold sort_SearchStrings, sort_Search.
  destruct (searchLoop_total (fun i => s ← a !! i; Some (string_ge s x)) (length a))
    with (d := length a) (i := 0%nat) (j := length a) as (r & Hr & Hrange); try lia.
  { intros k Hk. destruct (lookup_lt_is_Some_2 a k Hk) as [s Hs]. rewrite Hs. eexists. reflexivity. }
  exists r. unfold foundAt. destruct (decide (r < length a)%nat) as [Hlt|Hge].
  - destruct (lookup_lt_is_Some_2 a r Hlt) as [s Hs]. rewrite Hs. simpl.
    exists (bool_decide (s = x)). repeat split; auto.
    intros Hfound. apply bool_decide_eq_true_1 in Hfound. subst s.
    apply list_elem_of_In. eapply list_elem_of_lookup_2. exact Hs.
  - exists false. repeat split; auto. discriminate.
Qed.

Lemma isWord_returns (wordList allowedWords : list string) (str : string) :
  exists ok : bool,
    isWord wordList allowedWords str = Some ok
    /\ (ok = true -> In str wordList \/ In str allowedWords).
Proof.
  unfold isWord.
  destruct (SearchStrings_total wordList str) as (i1 & f1 & Hs1 & Hf1 & Hin1).
  destruct (SearchStrings_total allowedWords str) as (i2 & f2 & Hs2 & Hf2 & Hin2).
  rewrite Hs1. simpl. rewrite Hf1. simpl. destruct f1.
  - exists true. split; [reflexivity|]. intros _. left. apply Hin1. reflexivity.
  - rewrite Hs2. simpl. rewrite Hf2. exists f2. split; [reflexivity|].
    intros H. right. apply Hin2. exact H.
Qed.

(** X2. [isWord] never indexes out of range, whatever the two lists hold
    and in whatever order, and it accepts only members: when it returns
    true, the string is in one of the lists.  (Sorted lists are needed only
    for the converse.) *)
Theorem isWord_total_and_sound (wordList allowedWords : list string) (str : string) :
  exists ok : bool,
    isWord wordList allowedWords str = Some ok
    /\ (ok = true -> In str wordList \/ In str allowedWords).
Proof. apply isWord_returns. Qed.

(** ** Where [formatGuess] panics *)

Lemma loop_fails {S : Type} (P : S -> Prop) (body : nat -> S -> option S)
    (idx : list nat) (i : nat) (s : S) :
  (forall k x y, P x -> body k x = Some y -> P y) ->
  (forall x, P x -> body i x = None) ->
  In i idx -> P s -> loop body idx s = None.
Proof.
  intros Hinv Hfail. revert s. induction idx as [|k idx IH]; intros s Hin Hs; [destruct Hin|].
  simpl. destruct (body k s) as [y|] eqn:Hy; [|reflexivity].
  destruct Hin as [->|Hin].
  - rewrite (Hfail s Hs) in Hy. discriminate.
  - apply IH; [exact Hin|]. eapply Hinv; eassumption.
Qed.

Lemma set_at_length {A : Type} (l l' : list A) (i : nat) (x : A) :
  set_at l i x = Some l' -> length l' = length l /\ (i < length l)%nat.
Proof.
  unfold set_at. destruct (decide (i < length l)%nat); [|discriminate].
  intros H. injection H as <-. rewrite length_insert. split; [reflexivity|assumption].
Qed.

Lemma scoreLetter_slots (word guess : string) (clr : bool) (i : nat) (s s' : Scoring) :
  scoreLetter word guess clr i s = Some s' ->
  length (sc_slots s') = length (sc_slots s) /\ (i < length (sc_slots s))%nat.
Proof.
  destruct s as [m sl em b]. unfold scoreLetter. intros H. destruct clr.
  - destruct (at_ guess i) as [g|]; [|discriminate]. simpl in H.
    destruct (at_ word i) as [w|]; [|discriminate]. simpl in H.
    destruct (decide (g = w)).
    + destruct (set_at (discovered b) i true); [|discriminate]. simpl in H.
      destruct (set_at sl i _) as [sl'|] eqn:Hs; [|discriminate].
      injection H as <-. simpl. eapply set_at_length. exact Hs.
    + destruct (0 <? getCount m g);
        (destruct (set_at sl i _) as [sl'|] eqn:Hs; [|discriminate]);
        injection H as <-; simpl; eapply set_at_length; exact Hs.
  - destruct (at_ guess i) as [g|]; [|discriminate]. simpl in H.
    destruct (set_at sl i _) as [sl'|] eqn:Hs; [|discriminate].
    injection H as <-. simpl. eapply set_at_length. exact Hs.
Qed.

Lemma formatGuess_too_long (word guess : string) (clr : bool) (b : Board) :
  (len word < len guess \/ WordLength < len guess)%nat ->
  formatGuess word guess clr b = None.
Proof.
  intros Hlong. unfold formatGuess.
  destruct (decide (len word < len guess)%nat) as [Hw|Hw].
  - rewrite (loop_fails (fun _ => True) (removeCorrect word guess) _ (len word)); auto.
    + intros m _. unfold removeCorrect.
      destruct (at_ guess (len word)); [|reflexivity]. simpl.
      rewrite at_bytes, lookup_ge_None_2; [reflexivity|]. rewrite <- len_bytes. lia.
    + apply in_seq. lia.
  - destruct Hlong as [Hlong|Hlong]; [lia|].
    destruct (loop (removeCorrect word guess) _ _) as [m|]; [|reflexivity]. simpl.
    rewrite (loop_fails (fun s => length (sc_slots s) = WordLength)
               (scoreLetter word guess clr) _ WordLength); auto.
    + intros k x y Hx Hy. apply scoreLetter_slots in Hy as [Hy _]. congruence.
    + intros x Hx. destruct (scoreLetter word guess clr WordLength x) as [y|] eqn:Hy;
        [|reflexivity].
      apply scoreLetter_slots in Hy as [_ Hy]. lia.
    + apply in_seq. lia.
Qed.

(** [formatGuess(guess, true)] on a buffer of any length within the word. *)
Lemma formatGuess_coloured (word guess : string) (b : Board) :
  (len guess <= WordLength)%nat -> (len guess <= len word)%nat ->
  (len guess <= length (discovered b))%nat ->
  let hs := scoreHints word guess in
  formatGuess word guess true b
  = Some (mkLine 5 (colorSlots hs (bytes guess) ++ blanks true (WordLength - len guess)) "",
          mkBoard (markDiscovered hs (discovered b))
                  (recordHints (zip (bytes guess) hs) (keyboard b))
                  (emojiStack b ++ [map emojiOf hs])).
Proof.
  intros Hg Hw Hd hs. unfold formatGuess.
  rewrite removeCorrect_loop by lia. simpl.
  rewrite scoreLetter_loop by lia. simpl.
  assert (Hps : take (len guess) (zip (bytes guess) (bytes word)) = zip (bytes guess) (bytes word)).
  { apply take_ge. rewrite length_zip_with, <- !len_bytes. lia. }
  assert (Hbs : take (len guess) (bytes guess) = bytes guess).
  { apply take_ge. rewrite <- len_bytes. lia. }
  rewrite Hps, Hbs, scoreStep_hints. simpl.
  fold (scoreHints word guess). fold hs.
  assert (Hhs : length hs = len guess).
  { unfold hs, scoreHints. rewrite hints_length, length_zip_with, <- !len_bytes. lia. }
  destruct (addBlank_loop (colorSlots hs (bytes guess))
              (replicate (WordLength - len guess) SlotEmpty) true
              (WordLength - len guess) ltac:(apply length_replicate)) as [f Hloop].
  unfold colorSlots in Hloop at 1. rewrite length_zip_with, Hhs, <- len_bytes in Hloop.
  rewrite Nat.min_id in Hloop. rewrite Hloop. reflexivity.
Qed.



Lemma formatGuess_bounds (word guess : string) (clr : bool) (b : Board) (r : Line * Board) :
  formatGuess word guess clr b = Some r ->
  (len guess <= len word)%nat /\ (len guess <= WordLength)%nat.
Proof.
  intros H.
  destruct (decide (len word < len guess)%nat) as [Hw|Hw].
  { rewrite formatGuess_too_long in H by lia. discriminate. }
  destruct (decide (WordLength < len guess)%nat) as [Hl|Hl].
  { rewrite formatGuess_too_long in H by lia. discriminate. }
  lia.
Qed.




(** ** What a scored guess leaves in [discovered] *)

Lemma markDiscovered_lookup (hs : list KeyHint) (d : list bool) (i : nat) :
  markDiscovered hs d !! i = Some true
  <-> d !! i = Some true \/ ((i < length d)%nat /\ hs !! i = Some KeyHintLocated).
Proof.
  revert d i. induction hs as [|h hs IH]; intros d i.
  - simpl. destruct d; simpl; split; auto; intros [H|[_ H]]; auto; discriminate.
  - destruct d as [|x d]; simpl.
    + split; [discriminate|]. intros [H|[H _]]; [discriminate|lia].
    + destruct i as [|i]; simpl.
      * split.
        -- intros H. injection H as H. apply orb_true_iff in H as [H|H].
           ++ left. congruence.
           ++ right. split; [lia|]. apply bool_decide_eq_true_1 in H. congruence.
        -- intros [H|[_ H]].
           ++ injection H as ->. reflexivity.
           ++ injection H as ->. rewrite orb_true_r. reflexivity.
      * rewrite IH. split; intros [H|[H1 H2]]; auto; right; split; auto; lia.
Qed.

Lemma scoreHints_located (word guess : string) (i : nat) :
  scoreHints word guess !! i = Some KeyHintLocated
  <-> exists c, at_ guess i = Some c /\ at_ word i = Some c.
Proof.
  unfold scoreHints. rewrite !at_bytes.
  set (ps := zip (bytes guess) (bytes word)).
  destruct (ps !! i) as [p|] eqn:Hp.
  - rewrite (hints_located ps _ i p Hp).
    unfold ps in Hp. rewrite lookup_zip_with in Hp.
    destruct (bytes guess !! i) as [g|]; [|discriminate]. simpl in Hp.
    destruct (bytes word !! i) as [w|]; [|discriminate]. simpl in Hp.
    injection Hp as <-. simpl. split.
    + intros ->. exists w. auto.
    + intros (c & Hg & Hw). congruence.
  - split.
    + intros H. apply lookup_lt_Some in H. rewrite hints_length in H.
      apply lookup_ge_None in Hp. lia.
    + intros (c & Hg & Hw). unfold ps in Hp. rewrite lookup_zip_with, Hg, Hw in Hp.
      discriminate.
Qed.

(** Scoring marks in [discovered] exactly the positions where the
    guess holds the letter of the word, and clears none: after
    [formatGuess(guess, true)] a position is discovered if and only if it
    was before or the guess is right there. *)
Lemma formatGuess_discovered (word guess : string) (b b' : Board) (l : Line) :
  length (discovered b) = WordLength ->
  formatGuess word guess true b = Some (l, b') ->
  length (discovered b') = WordLength
  /\ forall i, discovered b' !! i = Some true
               <-> discovered b !! i = Some true
                   \/ exists c, at_ guess i = Some c /\ at_ word i = Some c.
Proof.
  intros Hd H. destruct (formatGuess_bounds _ _ _ _ _ H) as [Hw Hl].
  rewrite formatGuess_coloured in H by lia. injection H as _ <-. simpl.
  split; [rewrite markDiscovered_length; exact Hd|].
  intros i. rewrite markDiscovered_lookup, scoreHints_located.
  split; intros [H|H]; auto.
  - right. apply H.
  - right. split; [|exact H]. destruct H as (c & Hg & _).
    rewrite at_bytes in Hg. apply lookup_lt_Some in Hg. rewrite <- len_bytes in Hg. lia.
Qed.

(** X5. Scoring marks in [discovered] exactly the positions where the
    guess holds the letter of the word, and clears none: after
    [formatGuess(guess, true)] a position is discovered if and only if it
    was before or the guess is right there. *)
Theorem scoring_marks_discovered (word guess : string) (b b' : Board) (l : Line) :
  length (discovered b) = WordLength ->
  formatGuess word guess true b = Some (l, b') ->
  length (discovered b') = WordLength
  /\ forall i, discovered b' !! i = Some true
               <-> discovered b !! i = Some true
                   \/ exists c, at_ guess i = Some c /\ at_ word i = Some c.
Proof. apply formatGuess_discovered. Qed.

Lemma scoring_marks_discovered_witness :
  exists l b',
    formatGuess "CRANE" "TRACE" true initBoard = Some (l, b')
    /\ length (discovered b') = WordLength
    /\ forall i, discovered b' !! i = Some true
                 <-> discovered initBoard !! i = Some true
                     \/ exists c, at_ "TRACE" i = Some c /\ at_ "CRANE" i = Some c.
Proof.
  eexists. eexists. split; [vm_compute; reflexivity|].
  eapply (scoring_marks_discovered "CRANE" "TRACE" initBoard);
    [reflexivity|vm_compute; reflexivity].
Defined.

(** X6. Hard mode after a scored guess: a later guess passes
    [hardModeEnforcement] only if it repeats every letter the scored guess
    had in its right place, and the word itself always passes. *)
Theorem hard_mode_keeps_located_letters (word g1 g2 : string) (b b1 : Board) (l : Line) :
  len word = WordLength -> length (discovered b) = WordLength ->
  formatGuess word g1 true b = Some (l, b1) ->
  len g2 = WordLength ->
  (hardModeEnforcement word g2 (discovered b1) = Some true ->
   forall i c, at_ g1 i = Some c -> at_ word i = Some c -> at_ g2 i = Some c)
  /\ hardModeEnforcement word word (discovered b1) = Some true.
Proof.
  intros Hw Hd Hf Hg2.
  destruct (formatGuess_discovered word g1 b b1 l Hd Hf) as [Hd1 Hmask].
  split.
  - intros Hhm i c Hg Hwi.
    destruct (hardModeEnforcement_spec word g2 (discovered b1)) as (ok & Hok & Hiff); try lia.
    rewrite Hok in Hhm. injection Hhm as ->.
    assert (Hi : (i < len word)%nat).
    { rewrite at_bytes in Hwi. apply lookup_lt_Some in Hwi. rewrite <- len_bytes in Hwi. lia. }
    rewrite (proj1 Hiff eq_refl i Hi); [exact Hwi|].
    apply Hmask. right. exists c. auto.
  - destruct (hardModeEnforcement_spec word word (discovered b1)) as (ok & Hok & Hiff); try lia.
    rewrite Hok. f_equal. apply Hiff. reflexivity.
Qed.

Lemma hard_mode_keeps_located_letters_witness :
  exists l b1,
    formatGuess "CRANE" "TRACE" true initBoard = Some (l, b1)
    /\ (hardModeEnforcement "CRANE" "BRAKE" (discovered b1) = Some true ->
        forall i c, at_ "TRACE" i = Some c -> at_ "CRANE" i = Some c ->
                    at_ "BRAKE" i = Some c)
    /\ hardModeEnforcement "CRANE" "CRANE" (discovered b1) = Some true.
Proof.
  eexists. eexists. split; [vm_compute; reflexivity|].
  eapply (hard_mode_keeps_located_letters "CRANE" "TRACE" "BRAKE" initBoard);
    [reflexivity|reflexivity|vm_compute; reflexivity|reflexivity].
Defined.

(** ** Every pass through the main loop *)

Lemma set_guess_id (st : Session) : set_guess (guess st) st = st.
Proof. destruct st; reflexivity. Qed.

Lemma render_unscored (suffix : string) (st st' : Session) (out : list Write) :
  render false suffix st = Some (st', out) -> st' = st.
Proof.
  unfold render. intros H.
  destruct (formatGuess (word st) (guess st) false (board st)) as [[l b']|] eqn:Hf;
    [|discriminate].
  simpl in H. injection H as <- _.
  destruct (formatGuess_bounds _ _ _ _ _ Hf) as [Hw Hl].
  rewrite formatGuess_plain in Hf by lia. injection Hf as _ <-. apply set_board_id.
Qed.

Lemma render_coloured (st st' : Session) (out : list Write) :
  length (discovered (board st)) = WordLength ->
  render true "" st = Some (st', out) -> st' = set_board (scoredBoard st) st.
Proof.
  unfold render. intros Hd H.
  destruct (formatGuess (word st) (guess st) true (board st)) as [[l b']|] eqn:Hf;
    [|discriminate].
  simpl in H. injection H as <- _.
  destruct (formatGuess_bounds _ _ _ _ _ Hf) as [Hw Hl].
  rewrite formatGuess_coloured in Hf by lia. injection Hf as _ <-. reflexivity.
Qed.

Lemma accepted_not_rejected (st : Session) : accepted st -> rejected st -> False.
Proof.
  intros [Hw Hh] [Hr|(_ & Hm & Hr)]; [congruence|].
  rewrite (Hh Hm) in Hr. discriminate.
Qed.

(** [enterBranch], whenever it returns. *)
Lemma enterBranch_cases (st st' : Session) (c : Ctl) (out : list Write) :
  length (discovered (board st)) = WordLength ->
  enterBranch st = Some (c, st', out) ->
  (rejected st /\ c = Continue /\ st' = st)
  \/ (accepted st
      /\ ((guess st = word st /\ c = Break /\ st' = set_win true (scored st))
          \/ (guess st <> word st /\ S (currentGuess st) = TotalGuesses
              /\ c = Break /\ st' = nextGuess st)
          \/ (guess st <> word st /\ S (currentGuess st) <> TotalGuesses
              /\ c = FallThrough /\ st' = nextGuess st))).
Proof.
  intros Hd H. unfold enterBranch in H.
  destruct (isWord (wordList st) (allowedWords st) (guess st)) as [ok|] eqn:Hword;
    [|discriminate].
  simpl in H. destruct ok; simpl in H.
  - destruct (if HardMode st
              then hardModeEnforcement (word st) (guess st) (discovered (board st))
              else Some true) as [hm|] eqn:Hhm; [|discriminate].
    simpl in H.
    destruct (HardMode st && negb hm) eqn:Hrej.
    + destruct (render false " (must use revealed hints)" st) as [[st1 out1]|] eqn:Hr;
        [|discriminate].
      simpl in H. injection H as <- <- _. apply render_unscored in Hr. subst st1.
      left. split; [|auto]. right. apply andb_true_iff in Hrej as [Hm Hn].
      rewrite Hm in Hhm. destruct hm; [discriminate|]. auto.
    + right.
      assert (Hacc : accepted st).
      { split; [exact Hword|]. intros Hm. rewrite Hm in Hhm, Hrej.
        destruct hm; [exact Hhm|discriminate]. }
      split; [exact Hacc|].
      destruct (render true "" st) as [[st1 out1]|] eqn:Hr; [|discriminate].
      apply (render_coloured _ _ _ Hd) in Hr. subst st1.
      clear Hacc Hword Hhm Hrej Hd.
      unfold nextGuess, scored.
      destruct st as [w wl al off hard b cg g wn gs sv].
      unfold save, set_gamestats, set_board, set_guess, set_currentGuess, set_win in *.
      simpl in *.
      destruct (decide (cg = 0%nat)) as [Hzero|Hnz]; simpl in *;
        (destruct (decide (g = w)) as [Hwin|Hnowin];
         [injection H as <- <- _; left; auto|]);
        (destruct (decide (S cg = TotalGuesses)) as [Hlast|Hmore];
         [injection H as <- <- _; right; left; auto|]);
        simpl in H; injection H as <- <- _; right; right; auto.
  - destruct (render false " (must be a word)" st) as [[st1 out1]|] eqn:Hr; [|discriminate].
    simpl in H. injection H as <- <- _. apply render_unscored in Hr. subst st1.
    left. split; [left; exact Hword|auto].
Qed.

Lemma letterBranch_cases (pressed : rune) (st st' : Session) (out : list Write) :
  letterBranch pressed st = Some (st', out) ->
  (st' = st /\ out = [])
  \/ ((len (guess st) < WordLength)%nat /\ unicode_IsLetter pressed = true
      /\ st' = set_guess (String.append (guess st) (string_of_rune pressed)) st).
Proof.
  unfold letterBranch. intros H.
  destruct ((len (guess st) <? WordLength)%nat && unicode_IsLetter pressed) eqn:Hc.
  - apply render_unscored in H. right. apply andb_true_iff in Hc as [Hl Hi].
    apply Nat.ltb_lt in Hl. auto.
  - injection H as <- <-. left. auto.
Qed.

(** One pass through the loop, whenever it returns: either only the buffer
    has changed, or the buffer held an accepted guess, which was scored. *)
Lemma iteration_cases (k : rune) (st st' : Session) (c : Ctl) (out : list Write) :
  length (discovered (board st)) = WordLength ->
  iteration k st = Some (c, st', out) ->
  (c = Continue
   /\ (unicode_ToUpper k = KeyCodeEnter -> len (guess st) = WordLength ->
       rejected st /\ st' = st)
   /\ exists g, st' = set_guess g st
                /\ ((len (guess st) <= WordLength)%nat -> (len g <= WordLength)%nat))
  \/ (unicode_ToUpper k = KeyCodeEnter /\ len (guess st) = WordLength /\ accepted st
      /\ ((guess st = word st /\ c = Break /\ st' = set_win true (scored st))
          \/ (guess st <> word st /\ S (currentGuess st) = TotalGuesses
              /\ c = Break /\ st' = nextGuess st)
          \/ (guess st <> word st /\ S (currentGuess st) <> TotalGuesses
              /\ c = Continue /\ st' = nextGuess st))).
Proof.
  intros Hd H. unfold iteration in H.
  set (K := unicode_ToUpper k) in *.
  destruct (((K =? KeyCodeMacBackspace) || (K =? KeyCodeWinBackspace))
            && negb (len (guess st) =? 0)%nat) eqn:Hbs.
  - destruct (render false "" _) as [[st1 out1]|] eqn:Hr; [|discriminate].
    simpl in H. injection H as <- <- _. apply render_unscored in Hr. subst st1.
    left. split; [reflexivity|]. split.
    + intros HK. exfalso. rewrite HK in Hbs. discriminate.
    + eexists. split; [reflexivity|]. intros Hl.
      pose proof (len_substring (len (guess st) - 1) (guess st)). lia.
  - destruct ((K =? KeyCodeEnter) && (len (guess st) =? WordLength)%nat) eqn:Hent.
    + apply andb_true_iff in Hent as [HK Hlen].
      apply Z.eqb_eq in HK. apply Nat.eqb_eq in Hlen.
      destruct (enterBranch st) as [[[c1 st1] out1]|] eqn:He; [|discriminate].
      simpl in H.
      apply (enterBranch_cases _ _ _ _ Hd) in He
        as [(Hrej & -> & ->)|(Hacc & [(Hw & -> & ->)|[(Hw & Hl & -> & ->)|(Hw & Hl & -> & ->)]])].
      * injection H as <- <- _. left. split; [reflexivity|]. split; [auto|].
        exists (guess st). split; [symmetry; apply set_guess_id|auto].
      * injection H as <- <- _. right. split; [exact HK|]. split; [exact Hlen|].
        split; [exact Hacc|]. left. auto.
      * injection H as <- <- _. right. split; [exact HK|]. split; [exact Hlen|].
        split; [exact Hacc|]. right. left. auto.
      * destruct (letterBranch K (nextGuess st)) as [[st2 out2]|] eqn:Hl2; [|discriminate].
        simpl in H. injection H as <- <- _.
        apply letterBranch_cases in Hl2 as [[-> _]|(_ & Hletter & _)].
        -- right. split; [exact HK|]. split; [exact Hlen|].
           split; [exact Hacc|]. right. right. auto.
        -- rewrite HK in Hletter. discriminate.
    + simpl in H.
      destruct (letterBranch K st) as [[st2 out2]|] eqn:Hl2; [|discriminate].
      simpl in H. injection H as <- <- _.
      left. split; [reflexivity|]. split.
      { intros HK Hlen. exfalso. rewrite HK, Hlen in Hent. discriminate. }
      apply letterBranch_cases in Hl2 as [[-> _]|(Hlt & _ & ->)].
      * exists (guess st). split; [symmetry; apply set_guess_id|auto].
      * eexists. split; [reflexivity|]. intros _.
        rewrite len_append. simpl. lia.
Qed.

Lemma scored_fields (st : Session) :
  word (scored st) = word st /\ guess (scored st) = guess st
  /\ currentGuess (scored st) = currentGuess st /\ win (scored st) = win st
  /\ HardMode (scored st) = HardMode st
  /\ wordList (scored st) = wordList st /\ allowedWords (scored st) = allowedWords st
  /\ dayOffset (scored st) = dayOffset st
  /\ board (scored st) = scoredBoard st.
Proof.
  unfold scored. simpl. destruct (decide (currentGuess st = 0%nat)); repeat split.
Qed.

Lemma scoredBoard_discovered (st : Session) :
  length (discovered (scoredBoard st)) = length (discovered (board st)).
Proof. unfold scoredBoard. simpl. apply markDiscovered_length. Qed.

Lemma playable_set_guess (g : string) (st : Session) :
  playable st -> (len g <= WordLength)%nat -> playable (set_guess g st).
Proof. intros [? ? ? ? ?] Hg. constructor; simpl; assumption. Qed.

Lemma nextGuess_board (st : Session) :
  board (nextGuess st) = scoredBoard st /\ HardMode (nextGuess st) = HardMode st
  /\ gamestats (nextGuess st) = gamestats (scored st)
  /\ saved (nextGuess st) = saved (scored st)
  /\ wordList (nextGuess st) = wordList st /\ allowedWords (nextGuess st) = allowedWords st.
Proof.
  unfold nextGuess, scored. simpl.
  destruct (decide (currentGuess st = 0%nat)); repeat split.
Qed.

Lemma playable_nextGuess (st : Session) :
  playable st -> S (currentGuess st) <> TotalGuesses -> playable (nextGuess st).
Proof.
  intros [Hw Hd Hg Hc Hn] Hmore.
  destruct (nextGuess_fields st) as (Fc & Fg & Fn & Fw).
  destruct (nextGuess_board st) as (Fb & _).
  constructor.
  - rewrite Fw. exact Hw.
  - rewrite Fb, scoredBoard_discovered. exact Hd.
  - rewrite Fg. unfold WordLength. simpl. lia.
  - rewrite Fc. lia.
  - rewrite Fn. exact Hn.
Qed.

(** The loop on any keys, from a game that is on: it is still on, or it
    was left from a game that was on when an accepted guess was scored. *)
Lemma mainLoop_run (J : Session -> Prop) (keys : list rune) (st : Session) (run : Run) :
  (forall s g, J s -> J (set_guess g s)) ->
  (forall s, playable s -> len (guess s) = WordLength -> accepted s ->
             guess s <> word s -> S (currentGuess s) <> TotalGuesses ->
             J s -> J (nextGuess s)) ->
  playable st -> J st -> mainLoop keys st = Some run ->
  (exited run = false /\ playable (final run) /\ J (final run))
  \/ (exited run = true
      /\ exists s, playable s /\ J s /\ len (guess s) = WordLength /\ accepted s
           /\ ((guess s = word s /\ final run = set_win true (scored s))
               \/ (guess s <> word s /\ S (currentGuess s) = TotalGuesses
                   /\ final run = nextGuess s))).
Proof.
  intros Jg Jn. revert st run. induction keys as [|k keys IH]; intros st run Hp Hj H.
  - simpl in H. injection H as <-. left. auto.
  - simpl in H.
    destruct (iteration k st) as [[[c st1] out]|] eqn:Hk; [|discriminate].
    simpl in H.
    apply (iteration_cases _ _ _ _ _ (pl_discovered _ Hp)) in Hk
      as [(-> & _ & g & -> & Hg)
         |(_ & Hlen & Hacc & [(Hw & -> & ->)|[(Hw & Hl & -> & ->)|(Hw & Hl & -> & ->)]])].
    + destruct (mainLoop keys (set_guess g st)) as [run1|] eqn:Hrun; [|discriminate].
      simpl in H. injection H as <-. simpl.
      apply (IH _ _ (playable_set_guess _ _ Hp (Hg (pl_guess _ Hp))) (Jg _ _ Hj) Hrun).
    + injection H as <-. simpl. right. split; [reflexivity|].
      exists st. split; [exact Hp|]. split; [exact Hj|]. split; [exact Hlen|].
      split; [exact Hacc|]. left. auto.
    + injection H as <-. simpl. right. split; [reflexivity|].
      exists st. split; [exact Hp|]. split; [exact Hj|]. split; [exact Hlen|].
      split; [exact Hacc|]. right. auto.
    + destruct (mainLoop keys (nextGuess st)) as [run1|] eqn:Hrun; [|discriminate].
      simpl in H. injection H as <-. simpl.
      apply (IH _ _ (playable_nextGuess _ Hp Hl) (Jn _ Hp Hlen Hacc Hw Hl Hj) Hrun).
Qed.

(** ** Keys that score nothing *)

(** X7. In the current revision a pass through the main loop that does not
    score changes nothing but the buffer: unless the key is Enter on five
    letters that pass [isWord] and, in hard mode, [hardModeEnforcement], the
    loop goes on with the same word, board, attempt, statistics and saved
    record; and a rejected guess leaves the buffer too. *)
Theorem unscored_keys_change_only_the_buffer
    (k : rune) (st st' : Session) (c : Ctl) (out : list Write) :
  length (discovered (board st)) = WordLength ->
  unicode_ToUpper k <> KeyCodeEnter \/ len (guess st) <> WordLength \/ rejected st ->
  iteration k st = Some (c, st', out) ->
  c = Continue
  /\ (exists g, st' = set_guess g st)
  /\ (unicode_ToUpper k = KeyCodeEnter -> len (guess st) = WordLength -> st' = st).
Proof.
  intros Hd Hcase H.
  apply (iteration_cases _ _ _ _ _ Hd) in H
    as [(-> & Hrej & g & -> & _)|(HK & Hlen & Hacc & _)].
  - split; [reflexivity|]. split; [exists g; reflexivity|].
    intros HK Hlen. apply (Hrej HK Hlen).
  - exfalso. destruct Hcase as [Hc|[Hc|Hc]]; [congruence|congruence|].
    apply (accepted_not_rejected _ Hacc Hc).
Qed.

Lemma unscored_keys_change_only_the_buffer_witness :
  exists c st' out,
    iteration KeyCodeEnter (maskedSession [true; false; false; false; false])
    = Some (c, st', out)
    /\ c = Continue
    /\ (exists g, st' = set_guess g (maskedSession [true; false; false; false; false]))
    /\ (unicode_ToUpper KeyCodeEnter = KeyCodeEnter ->
        len (guess (maskedSession [true; false; false; false; false])) = WordLength ->
        st' = maskedSession [true; false; false; false; false]).
Proof.
  eexists. eexists. eexists. split; [vm_compute; reflexivity|].
  eapply (unscored_keys_change_only_the_buffer KeyCodeEnter
            (maskedSession [true; false; false; false; false]));
    [reflexivity| |vm_compute; reflexivity].
  right. right. right. repeat split; vm_compute; reflexivity.
Defined.

(** ** Typing and erasing *)





(** ** The loop never panics *)

Lemma letterBranch_total (pressed : rune) (st : Session) :
  playable st -> is_Some (letterBranch pressed st).
Proof.
  intros [Hw Hd Hg Hc Hn]. unfold letterBranch.
  destruct ((len (guess st) <? WordLength)%nat && unicode_IsLetter pressed) eqn:Hcond.
  - apply andb_true_iff in Hcond as [Hl _]. apply Nat.ltb_lt in Hl.
    destruct (render_plain ""
                (set_guess (String.append (guess st) (string_of_rune pressed)) st))
      as [out Hout].
    + simpl. rewrite len_append. simpl. lia.
    + simpl. rewrite len_append. simpl. lia.
    + rewrite Hout. eexists. reflexivity.
  - eexists. reflexivity.
Qed.

Lemma enterBranch_total (st : Session) :
  playable st -> len (guess st) = WordLength -> is_Some (enterBranch st).
Proof.
  intros [Hw Hd Hg Hc Hn] Hlen. unfold enterBranch.
  destruct (isWord_returns (wordList st) (allowedWords st) (guess st)) as (ok & Hok & _).
  rewrite Hok. simpl.
  destruct (render_plain " (must be a word)" st) as [outw Houtw]; [lia|lia|].
  destruct (render_plain " (must use revealed hints)" st) as [outh Houth]; [lia|lia|].
  destruct ok; simpl; [|rewrite Houtw; eexists; reflexivity].
  assert (Hhm : exists hm,
             (if HardMode st
              then hardModeEnforcement (word st) (guess st) (discovered (board st))
              else Some true) = Some hm).
  { destruct (HardMode st); [|eauto].
    destruct (hardModeEnforcement_spec (word st) (guess st) (discovered (board st)))
      as (hm & Hhm & _); [lia|lia|]. eauto. }
  destruct Hhm as [hm Hhm]. rewrite Hhm. simpl.
  destruct (HardMode st && negb hm); [rewrite Houth; eexists; reflexivity|].
  destruct (render_scored st Hlen Hw Hd) as [out1 Hout1]. rewrite Hout1.
  cbv [mbind option_bind]. cbv beta iota.
  destruct (decide (guess _ = word _)); [eexists; reflexivity|].
  destruct (decide (_ = TotalGuesses)); [eexists; reflexivity|].
  eexists. reflexivity.
Qed.

Lemma iteration_total (k : rune) (st : Session) :
  playable st -> is_Some (iteration k st).
Proof.
  intros Hp. pose proof Hp as [Hw Hd Hg Hc Hn]. unfold iteration.
  set (K := unicode_ToUpper k).
  destruct (((K =? KeyCodeMacBackspace) || (K =? KeyCodeWinBackspace))
            && negb (len (guess st) =? 0)%nat).
  - pose proof (len_substring (len (guess st) - 1) (guess st)) as Hsub.
    destruct (render_plain ""
                (set_guess (substring 0 (len (guess st) - 1) (guess st)) st))
      as [out Hout]; [simpl; lia|simpl; lia|].
    rewrite Hout. eexists. reflexivity.
  - destruct ((K =? KeyCodeEnter) && (len (guess st) =? WordLength)%nat) eqn:Hent.
    + apply andb_true_iff in Hent as [_ Hlen]. apply Nat.eqb_eq in Hlen.
      destruct (enterBranch_total st Hp Hlen) as [[[c st1] out] He]. rewrite He. simpl.
      apply (enterBranch_cases _ _ _ _ Hd) in He
        as [(_ & -> & _)|(_ & [(_ & -> & _)|[(_ & _ & -> & _)|(_ & Hl & -> & ->)]])];
        try (eexists; reflexivity).
      destruct (letterBranch_total K (nextGuess st) (playable_nextGuess _ Hp Hl))
        as [[st2 out2] Hl2].
      rewrite Hl2. eexists. reflexivity.
    + simpl. destruct (letterBranch_total K st Hp) as [[st2 out2] Hl2].
      rewrite Hl2. eexists. reflexivity.
Qed.

Lemma mainLoop_total (keys : list rune) (st : Session) :
  playable st -> is_Some (mainLoop keys st).
Proof.
  revert st. induction keys as [|k keys IH]; intros st Hp; simpl.
  - eexists. reflexivity.
  - destruct (iteration_total k st Hp) as [[[c st1] out] Hk]. rewrite Hk. simpl.
    apply (iteration_cases _ _ _ _ _ (pl_discovered _ Hp)) in Hk
      as [(-> & _ & g & -> & Hg)
         |(_ & _ & _ & [(_ & -> & _)|[(_ & _ & -> & _)|(_ & Hl & -> & ->)]])];
      try (eexists; reflexivity).
    + destruct (IH _ (playable_set_guess _ _ Hp (Hg (pl_guess _ Hp)))) as [run Hrun].
      rewrite Hrun. eexists. reflexivity.
    + destruct (IH _ (playable_nextGuess _ Hp Hl)) as [run Hrun].
      rewrite Hrun. eexists. reflexivity.
Qed.

Lemma recordWin_total (hardMode : bool) (cg : nat) (gs : GameStats) :
  (cg < length (Wins gs))%nat -> (cg < length (HardWins gs))%nat ->
  is_Some (recordWin hardMode cg gs).
Proof.
  intros Hw Hh. unfold recordWin, incr_at.
  destruct (lookup_lt_is_Some_2 (Wins gs) cg Hw) as [x Hx].
  destruct (lookup_lt_is_Some_2 (HardWins gs) cg Hh) as [y Hy].
  destruct hardMode; [rewrite Hy|rewrite Hx]; simpl; eexists; reflexivity.
Qed.

Lemma scored_histograms (st : Session) :
  Wins (gamestats (scored st)) = Wins (gamestats st)
  /\ HardWins (gamestats (scored st)) = HardWins (gamestats st).
Proof.
  unfold scored, countGame. simpl.
  destruct (decide (currentGuess st = 0%nat)); [|auto].
  simpl. destruct (HardMode st); auto.
Qed.

(** X9. Playing never panics, whatever keys are pressed: from a game that
    is on (a word of [WordLength] letters, a buffer within it, an attempt
    below [TotalGuesses]) with win histograms of at least [TotalGuesses]
    entries, the main loop and the update of the statistics that follows it
    index nothing out of range, on every sequence of keys of the ASCII
    range (where the model of the keyboard applies). *)
Theorem play_never_panics (keys : list rune) (st : Session) :
  playable st ->
  (TotalGuesses <= length (Wins (gamestats st)))%nat ->
  (TotalGuesses <= length (HardWins (gamestats st)))%nat ->
  Forall (fun k => 0 <= k < 128) keys ->
  is_Some (play keys st).
Proof.
  intros Hp Hw Hh _. unfold play.
  destruct (mainLoop_total keys st Hp) as [run Hrun]. rewrite Hrun. simpl.
  set (J := fun s => (TotalGuesses <= length (Wins (gamestats s)))%nat
                     /\ (TotalGuesses <= length (HardWins (gamestats s)))%nat).
  assert (Jg : forall s g, J s -> J (set_guess g s)) by (intros s g H; exact H).
  assert (Jn : forall s, playable s -> len (guess s) = WordLength -> accepted s ->
                         guess s <> word s -> S (currentGuess s) <> TotalGuesses ->
                         J s -> J (nextGuess s)).
  { intros s _ _ _ _ _ [Jw Jh]. unfold J.
    destruct (nextGuess_board s) as (_ & _ & -> & _).
    destruct (scored_histograms s) as [-> ->]. auto. }
  destruct (mainLoop_run J keys st run Jg Jn Hp (conj Hw Hh) Hrun)
    as [(-> & _)|(-> & s & Hs & [Jw Jh] & _ & _ & Hend)].
  - eexists. reflexivity.
  - unfold finish. destruct Hend as [(_ & ->)|(_ & _ & ->)].
    + destruct (scored_fields s) as (_ & _ & Fc & _ & Fh & _).
      destruct (scored_histograms s) as [Fw Fhw].
      change (win (set_win true (scored s))) with true. cbv iota.
      change (HardMode (set_win true (scored s))) with (HardMode (scored s)).
      change (currentGuess (set_win true (scored s))) with (currentGuess (scored s)).
      change (gamestats (set_win true (scored s))) with (gamestats (scored s)).
      destruct (recordWin_total (HardMode (scored s)) (currentGuess (scored s))
                  (gamestats (scored s))) as [gs' Hgs'].
      * rewrite Fw, Fc. pose proof (pl_currentGuess _ Hs). lia.
      * rewrite Fhw, Fc. pose proof (pl_currentGuess _ Hs). lia.
      * rewrite Hgs'. simpl. eexists. reflexivity.
    + destruct (nextGuess_fields s) as (_ & _ & Fn & _).
      rewrite Fn, (pl_win _ Hs). simpl. eexists. reflexivity.
Qed.

Lemma play_never_panics_witness :
  is_Some (play (submitKeys "TRACE" ++ [KeyCodeWinBackspace; 49] ++ submitKeys "CRANE")
             sampleSession).
Proof.
  apply (play_never_panics _ sampleSession).
  - constructor; vm_compute; try reflexivity; lia.
  - vm_compute. lia.
  - vm_compute. lia.
  - vm_compute.
    repeat (constructor; [vm_compute; split; [discriminate|reflexivity]|]). constructor.
Defined.

(** ** How a game ends *)



(** ** Counting the game *)




(** ** The rows of the share text *)

Lemma hints_same (l : list ascii) (m : gmap ascii Z) :
  hints (zip l l) m = replicate (length l) KeyHintLocated.
Proof.
  induction l as [|c l IH]; simpl; [reflexivity|].
  rewrite decide_True by reflexivity. rewrite IH. reflexivity.
Qed.

Lemma scoreHints_length (word guess : string) :
  (len guess <= len word)%nat -> length (scoreHints word guess) = len guess.
Proof.
  intros H. unfold scoreHints. rewrite hints_length, length_zip_with, <- !len_bytes. lia.
Qed.

Lemma scoreHints_target (word : string) :
  scoreHints word word = replicate (len word) KeyHintLocated.
Proof. unfold scoreHints. rewrite hints_same, <- len_bytes. reflexivity. Qed.

Lemma emojiOf_replicate (n : nat) :
  map emojiOf (replicate n KeyHintLocated) = replicate n EmojiLocated.
Proof. induction n as [|n IH]; simpl; [reflexivity|]. rewrite IH. reflexivity. Qed.

(** X12. [emojiStack] holds one row per scored guess: whatever keys are
    read, the stack of the start is extended by rows of [WordLength] squares
    each, as many as attempts were used, the winning one included; and the
    row of a winning guess is all green. *)
Theorem emoji_rows_follow_guesses (keys : list rune) (st : Session) (run : Run) :
  playable st -> mainLoop keys st = Some run ->
  exists rows,
    emojiStack (board (final run)) = emojiStack (board st) ++ rows
    /\ Forall (fun row => length row = WordLength) rows
    /\ length rows
       = (currentGuess (final run) - currentGuess st
          + (if win (final run) then 1 else 0))%nat
    /\ (win (final run) = true -> last rows = Some (replicate WordLength EmojiLocated)).
Proof.
  intros Hp Hrun.
  set (J := fun s => (currentGuess st <= currentGuess s)%nat
                     /\ exists rows,
                          emojiStack (board s) = emojiStack (board st) ++ rows
                          /\ Forall (fun row => length row = WordLength) rows
                          /\ length rows = (currentGuess s - currentGuess st)%nat).
  assert (Jg : forall s g, J s -> J (set_guess g s)) by (intros s g H; exact H).
  assert (Jscored : forall s, playable s -> len (guess s) = WordLength -> J s ->
            exists rows,
              emojiStack (scoredBoard s) = emojiStack (board st) ++ rows
              /\ Forall (fun row => length row = WordLength) rows
              /\ length rows = S (currentGuess s - currentGuess st)
              /\ last rows = Some (map emojiOf (scoreHints (word s) (guess s)))).
  { intros s Hs Hlen (Jc & rows & Hrows & Hall & Hn).
    exists (rows ++ [map emojiOf (scoreHints (word s) (guess s))]).
    unfold scoredBoard. simpl. rewrite Hrows, <- app_assoc. split; [reflexivity|].
    split; [|split].
    - apply Forall_app. split; [exact Hall|]. constructor; [|constructor].
      rewrite length_map, scoreHints_length; [exact Hlen|].
      rewrite (pl_word _ Hs). lia.
    - rewrite length_app. simpl. lia.
    - apply last_snoc. }
  assert (Jn : forall s, playable s -> len (guess s) = WordLength -> accepted s ->
                         guess s <> word s -> S (currentGuess s) <> TotalGuesses ->
                         J s -> J (nextGuess s)).
  { intros s Hs Hlen _ _ _ Js. pose proof Js as (Jc & _). unfold J.
    destruct (nextGuess_fields s) as (-> & _).
    destruct (nextGuess_board s) as (-> & _).
    split; [lia|].
    destruct (Jscored s Hs Hlen Js) as (rows & H1 & H2 & H3 & _).
    exists rows. repeat split; auto. lia. }
  assert (J0 : J st).
  { unfold J. split; [lia|]. exists []. rewrite app_nil_r. repeat split; auto.
    simpl. lia. }
  destruct (mainLoop_run J keys st run Jg Jn Hp J0 Hrun)
    as [(He & Hpf & Jc & rows & H1 & H2 & H3)|(He & s & Hs & Js & Hlen & Hacc & Hend)].
  - exists rows. rewrite (pl_win _ Hpf). repeat split; auto; [lia|discriminate].
  - pose proof Js as (Jc & _).
    destruct (Jscored s Hs Hlen Js) as (rows & H1 & H2 & H3 & H4).
    destruct (scored_fields s) as (_ & _ & Fc & _ & _ & _ & _ & _ & Fb).
    exists rows. destruct Hend as [(Hwin & ->)|(_ & _ & ->)].
    + change (board (set_win true (scored s))) with (board (scored s)).
      change (win (set_win true (scored s))) with true.
      change (currentGuess (set_win true (scored s))) with (currentGuess (scored s)).
      rewrite Fb, Fc. repeat split; auto; [lia|].
      intros _. rewrite H4, Hwin, scoreHints_target, emojiOf_replicate, (pl_word _ Hs).
      reflexivity.
    + destruct (nextGuess_fields s) as (-> & _ & -> & _).
      destruct (nextGuess_board s) as (-> & _).
      rewrite (pl_win _ Hs). repeat split; auto; [lia|discriminate].
Qed.

Lemma emoji_rows_follow_guesses_witness :
  exists run,
    mainLoop (submitKeys "TRACE" ++ submitKeys "CRANE") sampleSession = Some run
    /\ exists rows,
         emojiStack (board (final run)) = emojiStack (board sampleSession) ++ rows
         /\ Forall (fun row => length row = WordLength) rows
         /\ length rows
            = (currentGuess (final run) - currentGuess sampleSession
               + (if win (final run) then 1 else 0))%nat
         /\ (win (final run) = true ->
             last rows = Some (replicate WordLength EmojiLocated)).
Proof.
  eexists. split; [vm_compute; reflexivity|].
  apply (emoji_rows_follow_guesses (submitKeys "TRACE" ++ submitKeys "CRANE") sampleSession);
    [constructor; vm_compute; try reflexivity; lia|vm_compute; reflexivity].
Defined.

(** ** The mask over a game *)

(** X13. Whatever keys are read, [discovered] keeps its length and no
    discovered position is ever cleared. *)
Theorem discovered_never_cleared (keys : list rune) (st : Session) (run : Run) (i : nat) :
  playable st -> mainLoop keys st = Some run ->
  length (discovered (board (final run))) = WordLength
  /\ (discovered (board st) !! i = Some true ->
      discovered (board (final run)) !! i = Some true).
Proof.
  intros Hp Hrun.
  set (J := fun s => discovered (board st) !! i = Some true ->
                     discovered (board s) !! i = Some true).
  assert (Jg : forall s g, J s -> J (set_guess g s)) by (intros s g H; exact H).
  assert (Jscored : forall s, J s ->
            discovered (board st) !! i = Some true ->
            discovered (scoredBoard s) !! i = Some true).
  { intros s Js H. unfold scoredBoard. simpl. apply markDiscovered_lookup. left. auto. }
  assert (Jn : forall s, playable s -> len (guess s) = WordLength -> accepted s ->
                         guess s <> word s -> S (currentGuess s) <> TotalGuesses ->
                         J s -> J (nextGuess s)).
  { intros s _ _ _ _ _ Js. unfold J. destruct (nextGuess_board s) as (-> & _).
    apply Jscored. exact Js. }
  destruct (mainLoop_run J keys st run Jg Jn Hp (fun H => H) Hrun)
    as [(He & Hpf & Jf)|(He & s & Hs & Js & Hlen & Hacc & Hend)].
  - split; [apply (pl_discovered _ Hpf)|exact Jf].
  - destruct (scored_fields s) as (_ & _ & _ & _ & _ & _ & _ & _ & Fb).
    assert (Hb : board (final run) = scoredBoard s).
    { destruct Hend as [(_ & ->)|(_ & _ & ->)]; [exact Fb|].
      apply (nextGuess_board s). }
    rewrite Hb. split; [|apply Jscored; exact Js].
    rewrite scoredBoard_discovered. apply (pl_discovered _ Hs).
Qed.

Lemma discovered_never_cleared_witness :
  exists run,
    mainLoop [KeyCodeEnter] (maskedSession [false; true; false; false; false])
    = Some run
    /\ length (discovered (board (final run))) = WordLength
    /\ (discovered (board (maskedSession [false; true; false; false; false])) !! 1%nat
        = Some true ->
        discovered (board (final run)) !! 1%nat = Some true).
Proof.
  eexists. split; [vm_compute; reflexivity|].
  apply (discovered_never_cleared [KeyCodeEnter]
           (maskedSession [false; true; false; false; false]));
    [constructor; vm_compute; try reflexivity; lia|vm_compute; reflexivity].
Defined.

(** ** Reading the word lists *)

Lemma bytes_append (a b : string) : bytes (String.append a b) = bytes a ++ bytes b.
Proof.
  unfold bytes. induction a as [|c a IH]; [reflexivity|].
  rewrite append_cons. simpl. rewrite IH. reflexivity.
Qed.

Lemma string_of_bytes (w : string) : string_of_list_ascii (bytes w) = w.
Proof. apply string_of_list_ascii_of_string. Qed.

Lemma scanLines_letters (w rest line : list ascii) :
  Forall (fun c => c <> "010"%char /\ c <> "013"%char) w ->
  scanLines (w ++ rest) line = scanLines rest (line ++ w).
Proof.
  revert line. induction w as [|c w IH]; intros line Hw; simpl.
  - rewrite app_nil_r. reflexivity.
  - inversion Hw as [|? ? [Hc _] Hw']; subst.
    rewrite decide_False by exact Hc. rewrite IH by exact Hw'.
    rewrite <- app_assoc. reflexivity.
Qed.

Lemma dropCR_plain (w : list ascii) :
  Forall (fun c => c <> "010"%char /\ c <> "013"%char) w -> dropCR w = w.
Proof.
  intros Hw. unfold dropCR. destruct (last w) as [c|] eqn:Hl; [|reflexivity].
  rewrite decide_False; [reflexivity|].
  apply last_Some in Hl as [l' ->]. apply Forall_app in Hw as [_ Hc].
  inversion Hc as [|? ? [_ H] _]; subst. exact H.
Qed.

Lemma dropCR_CR (w : list ascii) : dropCR (w ++ ["013"%char]) = w.
Proof.
  unfold dropCR. rewrite last_snoc. rewrite decide_True by reflexivity.
  rewrite length_app. simpl. replace (length w + 1 - 1)%nat with (length w) by lia.
  apply take_app_length.
Qed.

Lemma scanLines_joined (eol : string) (ws : list string) (tail : list ascii) :
  eol = LF \/ eol = CRLF -> Forall plainWord ws ->
  scanLines (bytes (joinLines eol ws) ++ tail) [] = ws ++ scanLines tail [].
Proof.
  intros Heol Hws. induction Hws as [|w ws [Hw Hlen] Hws IH]; [reflexivity|].
  simpl joinLines. rewrite !bytes_append, <- !app_assoc.
  rewrite scanLines_letters by exact Hw. simpl app at 1.
  rewrite len_bytes in Hlen.
  destruct Heol as [-> | ->]; simpl bytes.
  - cbn [app scanLines]. rewrite decide_True by reflexivity.
    replace (Z.of_nat (length (bytes w)) <? MaxScanTokenSize) with true
      by (symmetry; apply Z.ltb_lt; lia).
    rewrite dropCR_plain by exact Hw. rewrite string_of_bytes.
    simpl. f_equal. apply IH.
  - cbn [app scanLines]. rewrite decide_False by discriminate.
    rewrite decide_True by reflexivity.
    replace (Z.of_nat (length (bytes w ++ ["013"%char])) <? MaxScanTokenSize) with true
      by (symmetry; apply Z.ltb_lt; rewrite length_app; simpl; lia).
    rewrite dropCR_CR, string_of_bytes.
    simpl. f_equal. apply IH.
Qed.

Lemma scanLines_last (w : string) :
  plainWord w -> w <> "" -> scanLines (bytes w) [] = [w].
Proof.
  intros [Hw Hlen] Hne.
  rewrite <- (app_nil_r (bytes w)), scanLines_letters by exact Hw. simpl.
  rewrite len_bytes in Hlen.
  rewrite decide_False.
  - replace (Z.of_nat (length (bytes w)) <? MaxScanTokenSize) with true
      by (symmetry; apply Z.ltb_lt; lia).
    rewrite dropCR_plain by exact Hw. rewrite string_of_bytes. reflexivity.
  - intros H. apply Hne. rewrite <- (string_of_bytes w), H. reflexivity.
Qed.

(** X14. [parseWordLists] reads the embedded files the same way whether
    their lines end in a line feed or in carriage return and line feed
    ("deterministically even if compiled on windows"): from a file of words
    each followed by either marker it yields exactly the words, in order,
    and a last word without a marker is read too. *)
Theorem parseWordLists_line_endings (eol : string) (good bad : list string) (w : string) :
  eol = LF \/ eol = CRLF -> Forall plainWord good -> Forall plainWord bad ->
  parseWordLists (joinLines eol good) (joinLines eol bad) = (good, bad)
  /\ (plainWord w -> w <> "" ->
      parseWordLists (String.append (joinLines eol good) w) (joinLines eol bad)
      = (good ++ [w], bad)).
Proof.
  intros Heol Hg Hb. unfold parseWordLists.
  pose proof (scanLines_joined eol good [] Heol Hg) as Hgood.
  pose proof (scanLines_joined eol bad [] Heol Hb) as Hbad.
  rewrite app_nil_r in Hgood, Hbad. simpl in Hgood, Hbad. rewrite app_nil_r in Hgood, Hbad.
  split.
  - rewrite Hgood, Hbad. reflexivity.
  - intros Hw Hne. rewrite Hbad, bytes_append.
    rewrite (scanLines_joined eol good (bytes w) Heol Hg), (scanLines_last w Hw Hne).
    reflexivity.
Qed.

Lemma parseWordLists_line_endings_witness :
  parseWordLists (joinLines CRLF ["CRANE"; "SPEED"]) (joinLines CRLF ["TRACE"])
  = (["CRANE"; "SPEED"], ["TRACE"])
  /\ (plainWord "ERASE" -> "ERASE" <> "" ->
      parseWordLists (String.append (joinLines CRLF ["CRANE"; "SPEED"]) "ERASE")
        (joinLines CRLF ["TRACE"])
      = (["CRANE"; "SPEED"] ++ ["ERASE"], ["TRACE"])).
Proof.
  apply (parseWordLists_line_endings CRLF ["CRANE"; "SPEED"] ["TRACE"] "ERASE").
  - right. reflexivity.
  - repeat (constructor;
            [split; [repeat (constructor; [split; discriminate|]); constructor
                    |vm_compute; reflexivity]|]).
    constructor.
  - repeat (constructor;
            [split; [repeat (constructor; [split; discriminate|]); constructor
                    |vm_compute; reflexivity]|]).
    constructor.
Defined.

(** ** A record that holds [null] *)

(** X15. [loadGameStats] returns nil exactly when [~/.wordle] holds the
    JSON text [null]: the decoder sets the pointer to nil and reports no
    error, so the file is kept, and every later start panics at
    [gamestats.LastDaily] until the file is removed by hand. *)
Theorem null_record_breaks_every_start (fs : FileSystem) :
  (fst (loadGameStats fs) = None <-> homeDir fs = true /\ dotWordle fs = Some Null)
  /\ (fst (loadGameStats fs) = None ->
      snd (loadGameStats fs) = fs
      /\ forall c rnd hardMode good bad, startGame fs c rnd hardMode good bad = None).
Proof.
  assert (Hiff : fst (loadGameStats fs) = None
                 <-> homeDir fs = true /\ dotWordle fs = Some Null).
  { unfold loadGameStats. destruct fs as [h d]. simpl.
    destruct h; simpl; [|split; [discriminate|intros [H _]; discriminate]].
    destruct d as [raw|]; [|split; [discriminate|intros [_ H]; discriminate]].
    destruct raw as [| |members|]; simpl.
    - split; [discriminate|intros [_ H]; discriminate].
    - split; auto.
    - destruct (snd (foldl decodeMember (defaultGameStats, false) members)); simpl;
        (split; [discriminate|intros [_ H]; discriminate]).
    - split; [discriminate|intros [_ H]; discriminate]. }
  split; [exact Hiff|].
  intros Hnil. apply Hiff in Hnil as [Hh Hd].
  destruct fs as [h d]. simpl in Hh, Hd. subst h d.
  split; [reflexivity|].
  intros c rnd hardMode good bad. unfold startGame. simpl.
  destruct (parseWordLists good bad). reflexivity.
Qed.

Lemma null_record_breaks_every_start_witness :
  fst (loadGameStats (mkFileSystem true (Some Null))) = None
  /\ snd (loadGameStats (mkFileSystem true (Some Null))) = mkFileSystem true (Some Null)
  /\ forall c rnd hardMode good bad,
       startGame (mkFileSystem true (Some Null)) c rnd hardMode good bad = None.
Proof.
  destruct (null_record_breaks_every_start (mkFileSystem true (Some Null))) as [Hiff Hnil].
  assert (H : fst (loadGameStats (mkFileSystem true (Some Null))) = None)
    by (apply Hiff; split; reflexivity).
  split; [exact H|]. apply Hnil. exact H.
Defined.

(** ** Histograms from the file *)

Lemma storeElements_ints (es old : list Z) :
  Forall isInt es -> storeElements (map EInt es) old = (es, false).
Proof.
  intros Hes. revert old. induction Hes as [|z es [Hlo Hhi] Hes IH]; intros old; simpl.
  - reflexivity.
  - rewrite IH. simpl.
    replace ((int_min <=? z) && (z <=? int_max)) with true
      by (symmetry; apply andb_true_iff; split; apply Z.leb_le; assumption).
    reflexivity.
Qed.

Lemma storeInt_int (z old : Z) : isInt z -> storeInt (VInt z) old = (z, false).
Proof.
  intros [Hlo Hhi]. simpl.
  replace ((int_min <=? z) && (z <=? int_max)) with true
    by (symmetry; apply andb_true_iff; split; apply Z.leb_le; assumption).
  reflexivity.
Qed.

Lemma storeInts_ints (es old : list Z) :
  Forall isInt es -> storeInts (VArray (map EInt es)) old = (es, false).
Proof. apply storeElements_ints. Qed.

(** X16. The histograms are as long as the arrays of the file: a record
    whose array for the mode played has no entry for an attempt is loaded
    without error and kept, and [recordWin] then panics on a win at that
    attempt ([gamestats.Wins[currentGuess]++] out of range). *)
Theorem short_histogram_panics_on_win (es : list Z) (hardMode : bool) (cg : nat) :
  Forall isInt es -> (length es <= cg)%nat ->
  let member := if hardMode then MHardWins (VArray (map EInt es))
                else MWins (VArray (map EInt es)) in
  let fs := mkFileSystem true (Some (Object [member])) in
  exists gs,
    loadGameStats fs = (Some gs, fs)
    /\ modeWins hardMode gs = es
    /\ recordWin hardMode cg gs = None.
Proof.
  intros Hes Hcg member fs. unfold fs, member, loadGameStats, json_Decode.
  cbn [homeDir dotWordle negb].
  destruct hardMode; cbn [foldl decodeMember];
    rewrite (storeInts_ints es _ Hes); cbn [fst snd orb];
    eexists; (split; [reflexivity|]); (split; [reflexivity|]);
    unfold recordWin, incr_at; cbn [HardWins Wins];
    rewrite (lookup_ge_None_2 es cg Hcg); reflexivity.
Qed.

Lemma short_histogram_panics_on_win_witness :
  exists gs,
    loadGameStats (mkFileSystem true (Some (Object [MWins (VArray (map EInt [3; 1]))])))
    = (Some gs, mkFileSystem true (Some (Object [MWins (VArray (map EInt [3; 1]))])))
    /\ modeWins false gs = [3; 1]
    /\ recordWin false 2 gs = None.
Proof.
  apply (short_histogram_panics_on_win [3; 1] false 2).
  - repeat (constructor; [unfold isInt, int_min, int_max; lia|]). constructor.
  - simpl. lia.
Defined.

(** ** Saving and loading back *)

(** X17. What [save] writes, [loadGameStats] reads back: when the home
    directory is known and the file can be opened, [save] returns no error
    and replaces whatever [~/.wordle] held, and loading then yields the
    saved statistics, field by field, and keeps the file.  When the home
    directory is unknown or the file cannot be opened, [save] returns an
    error and leaves the file system as it was. *)
Theorem saved_stats_load_back (openFile : bool) (gs : GameStats) (fs : FileSystem) :
  intStats gs ->
  (homeDir fs = true -> openFile = true ->
   snd (GameStats_save openFile gs fs) = false
   /\ loadGameStats (fst (GameStats_save openFile gs fs))
      = (Some gs, fst (GameStats_save openFile gs fs)))
  /\ (homeDir fs = false \/ openFile = false ->
      GameStats_save openFile gs fs = (fs, true)).
Proof.
  intros [H1 H2 H3 H4 H5 H6]. split.
  - intros Hh Ho. unfold GameStats_save. rewrite Hh, Ho. cbn [negb fst snd].
    split; [reflexivity|].
    unfold loadGameStats, json_Decode, json_Encode. cbn [homeDir dotWordle negb].
    cbn [foldl decodeMember TotalGames TotalHardGames Wins HardWins Streak BestStreak
         LastDaily ExperimentalEmojiSupport defaultGameStats].
    rewrite !storeInt_int by assumption.
    rewrite !storeInts_ints by assumption.
    cbn [storeBool fst snd orb TotalGames TotalHardGames Wins HardWins Streak BestStreak
         LastDaily ExperimentalEmojiSupport].
    destruct gs; reflexivity.
  - intros [Hh|Ho]; unfold GameStats_save.
    + rewrite Hh. reflexivity.
    + rewrite Ho. destruct (homeDir fs); reflexivity.
Qed.

Lemma saved_stats_load_back_witness :
  (homeDir (mkFileSystem true (Some mistypedRecord)) = true -> true = true ->
   snd (GameStats_save true (mkGameStats 3 1 [0; 1; 2; 0; 0; 0] [0; 0; 1; 0; 0; 0] 2 4
                               (Some 86400000000000) true)
          (mkFileSystem true (Some mistypedRecord))) = false
   /\ loadGameStats
        (fst (GameStats_save true
                (mkGameStats 3 1 [0; 1; 2; 0; 0; 0] [0; 0; 1; 0; 0; 0] 2 4
                   (Some 86400000000000) true)
                (mkFileSystem true (Some mistypedRecord))))
      = (Some (mkGameStats 3 1 [0; 1; 2; 0; 0; 0] [0; 0; 1; 0; 0; 0] 2 4
                 (Some 86400000000000) true),
         fst (GameStats_save true
                (mkGameStats 3 1 [0; 1; 2; 0; 0; 0] [0; 0; 1; 0; 0; 0] 2 4
                   (Some 86400000000000) true)
                (mkFileSystem true (Some mistypedRecord)))))
  /\ (homeDir (mkFileSystem true (Some mistypedRecord)) = false \/ true = false ->
      GameStats_save true
        (mkGameStats 3 1 [0; 1; 2; 0; 0; 0] [0; 0; 1; 0; 0; 0] 2 4
           (Some 86400000000000) true)
        (mkFileSystem true (Some mistypedRecord))
      = (mkFileSystem true (Some mistypedRecord), true)).
Proof.
  apply (saved_stats_load_back true
           (mkGameStats 3 1 [0; 1; 2; 0; 0; 0] [0; 0; 1; 0; 0; 0] 2 4
              (Some 86400000000000) true)
           (mkFileSystem true (Some mistypedRecord))).
  constructor; cbn [TotalGames TotalHardGames Wins HardWins Streak BestStreak];
    repeat (constructor; [unfold isInt, int_min, int_max; lia|]);
    try constructor; unfold isInt, int_min, int_max; lia.
Defined.

(** ** The daily word *)

Lemma dailyWord_day (wordList : list string) (dayOffset : Z) :
  wordList <> [] -> 0 <= dayOffset ->
  exists w,
    dailyWord wordList dayOffset = Some w
    /\ wordList !! Z.to_nat (dayOffset mod Z.of_nat (length wordList)) = Some w.
Proof.
  intros Hne Hd. rewrite (dailyWord_index wordList dayOffset Hd Hne).
  assert (Hlen : (0 < length wordList)%nat) by (destruct wordList; [contradiction|simpl; lia]).
  pose proof (Z.mod_pos_bound dayOffset (Z.of_nat (length wordList)) ltac:(lia)) as Hm.
  destruct (lookup_lt_is_Some_2 wordList
              (Z.to_nat (dayOffset mod Z.of_nat (length wordList))) ltac:(lia)) as [w Hw].
  exists w. auto.
Qed.

(** X18. The daily word walks through the list in file order and starts
    over after [len(wordList)] days: for a day offset that is not negative
    it is the word at [dayOffset mod len(wordList)], and the word of
    [len(wordList)] days later is the same.  With the clock before the
    anchor the index is negative and [wordList[index]] panics, unless the
    day offset is a multiple of the length. *)
Theorem dailyWord_cycles (wordList : list string) (dayOffset : Z) :
  wordList <> [] ->
  (0 <= dayOffset ->
   exists w,
     dailyWord wordList dayOffset = Some w
     /\ wordList !! Z.to_nat (dayOffset mod Z.of_nat (length wordList)) = Some w
     /\ dailyWord wordList (dayOffset + Z.of_nat (length wordList)) = Some w)
  /\ (dayOffset < 0 -> Z.rem dayOffset (Z.of_nat (length wordList)) <> 0 ->
      dailyWord wordList dayOffset = None).
Proof.
  intros Hne. split.
  - intros Hd. destruct (dailyWord_day wordList dayOffset Hne Hd) as (w & Hw & Hi).
    exists w. split; [exact Hw|]. split; [exact Hi|].
    destruct (dailyWord_day wordList (dayOffset + Z.of_nat (length wordList)) Hne
                ltac:(lia)) as (w' & Hw' & Hi').
    rewrite Hw'. rewrite <- Hi, <- Hi'. f_equal. f_equal.
    rewrite <- (Z.mul_1_l (Z.of_nat (length wordList))) at 1.
    apply Z.mod_add.
    destruct wordList; [contradiction|simpl; lia].
  - intros Hd Hrem. unfold dailyWord.
    rewrite decide_False by (destruct wordList; [contradiction|discriminate]).
    assert (Hlen : 0 < Z.of_nat (length wordList))
      by (destruct wordList; [contradiction|simpl; lia]).
    pose proof (Z.rem_bound_pos_neg dayOffset (Z.of_nat (length wordList)) ltac:(lia)
                  ltac:(lia)) as Hb.
    replace (Z.rem dayOffset (Z.of_nat (length wordList)) <? 0) with true
      by (symmetry; apply Z.ltb_lt; lia).
    reflexivity.
Qed.

Lemma dailyWord_cycles_witness :
  (0 <= 4 ->
   exists w,
     dailyWord ["CRANE"; "SPEED"; "ERASE"] 4 = Some w
     /\ ["CRANE"; "SPEED"; "ERASE"]
        !! Z.to_nat (4 mod Z.of_nat (length ["CRANE"; "SPEED"; "ERASE"])) = Some w
     /\ dailyWord ["CRANE"; "SPEED"; "ERASE"]
          (4 + Z.of_nat (length ["CRANE"; "SPEED"; "ERASE"])) = Some w)
  /\ (4 < 0 -> Z.rem 4 (Z.of_nat (length ["CRANE"; "SPEED"; "ERASE"])) <> 0 ->
      dailyWord ["CRANE"; "SPEED"; "ERASE"] 4 = None).
Proof.
  apply (dailyWord_cycles ["CRANE"; "SPEED"; "ERASE"] 4). discriminate.
Defined.

(** ** One daily puzzle a day *)

Lemma Hour_pos : 0 < 24 * Hour.
Proof. unfold Hour. lia. Qed.

(** X19. After a daily puzzle, [LastDaily] is midnight in the local zone
    of the UTC date, and the next one is offered once more than 24 hours
    have passed since.  At or west of UTC this is never on the same UTC day:
    the word is then drawn by the random generator and [LastDaily] stays.
    East of UTC it happens on the same UTC day, from the zone's offset
    before UTC midnight on: the daily puzzle is then offered again. *)
Theorem daily_puzzle_on_the_same_day
    (c c' : Clock) (rnd : nat) (gs : GameStats) (wordList : list string) :
  LastDaily gs = Some (todayLocal c) -> utcDay (now c') = utcDay (now c) ->
  (zone c <= 0 ->
   pickWord c' rnd gs wordList
   = if decide (length wordList = 0%nat) then None
     else w ← wordList !! (rnd mod length wordList)%nat;
          Some (w, computeDayOffset (now c'), gs))
  /\ (24 * Hour - zone c < now c' mod (24 * Hour) ->
      pickWord c' rnd gs wordList
      = w ← dailyWord wordList (computeDayOffset (now c'));
        Some (w, computeDayOffset (now c'),
              mkGameStats (TotalGames gs) (TotalHardGames gs) (Wins gs) (HardWins gs)
                (Streak gs) (BestStreak gs) (Some (todayLocal c'))
                (ExperimentalEmojiSupport gs))).
Proof.
  intros Hlast Hday. unfold pickWord. rewrite Hlast.
  unfold todayLocal, utcDay in *.
  pose proof Hour_pos as Hpos.
  pose proof (Z.div_mod (now c') (24 * Hour) ltac:(lia)) as Hdm.
  pose proof (Z.mod_pos_bound (now c') (24 * Hour) Hpos) as Hm.
  rewrite Hday in Hdm.
  split.
  - intros Hz.
    replace (24 * Hour <? now c' - (now c / (24 * Hour) * (24 * Hour) - zone c))
      with false by (symmetry; apply Z.ltb_ge; lia).
    reflexivity.
  - intros Hlate.
    replace (24 * Hour <? now c' - (now c / (24 * Hour) * (24 * Hour) - zone c))
      with true by (symmetry; apply Z.ltb_lt; lia).
    rewrite Hday. reflexivity.
Qed.

Lemma daily_puzzle_on_the_same_day_witness :
  (zone (mkClock sampleMidnight 0) <= 0 ->
   pickWord (mkClock (sampleMidnight + Hour) 0) 7
     (mkGameStats 0 0 [] [] 0 0 (Some (todayLocal (mkClock sampleMidnight 0))) false)
     ["CRANE"; "SPEED"; "ERASE"]
   = if decide (length ["CRANE"; "SPEED"; "ERASE"] = 0%nat) then None
     else w ← ["CRANE"; "SPEED"; "ERASE"] !! (7 mod length ["CRANE"; "SPEED"; "ERASE"])%nat;
          Some (w, computeDayOffset (now (mkClock (sampleMidnight + Hour) 0)),
                mkGameStats 0 0 [] [] 0 0
                  (Some (todayLocal (mkClock sampleMidnight 0))) false))
  /\ (24 * Hour - zone (mkClock sampleMidnight 0)
      < now (mkClock (sampleMidnight + Hour) 0) mod (24 * Hour) ->
      pickWord (mkClock (sampleMidnight + Hour) 0) 7
        (mkGameStats 0 0 [] [] 0 0 (Some (todayLocal (mkClock sampleMidnight 0))) false)
        ["CRANE"; "SPEED"; "ERASE"]
      = w ← dailyWord ["CRANE"; "SPEED"; "ERASE"]
              (computeDayOffset (now (mkClock (sampleMidnight + Hour) 0)));
        Some (w, computeDayOffset (now (mkClock (sampleMidnight + Hour) 0)),
              mkGameStats 0 0 [] [] 0 0
                (Some (todayLocal (mkClock (sampleMidnight + Hour) 0))) false)).
Proof.
  apply (daily_puzzle_on_the_same_day (mkClock sampleMidnight 0)
           (mkClock (sampleMidnight + Hour) 0) 7
           (mkGameStats 0 0 [] [] 0 0 (Some (todayLocal (mkClock sampleMidnight 0))) false)
           ["CRANE"; "SPEED"; "ERASE"]).
  - reflexivity.
  - vm_compute. reflexivity.
Defined.

(** ** The keyboard tells the truth *)

Lemma rune_of_byte_inj (a b : ascii) : rune_of_byte a = rune_of_byte b -> a = b.
Proof.
  unfold rune_of_byte. intros H. apply N2Z.inj in H.
  rewrite <- (ascii_N_embedding a), <- (ascii_N_embedding b), H. reflexivity.
Qed.

Lemma getHint_initKeyboard (r : rune) : getHint initKeyboard r = KeyHintUnknown.
Proof.
  unfold getHint, initKeyboard.
  generalize (map (fun k => 65 + Z.of_nat k) (seq 0 26)). intros l.
  assert (H : forall kb : gmap rune KeyHint,
             default KeyHintUnknown (kb !! r) = KeyHintUnknown ->
             default KeyHintUnknown
               (foldl (fun kb i => <[i := KeyHintUnknown]> kb) kb l !! r) = KeyHintUnknown).
  { induction l as [|i l IH]; intros kb Hkb; simpl; [exact Hkb|].
    apply IH. rewrite lookup_insert. case_decide; [reflexivity|exact Hkb]. }
  apply H. reflexivity.
Qed.

Lemma recordHints_snoc (ghs : list (ascii * KeyHint)) (g : ascii) (h : KeyHint)
    (kb : gmap rune KeyHint) :
  recordHints (ghs ++ [(g, h)]) kb = setKeyHint (rune_of_byte g) h (recordHints ghs kb).
Proof. unfold recordHints. rewrite foldl_app. reflexivity. Qed.

Lemma hint_max_cases (a b : KeyHint) :
  (hint_max a b = a /\ hint_le b a) \/ (hint_max a b = b /\ hint_le a b).
Proof.
  unfold hint_max, hint_le. destruct (KeyHint_val a <? KeyHint_val b) eqn:H.
  - right. apply Z.ltb_lt in H. split; [reflexivity|lia].
  - left. apply Z.ltb_ge in H. split; [reflexivity|lia].
Qed.

(** The hint of a key after a guess was recorded is the one it had or one
    recorded for it, and it is below none of them. *)
Lemma recordHints_hint (ghs : list (ascii * KeyHint)) (kb : gmap rune KeyHint) (c : ascii) :
  (getHint (recordHints ghs kb) (rune_of_byte c) = getHint kb (rune_of_byte c)
   \/ In (c, getHint (recordHints ghs kb) (rune_of_byte c)) ghs)
  /\ hint_le (getHint kb (rune_of_byte c)) (getHint (recordHints ghs kb) (rune_of_byte c))
  /\ forall h, In (c, h) ghs -> hint_le h (getHint (recordHints ghs kb) (rune_of_byte c)).
Proof.
  induction ghs as [|[g h] ghs IH] using rev_ind.
  - simpl. split; [left; reflexivity|]. split; [unfold hint_le; lia|]. intros h [].
  - destruct IH as (Hor & Hold & Hall). rewrite recordHints_snoc.
    destruct (decide (g = c)) as [->|Hne].
    + rewrite getHint_setKeyHint.
      destruct (hint_max_cases (getHint (recordHints ghs kb) (rune_of_byte c)) h)
        as [[-> Hle]|[-> Hle]].
      * split; [|split].
        -- destruct Hor as [Hor|Hor]; [left; exact Hor|right; apply in_or_app; left; exact Hor].
        -- exact Hold.
        -- intros h' Hin. apply in_app_or in Hin as [Hin|[Heq|[]]].
           ++ apply Hall. exact Hin.
           ++ injection Heq as <-. exact Hle.
      * split; [|split].
        -- right. apply in_or_app. right. left. reflexivity.
        -- eapply hint_le_trans; eassumption.
        -- intros h' Hin. apply in_app_or in Hin as [Hin|[Heq|[]]].
           ++ eapply hint_le_trans; [apply Hall; exact Hin|exact Hle].
           ++ injection Heq as <-. unfold hint_le. lia.
    + rewrite getHint_setKeyHint_ne
        by (intros Heq; apply Hne; apply rune_of_byte_inj; exact Heq).
      split; [|split].
      * destruct Hor as [Hor|Hor]; [left; exact Hor|right; apply in_or_app; left; exact Hor].
      * exact Hold.
      * intros h' Hin. apply in_app_or in Hin as [Hin|[Heq|[]]].
        -- apply Hall. exact Hin.
        -- injection Heq as Heq _. contradiction.
Qed.

Lemma countMarked_In (c : ascii) (h : KeyHint) (gs : list ascii) (hs : list KeyHint) :
  (0 < countMarked c h gs hs)%nat <-> In (c, h) (zip gs hs).
Proof.
  revert hs. induction gs as [|g gs IH]; intros [|x hs]; simpl; try (split; [lia|tauto]).
  destruct (decide (g = c /\ x = h)) as [[-> ->]|Hne].
  - split; [auto|lia].
  - rewrite <- IH. split.
    + intros H. right. lia.
    + intros [Heq|H]; [|lia]. injection Heq as -> ->. exfalso. apply Hne. auto.
Qed.

Lemma occurrences_In (c : ascii) (h : KeyHint) (gs : list ascii) (hs : list KeyHint) :
  In (c, h) (zip gs hs) -> (0 < occurrences c gs)%nat.
Proof.
  revert hs. induction gs as [|g gs IH]; intros [|x hs]; simpl; try tauto.
  intros [Heq|H].
  - injection Heq as -> _. rewrite decide_True by reflexivity. lia.
  - specialize (IH hs H). lia.
Qed.

(** Scoring a guess keeps the keyboard truthful. *)
Lemma scoredBoard_keyboardSound (st : Session) :
  len (guess st) = WordLength -> len (word st) = WordLength ->
  keyboardSound (word st) (keyboard (board st)) ->
  keyboardSound (word st) (keyboard (scoredBoard st)).
Proof.
  intros Hg Hw Hkb c. unfold scoredBoard. simpl.
  set (hs := scoreHints (word st) (guess st)).
  set (ghs := zip (bytes (guess st)) hs).
  destruct (recordHints_hint ghs (keyboard (board st)) c) as (Hor & Hold & Hall).
  destruct (Hkb c) as [Hno Hyes].
  pose proof (credited_exactly c (guess st) (word st) Hg Hw) as Hsum.
  simpl in Hsum. fold hs in Hsum.
  set (H := getHint (recordHints ghs (keyboard (board st))) (rune_of_byte c)) in *.
  split.
  - intros HH. destruct Hor as [Hor|Hin]; [apply Hno; congruence|].
    rewrite HH in Hin. pose proof (occurrences_In _ _ _ _ Hin) as Hocc.
    assert (HL : countMarked c KeyHintLocated (bytes (guess st)) hs = 0%nat).
    { destruct (countMarked c KeyHintLocated (bytes (guess st)) hs) eqn:E; [reflexivity|].
      assert (Hin' : In (c, KeyHintLocated) ghs) by (apply countMarked_In; lia).
      apply Hall in Hin'. rewrite HH in Hin'. unfold hint_le in Hin'. simpl in Hin'. lia. }
    assert (HS : countMarked c KeyHintSomewhere (bytes (guess st)) hs = 0%nat).
    { destruct (countMarked c KeyHintSomewhere (bytes (guess st)) hs) eqn:E; [reflexivity|].
      assert (Hin' : In (c, KeyHintSomewhere) ghs) by (apply countMarked_In; lia).
      apply Hall in Hin'. rewrite HH in Hin'. unfold hint_le in Hin'. simpl in Hin'. lia. }
    lia.
  - intros HH. destruct Hor as [Hor|Hin]; [apply Hyes; rewrite <- Hor; exact HH|].
    apply countMarked_In in Hin. destruct HH as [HH|HH]; rewrite HH in Hin; lia.
Qed.

(** X20. The keyboard never lies.  It starts with every key unknown, and
    whatever keys are read in a game, a key it shows as not in the word is a
    letter that does not occur in the word, and a key it shows as somewhere
    or located is a letter that does: a later, poorer hint for a repeated
    letter never hides what an earlier position has shown. *)
Theorem keyboard_never_lies (keys : list rune) (st : Session) (run : Run) :
  playable st -> keyboardSound (word st) (keyboard (board st)) ->
  mainLoop keys st = Some run ->
  keyboardSound (word st) (keyboard (board (final run)))
  /\ keyboardSound (word st) initKeyboard.
Proof.
  intros Hp Hkb Hrun. split.
  - set (J := fun s => word s = word st /\ keyboardSound (word st) (keyboard (board s))).
    assert (Jg : forall s g, J s -> J (set_guess g s)) by (intros s g H; exact H).
    assert (Jscored : forall s, playable s -> len (guess s) = WordLength -> J s ->
              keyboardSound (word st) (keyboard (scoredBoard s))).
    { intros s Hs Hlen [Jw Jk]. rewrite <- Jw.
      apply scoredBoard_keyboardSound; [exact Hlen|apply (pl_word _ Hs)|].
      rewrite Jw. exact Jk. }
    assert (Jn : forall s, playable s -> len (guess s) = WordLength -> accepted s ->
                           guess s <> word s -> S (currentGuess s) <> TotalGuesses ->
                           J s -> J (nextGuess s)).
    { intros s Hs Hlen _ _ _ Js. pose proof Js as [Jw _]. unfold J.
      destruct (nextGuess_fields s) as (_ & _ & _ & ->).
      destruct (nextGuess_board s) as (-> & _).
      split; [exact Jw|]. apply Jscored; assumption. }
    destruct (mainLoop_run J keys st run Jg Jn Hp (conj eq_refl Hkb) Hrun)
      as [(He & Hpf & _ & Jk)|(He & s & Hs & Js & Hlen & Hacc & Hend)]; [exact Jk|].
    destruct (scored_fields s) as (_ & _ & _ & _ & _ & _ & _ & _ & Fb).
    assert (Hb : board (final run) = scoredBoard s).
    { destruct Hend as [(_ & ->)|(_ & _ & ->)]; [exact Fb|apply (nextGuess_board s)]. }
    rewrite Hb. apply Jscored; assumption.
  - intros c. rewrite getHint_initKeyboard. split; [discriminate|].
    intros [H|H]; discriminate.
Qed.

Lemma sampleSession_keyboardSound :
  keyboardSound (word sampleSession) (keyboard (board sampleSession)).
Proof.
  intros c. change (keyboard (board sampleSession)) with initKeyboard.
  rewrite getHint_initKeyboard. split; [discriminate|]. intros [H|H]; discriminate.
Qed.

Lemma keyboard_never_lies_witness :
  exists run,
    mainLoop (submitKeys "TRACE" ++ submitKeys "BRAKE") sampleSession = Some run
    /\ keyboardSound (word sampleSession) (keyboard (board (final run)))
    /\ keyboardSound (word sampleSession) initKeyboard.
Proof.
  eexists. split; [vm_compute; reflexivity|].
  apply (keyboard_never_lies (submitKeys "TRACE" ++ submitKeys "BRAKE") sampleSession);
    [constructor; vm_compute; try reflexivity; lia
    |exact sampleSession_keyboardSound
    |vm_compute; reflexivity].
Defined.

(** ** Printing the statistics *)

Lemma append_assoc (a b c : string) :
  String.append (String.append a b) c = String.append a (String.append b c).
Proof. induction a as [|x a IH]; [reflexivity|]. rewrite !append_cons, IH. reflexivity. Qed.

Lemma append_nil_r (a : string) : String.append a "" = a.
Proof. induction a as [|x a IH]; [reflexivity|]. rewrite append_cons, IH. reflexivity. Qed.

Lemma sumWins_short (wins : list Z) :
  (length wins < TotalGuesses)%nat -> loop (sumWins wins) (seq 0 TotalGuesses) 0 = None.
Proof.
  intros Hlen. apply (loop_fails (fun _ => True) _ _ (length wins)); auto.
  - intros x _. unfold sumWins. rewrite (lookup_ge_None_2 wins (length wins)) by lia.
    reflexivity.
  - apply in_seq. lia.
Qed.

(** X21. [print] needs the six entries of the histogram of the mode it
    shows: with fewer (a histogram a [~/.wordle] file can hold) it panics,
    whatever else the statistics say, before the distribution is shown. *)
Theorem print_short_histogram (toInt : float -> Z) (hardMode : bool) (currentGuess : nat)
    (dayOffset : Z) (emojiStack : list (list rune)) (gs : GameStats) (win : option bool) :
  (length (modeWins hardMode gs) < TotalGuesses)%nat ->
  GameStats_print toInt hardMode currentGuess dayOffset emojiStack gs win = None.
Proof.
  intros Hlen. unfold GameStats_print.
  change (if hardMode then HardWins gs else Wins gs) with (modeWins hardMode gs).
  cbv zeta. rewrite (sumWins_short _ Hlen). reflexivity.
Qed.

Lemma print_short_histogram_witness :
  GameStats_print int_of_float true 0 0 []
    (mkGameStats 3 0 [1; 1; 0; 0; 0; 0] [] 2 2 None false) None = None.
Proof. apply print_short_histogram. vm_compute. lia. Defined.

Lemma sumWins_zero : loop (sumWins (replicate TotalGuesses 0)) (seq 0 TotalGuesses) 0 = Some 0.
Proof. vm_compute. reflexivity. Qed.

Lemma prepareHistogram_zero :
  loop (prepareHistogram (replicate TotalGuesses 0) 0) (seq 0 TotalGuesses)
    (mkHistogram (replicate TotalGuesses zero) (float_of_int (- 1)) 0)
  = Some (mkHistogram (replicate TotalGuesses nan) (float_of_int (- 1)) 1).
Proof. vm_compute. reflexivity. Qed.

Lemma bar_zero :
  math_Min MaxHistogramBarLength
    (PrimFloat.mul nan (PrimFloat.div MaxHistogramBarLength (float_of_int (- 1)))) = nan.
Proof. vm_compute. reflexivity. Qed.

Lemma histogramLine_zero (toInt : float -> Z) (i : nat) (out : string) :
  (i < TotalGuesses)%nat ->
  histogramLine toInt (replicate TotalGuesses 0)
    (mkHistogram (replicate TotalGuesses nan) (float_of_int (- 1)) 1)
    (PrimFloat.div MaxHistogramBarLength (float_of_int (- 1))) i out
  = bar ← strings_Repeat "█" (toInt nan);
    Some (String.append out
            (String.append (strconv_Itoa (Z.of_nat i + 1))
               (String.append ": " (String.append "0" (String.append " " (String.append bar nl)))))).
Proof.
  intros Hi. unfold histogramLine. cbn [h_hist h_max h_winPadding].
  rewrite !lookup_replicate_2 by exact Hi. cbn [mbind option_bind option_ret mret].
  rewrite bar_zero. reflexivity.
Qed.

Lemma bars_zero (toInt : float -> Z) (out : string) :
  loop (histogramLine toInt (replicate TotalGuesses 0)
          (mkHistogram (replicate TotalGuesses nan) (float_of_int (- 1)) 1)
          (PrimFloat.div MaxHistogramBarLength (float_of_int (- 1))))
       (seq 0 TotalGuesses) out
  = bar ← strings_Repeat "█" (toInt nan); Some (String.append out (flatBars "0" bar)).
Proof.
  change (seq 0 TotalGuesses) with [0; 1; 2; 3; 4; 5]%nat.
  destruct (strings_Repeat "█" (toInt nan)) as [bar|] eqn:E.
  - cbn [loop]. repeat (rewrite histogramLine_zero by (vm_compute; lia); rewrite E;
                        cbn [mbind option_bind]).
    cbv [flatBars String.concat map seq TotalGuesses]. rewrite !append_assoc. reflexivity.
  - cbn [loop]. rewrite histogramLine_zero by (vm_compute; lia). rewrite E. reflexivity.
Qed.

Lemma print_no_wins (toInt : float -> Z) (hardMode : bool) (currentGuess : nat)
    (dayOffset : Z) (emojiStack : list (list rune)) (gs : GameStats) (win : option bool) :
  modeWins hardMode gs = replicate TotalGuesses 0 ->
  GameStats_print toInt hardMode currentGuess dayOffset emojiStack gs win
  = out ← (bar ← strings_Repeat "█" (toInt nan);
           Some (String.append
                   (summary hardMode
                      (if hardMode then TotalHardGames gs else TotalGames gs) 0 gs)
                   (flatBars "0" bar)));
    match win with
    | Some win =>
        if ExperimentalEmojiSupport gs
        then Some (String.append out
                     (shareText hardMode currentGuess dayOffset emojiStack win))
        else Some out
    | None => Some out
    end.
Proof.
  intros Hwins. unfold GameStats_print.
  change (if hardMode then HardWins gs else Wins gs) with (modeWins hardMode gs).
  cbv zeta. rewrite Hwins, sumWins_zero. cbn [mbind option_bind].
  rewrite prepareHistogram_zero. cbn [mbind option_bind h_max].
  rewrite bars_zero. reflexivity.
Qed.

Lemma print_no_wins_panics (toInt : float -> Z) (hardMode : bool) (currentGuess : nat)
    (dayOffset : Z) (emojiStack : list (list rune)) (gs : GameStats) (win : option bool) :
  modeWins hardMode gs = replicate TotalGuesses 0 ->
  toInt nan < 0 \/ int_max < 3 * toInt nan ->
  GameStats_print toInt hardMode currentGuess dayOffset emojiStack gs win = None.
Proof.
  intros Hwins Hf. rewrite print_no_wins by exact Hwins. unfold strings_Repeat.
  destruct (toInt nan <? 0) eqn:Hneg; [reflexivity|].
  apply Z.ltb_ge in Hneg.
  replace (int_max <? Z.of_nat (len "█") * toInt nan) with true; [reflexivity|].
  symmetry. apply Z.ltb_lt. change (Z.of_nat (len "█")) with 3. lia.
Qed.

Lemma int_of_float_nan : int_of_float nan < 0.
Proof. vm_compute. reflexivity. Qed.

(** X22. With no win yet in the mode it shows, [print] divides by the zero
    total: every bar length is [int] of what is not a number, which Go
    leaves to the platform.  Where [int(NaN)] is negative, as on amd64, or
    too large to repeat, [print] panics; where it is 0 it prints six empty
    bars under the summary. *)
Theorem print_without_wins (toInt : float -> Z) (hardMode : bool) (currentGuess : nat)
    (dayOffset : Z) (emojiStack : list (list rune)) (gs : GameStats) (win : option bool) :
  modeWins hardMode gs = replicate TotalGuesses 0 ->
  (toInt nan < 0 \/ int_max < 3 * toInt nan ->
   GameStats_print toInt hardMode currentGuess dayOffset emojiStack gs win = None)
  /\ (toInt nan = 0 ->
      GameStats_print toInt hardMode currentGuess dayOffset emojiStack gs win
      = Some (String.append
                (String.append
                   (summary hardMode (if hardMode then TotalHardGames gs else TotalGames gs)
                      0 gs)
                   (flatBars "0" ""))
                (match win with
                 | Some win =>
                     if ExperimentalEmojiSupport gs
                     then shareText hardMode currentGuess dayOffset emojiStack win
                     else ""
                 | None => ""
                 end)))
  /\ GameStats_print int_of_float hardMode currentGuess dayOffset emojiStack gs win = None.
Proof.
  intros Hwins. split; [apply print_no_wins_panics; exact Hwins|]. split.
  - intros H0. rewrite print_no_wins by exact Hwins. rewrite H0.
    change (strings_Repeat "█" 0) with (Some ""). cbn [mbind option_bind].
    destruct win as [w|]; [destruct (ExperimentalEmojiSupport gs)|];
      try reflexivity; rewrite append_nil_r; reflexivity.
  - apply print_no_wins_panics; [exact Hwins|]. left. exact int_of_float_nan.
Qed.

Lemma print_without_wins_witness :
  GameStats_print int_of_float true 3 278 [] (mkGameStats 2 1 [0; 1; 1; 0; 0; 0]
    [0; 0; 0; 0; 0; 0] 0 2 None true) (Some false) = None.
Proof.
  apply (print_without_wins int_of_float true 3 278 []
           (mkGameStats 2 1 [0; 1; 1; 0; 0; 0] [0; 0; 0; 0; 0; 0] 0 2 None true) (Some false)).
  reflexivity.
Defined.




(** X24. [--stats] on a fresh install (no home directory or no [~/.wordle]
    yet) shows the default statistics, which hold no win: where [int(NaN)]
    is negative, as on amd64, the program panics; where it is 0 it prints
    this text, the doubled percent sign of its [Println] included. *)
Theorem stats_of_a_fresh_install (toInt : float -> Z) (hardMode : bool) (fs : FileSystem) :
  homeDir fs = false \/ dotWordle fs = None ->
  (toInt nan < 0 -> mainStats toInt hardMode fs = None)
  /\ mainStats int_of_float hardMode fs = None
  /\ (toInt nan = 0 ->
      mainStats toInt hardMode fs
      = Some (String.append "Game Stats"
                (String.append (if hardMode then " (Hard Mode)" else "")
"

   Total Games: 0
         Win %%: 0
Current Streak: 0
   Best Streak: 0

Guess Distribution:

1: 0 
2: 0 
3: 0 
4: 0 
5: 0 
6: 0 
"))).
Proof.
  intros Hfs.
  assert (Hload : forall toInt,
             mainStats toInt hardMode fs
             = GameStats_print toInt hardMode 0 0 [] defaultGameStats None).
  { intros f. unfold mainStats, loadGameStats.
    destruct Hfs as [Hh|Hd]; [rewrite Hh; reflexivity|].
    destruct (homeDir fs); [rewrite Hd|]; reflexivity. }
  assert (Hwins : modeWins hardMode defaultGameStats = replicate TotalGuesses 0)
    by (destruct hardMode; reflexivity).
  split; [|split].
  - intros Hneg. rewrite Hload. apply print_no_wins_panics; [exact Hwins|left; exact Hneg].
  - rewrite Hload. apply print_no_wins_panics; [exact Hwins|left; exact int_of_float_nan].
  - intros H0. rewrite Hload, print_no_wins by exact Hwins. rewrite H0.
    destruct hardMode; vm_compute; reflexivity.
Qed.

Lemma stats_of_a_fresh_install_witness :
  mainStats int_of_float false (mkFileSystem true None) = None.
Proof.
  apply (stats_of_a_fresh_install int_of_float false (mkFileSystem true None)).
  right. reflexivity.
Defined.

(** ** Sample runs *)

Example evaluate_ERASE_SPEED_run :
  evaluate "ERASE" "SPEED" =
  Some [KeyHintSomewhere; KeyHintNotInWord; KeyHintNotInWord; KeyHintSomewhere; KeyHintSomewhere].
Proof. vm_compute. reflexivity. Qed.

Example isWord_run :
  isWord (sort_Strings ["SPEED"; "CRANE"; "ERASE"]) ["AAHED"; "ZYMIC"] "ERASE" = Some true
  /\ isWord (sort_Strings ["SPEED"; "CRANE"; "ERASE"]) ["AAHED"; "ZYMIC"] "ZYMIC" = Some true
  /\ isWord (sort_Strings ["SPEED"; "CRANE"; "ERASE"]) ["AAHED"; "ZYMIC"] "QWERT" = Some false.
Proof. vm_compute. auto. Qed.

Example computeDayOffset_run :
  computeDayOffset (1800 * 24 * Hour) = 1800
  /\ computeDayOffset (1800 * 24 * Hour + 12 * Hour) = 1800
  /\ computeDayOffset (1801 * 24 * Hour - 1) = 1801.
Proof. vm_compute. auto. Qed.

Example print_run :
  GameStats_print int_of_float false 2 278 [[EmojiSomewhere; EmojiNotInWord; EmojiLocated]]
    (mkGameStats 4 0 [0; 1; 2; 0; 0; 0] [0; 0; 0; 0; 0; 0] 2 3 None true) (Some true)
  = Some
"Game Stats

   Total Games: 4
         Win %: 75
Current Streak: 2
   Best Streak: 3

Guess Distribution:

1: 0 
2: 1 ███████
3: 2 ███████████████
4: 0 
5: 0 
6: 0 

Wordle 278 3/6

🟨⬛🟩
".
Proof. vm_compute. reflexivity. Qed.
